(** * Assembly engine of firedrake (firedrake/assemble.py)

    A shallow embedding of [assemble], [allocate_matrix],
    [create_assembly_callable] and [_assemble] with its deferred-assembly
    closure [thunk], and the properties of the assembly pipeline proved
    on it.

    The Python code is effectful: it raises exceptions, calls into the
    form compiler, the mesh layer and PyOP2, and appends to the list
    [loops].  Every such call is logged as an [Event]; a computation is a
    pair of the events it produced and either the exception it raised or
    its value. *)

From Stdlib Require Import ZArith String List Bool Lia Sorted.
From stdpp Require Import base option list strings gmap.
Import ListNotations.
Local Open Scope string_scope.
Local Open Scope list_scope.
Local Open Scope nat_scope.

Set Default Proof Using "Type".
Set Warnings "-register-all".

(** ** Python exceptions *)

Inductive ExcClass :=
| ValueError | TypeError | NotImplementedError | RuntimeError
| IndexError | KeyError | AttributeError | AssertionError.

(** An exception instance: its class and the arguments it was built
    with (the formatted message). *)
Record PyExc := mkExc { exc_class : ExcClass; exc_args : list string }.

(** ** PyOP2 names used by the code *)

Module op2.
Inductive IterationRegion := ALL | ON_BOTTOM | ON_TOP | ON_INTERIOR_FACETS.
Inductive Access := READ | INC.
End op2.

(** ** Data model *)

(** A function space.  [fs_subspaces] is empty for a space that is not
    mixed; [fs_index] is the position of a subspace in its mixed parent;
    [fs_component] is set on a component of a vector-valued space, whose
    [fs_parent] is then the space it was taken from.  [fs_real] marks a
    space of global ("R") degrees of freedom, which has no node maps. *)
Inductive FunctionSpace := mkFS {
  fs_name : string;
  fs_index : option nat;
  fs_component : option nat;
  fs_parent : option FunctionSpace;
  fs_subspaces : list FunctionSpace;
  fs_real : bool }.

(** [len(fs)] *)
Definition fs_len (fs : FunctionSpace) : nat :=
  match fs_subspaces fs with [] => 1 | l => length l end.

(** A mesh entity with its subdomain marker. *)
Record Entity := mkEntity { ent_id : nat; ent_tag : option Z }.

(** An object carrying data and node maps through its function space:
    the coordinate field, the cell orientations, a split coefficient. *)
Record DataCarrier := mkCarrier {
  dat_name : string;
  dat_space : option FunctionSpace }.

Record Mesh := mkMesh {
  mesh_id : nat;
  topology : nat;
  cell_set : list Entity;
  exterior_facet_set : list Entity;
  interior_facet_set : list Entity;
  coordinates : DataCarrier;
  cell_orientations : DataCarrier }.

Record DirichletBC := mkBC {
  bc_function_space : FunctionSpace;
  bc_nodes : list nat }.

(** The subdomain identifier of a kernel: an integer tag or one of the
    strings "otherwise" and "everywhere". *)
Inductive SubdomainId := tag (n : Z) | otherwise | everywhere.

Definition is_otherwise (s : SubdomainId) : bool :=
  match s with otherwise => true | _ => false end.

Record KernelInfo := mkKinfo {
  kernel : nat;
  integral_type : string;
  needs_orientations : bool;
  subdomain_id : SubdomainId;
  domain_number : nat;
  coeff_map : list nat;
  needs_cell_facets : bool;
  pass_layer_arg : bool }.

Record SplitKernel := mkSplitKernel {
  indices : list nat;
  kinfo : KernelInfo }.

Record Argument := mkArgument {
  arg_domain : option Mesh;
  arg_function_space : FunctionSpace }.

Record Coefficient := mkCoefficient {
  coef_domain : option Mesh;
  coef_function_space : option FunctionSpace;
  coef_split : list DataCarrier }.

(** A form (or Slate tensor expression, [is_slate]) as the assembler
    sees it.  [compiled_kernels] is what the form compiler returns for
    it; [integrals] lists [integral.integral_type()] of [f.integrals()];
    [subdomain_data] is keyed by mesh, then by integral type. *)
Record Form := mkForm {
  is_slate : bool;
  ufl_domains : list Mesh;
  arguments : list Argument;
  coefficients : list Coefficient;
  integrals : list string;
  compiled_kernels : list SplitKernel;
  subdomain_data : gmap nat (gmap string (option (list Entity))) }.

(** ** Arguments of a parallel loop *)

Inductive MapKind := cell_node_map | exterior_facet_node_map | interior_facet_node_map.

(** The value of a map expression: [None], the node map of a space
    built with a list of boundary conditions, [op2.DecoratedMap(m, d)],
    or [m[op2.i[k]]]. *)
Inductive MapVal :=
| NoMap
| NodeMap (kind : MapKind) (space : string) (bcs : option (list DirichletBC))
| DecoratedMap (m : MapVal) (d : list op2.IterationRegion)
| Indexed (m : MapVal) (k : nat).

(** Truth value of a map expression ([if m]). *)
Definition truthy (m : MapVal) : bool :=
  match m with NoMap => false | _ => true end.

Inductive Arg :=
| DatArg (d : string) (a : op2.Access) (m : MapVal)
| MatArg (i j : nat) (a : op2.Access) (maps : MapVal * MapVal)
| VecArg (i : nat) (a : op2.Access) (m : MapVal)
| GlobalArg (a : op2.Access)
| LocalFacetDat (interior : bool) (mesh : nat) (a : op2.Access)
| CellToFacets (mesh : nat) (a : op2.Access).

(** [op2.par_loop(kernel, itspace, *args, **kwargs)] *)
Record ParLoopCall := mkParLoop {
  pl_kernel : nat;
  pl_itspace : list Entity;
  pl_args : list Arg;
  pl_iterate : option op2.IterationRegion;
  pl_pass_layer_arg : bool }.

(** [zero_tensor]: the no-op [lambda: None] or the bound method
    [tensor.zero]. *)
Inductive ZeroTensor := zero_noop | tensor_zero.

(** What the code appends to [loops]. *)
Inductive LoopItem :=
| LZeroTensor (z : ZeroTensor)
| LParLoop (c : ParLoopCall)
| LSetDiag (i j : nat) (nodes : list nat) (idx : option nat)
| LMatAssemble.

Record SparsityRequest := mkSparsity {
  sp_dsets : FunctionSpace * FunctionSpace;
  sp_maps : list (MapVal * MapVal);
  sp_name : string;
  sp_nest : bool;
  sp_block_sparse : bool }.

(** ** Events *)

Inductive Event :=
| EvWarning (msg : string)
| EvMeshInit (mesh : nat)
| EvCompile (slate : bool) (parameters : gmap string string)
| EvSparsity (req : SparsityRequest)
| EvNewMatrix (name : string) (options_prefix : option string)
| EvNewImplicitMatrix (options_prefix : option string)
| EvNewFunction
| EvNewGlobal
| EvImplicitAssemble
| EvZero
| EvParLoop (collecting : bool) (c : ParLoopCall)
| EvBcNodes (bc : DirichletBC)
| EvSetDiag (collecting : bool) (i j : nat) (nodes : list nat) (idx : option nat)
| EvBcApply (bc : DirichletBC)
| EvMatAssemble
| EvLoopsAppend (l : LoopItem)
| EvAssembleExpression.

(** ** The monad of logged, fallible computations *)

Definition M (A : Type) : Type := list Event * (PyExc + A).

Definition ret {A} (a : A) : M A := ([], inr a).

Definition bind {A B} (c : M A) (k : A -> M B) : M B :=
  match c with
  | (t, inl e) => (t, inl e)
  | (t, inr a) => let '(t', r) := k a in (t ++ t', r)
  end.

Definition raise {A} (cls : ExcClass) (args : list string) : M A :=
  ([], inl (mkExc cls args)).

Definition emit (ev : Event) : M unit := ([ev], inr tt).

Declare Scope py_scope.
Delimit Scope py_scope with py.
Notation "x <- c ;; k" := (bind c (fun x => k))
  (at level 100, c at next level, right associativity) : py_scope.
Notation "c ;;; k" := (bind c (fun _ => k))
  (at level 100, right associativity) : py_scope.
Local Open Scope py_scope.

(** [for x in l: body x] *)
Fixpoint for_ {A} (l : list A) (body : A -> M unit) : M unit :=
  match l with
  | [] => ret tt
  | x :: l' => body x ;;; for_ l' body
  end.

Definition trace {A} (c : M A) : list Event := fst c.
Definition outcome {A} (c : M A) : PyExc + A := snd c.

(** The items appended to [loops], read back from the log. *)
Definition loops_of (t : list Event) : list LoopItem :=
  omap (fun ev => match ev with EvLoopsAppend l => Some l | _ => None end) t.

(** ** Python helpers *)

Definition dquote : string := String (Ascii.ascii_of_nat 34) EmptyString.

Definition str_in (s : string) (l : list string) : bool := existsb (String.eqb s) l.

(** [l[n]] *)
Definition list_index {A} (l : list A) (n : nat) : M A :=
  match l !! n with
  | Some x => ret x
  | None => raise IndexError ["list index out of range"]
  end.

(** Lexicographic [>] on pairs, as Python compares tuples. *)
Definition tuple_gt (a b : nat * nat) : bool :=
  (fst b <? fst a) || ((fst a =? fst b) && (snd b <? snd a)).

Definition tuple_ne (a b : nat * nat) : bool :=
  negb ((fst a =? fst b) && (snd a =? snd b)).

(** [<=] on subdomain identifiers; an integer and a string do not
    compare (Python 3). *)
Definition sid_leb (a b : SubdomainId) : option bool :=
  match a, b with
  | tag x, tag y => Some (x <=? y)%Z
  | tag _, _ | _, tag _ => None
  | everywhere, _ => Some true
  | otherwise, otherwise => Some true
  | otherwise, everywhere => Some false
  end.

Fixpoint sorted_insert (x : SubdomainId) (l : list SubdomainId) : option (list SubdomainId) :=
  match l with
  | [] => Some [x]
  | y :: l' =>
      match sid_leb x y with
      | None => None
      | Some true => Some (x :: l)
      | Some false => cons y <$> sorted_insert x l'
      end
  end.

(** [sorted(v)], [None] when the comparison raises [TypeError]. *)
Fixpoint sorted (v : list SubdomainId) : option (list SubdomainId) :=
  match v with
  | [] => Some []
  | x :: v' => match sorted v' with Some l => sorted_insert x l | None => None end
  end.

(** ** Function spaces and node maps *)

(** [fs[i]] (the function-space layer is not among the sources): the
    subspace at position [i], a space that is not mixed being its own
    only subspace; [IndexError] out of range. *)
Definition fs_getitem (fs : FunctionSpace) (i : nat) : M FunctionSpace :=
  match fs_subspaces fs with
  | [] => if i =? 0 then ret fs else raise IndexError ["tuple index out of range"]
  | l => list_index l i
  end.

(** What [get_map] is applied to: a function space, or a function
    (coordinates, orientations, a coefficient), which answers through
    its function space. *)
Inductive Mappable := OfSpace (fs : FunctionSpace) | OfCarrier (c : DataCarrier).

(** [x.cell_node_map(bcs)], [x.exterior_facet_node_map(bcs)],
    [x.interior_facet_node_map(bcs)] (the function-space layer is not
    among the sources).  The map is kept as an expression.  A space of
    global degrees of freedom has no map, nor has a constant: these are
    the cases the tests [if m] of the source are for. *)
Definition node_map (kind : MapKind) (x : Mappable) (bcs : option (list DirichletBC)) : MapVal :=
  let of_space fs := if fs_real fs then NoMap else NodeMap kind (fs_name fs) bcs in
  match x with
  | OfSpace fs => of_space fs
  | OfCarrier c => match dat_space c with Some fs => of_space fs | None => NoMap end
  end.

(** [m[op2.i[k]]] *)
Definition map_index (m : MapVal) (k : nat) : M MapVal :=
  match m with
  | NoMap => raise TypeError ["'NoneType' object is not subscriptable"]
  | _ => ret (Indexed m k)
  end.

(** ** The mesh layer *)

Definition sid_eqb (a b : SubdomainId) : bool :=
  match a, b with
  | tag x, tag y => (x =? y)%Z
  | otherwise, otherwise | everywhere, everywhere => true
  | _, _ => false
  end.

Definition has_tag (t : Z) (e : Entity) : bool :=
  match ent_tag e with Some u => (u =? t)%Z | None => false end.

Definition tag_declared (declared : list SubdomainId) (e : Entity) : bool :=
  match ent_tag e with
  | Some u => existsb (sid_eqb (tag u)) declared
  | None => false
  end.

(** Modelled from the spec: the entity-set selector of the mesh layer
    (firedrake/mesh.py is not among the sources).  The classifier maps a
    cell integral to the cells, an exterior or interior facet integral
    (also the vertical ones of an extruded mesh) to the exterior or
    interior facets; the horizontal facets of an extruded mesh (top,
    bottom, interior horizontal) are iterated through the cells.  An
    unknown kind has no entity set. *)
Definition entity_set (m : Mesh) (integral_type : string) : option (list Entity) :=
  if str_in integral_type ["cell"; "exterior_facet_top"; "exterior_facet_bottom"; "interior_facet_horiz"]
  then Some (cell_set m)
  else if str_in integral_type ["exterior_facet"; "exterior_facet_vert"]
  then Some (exterior_facet_set m)
  else if str_in integral_type ["interior_facet"; "interior_facet_vert"]
  then Some (interior_facet_set m)
  else None.

(** Modelled from the spec: the subdomain filtering of
    [Mesh.measure_set] (firedrake/mesh.py is not among the sources).
    Subdomain filtering accepts an explicit integer tag, or, for
    "otherwise", all entities whose tag is not among the tags declared;
    "everywhere" is the whole entity set. *)
Definition subdomain_filter (subdomain_id : SubdomainId) (declared : list SubdomainId)
    (es : list Entity) : list Entity :=
  match subdomain_id with
  | tag t => List.filter (has_tag t) es
  | everywhere => es
  | otherwise => List.filter (fun e => negb (tag_declared declared e)) es
  end.

(** Modelled from the spec: [Mesh.measure_set] (firedrake/mesh.py is not
    among the sources): the entity set of the integral kind, filtered by
    subdomain, the tags declared being those listed for the integral
    type.  An unknown integral kind fails naming the kind. *)
Definition measure_set (m : Mesh) (integral_type : string) (subdomain_id : SubdomainId)
    (all_integer_subdomain_ids : gmap string (list SubdomainId)) : M (list Entity) :=
  match entity_set m integral_type with
  | None => raise ValueError ["Unknown integral type '" +:+ integral_type +:+ "'"]
  | Some es =>
      ret (subdomain_filter subdomain_id
             (default [] (all_integer_subdomain_ids !! integral_type)) es)
  end.

(** ** Tensors *)

(** The variables the closure [thunk] captures, the destination tensor
    apart. *)
Record ThunkEnv := mkThunkEnv {
  th_f : Form;
  th_kernels : list SplitKernel;
  th_test : Argument;
  th_trial : Argument;
  th_zero_tensor : ZeroTensor;
  th_collect_loops : bool;
  th_all_integer_subdomain_ids : gmap string (list SubdomainId) }.

(** The attribute [_assembly_callback] of a matrix: never set, set to
    [None], or set to [thunk]. *)
Inductive Callback := cb_unset | cb_None | cb_thunk (env : ThunkEnv).

Record Matrix := mkMatrix {
  mat_a : Form;
  mat_bcs : option (list DirichletBC);
  block_shape : nat * nat;
  mat_sparsity : option SparsityRequest;
  _assembly_callback : Callback }.

Record ImplicitMatrix := mkImplicit {
  im_a : Form;
  im_bcs : option (list DirichletBC) }.

(** A [Function]; its [dat] has one block per subspace. *)
Record Function_ := mkFunction { fn_function_space : FunctionSpace }.

(** What a caller can pass as [tensor]. *)
Inductive Tensor :=
| AMatrix (A : Matrix)
| AnImplicitMatrix (A : ImplicitMatrix)
| AFunction (F : Function_).

(** What [_assemble] returns: [tensor.data[0]], the function, the
    matrix, the implicit matrix, or the list [loops]. *)
Inductive Result :=
| RScalar
| RFunction (F : Function_)
| RMatrix (A : Matrix)
| RImplicitMatrix (A : ImplicitMatrix)
| RLoops (loops : list LoopItem)
| RExpression.

(** Modelled from the spec: the constructor of [matrix.Matrix]
    (firedrake/matrix.py is not among the sources).  The block shape
    matches the number of top-level mixed indices in each argument
    space. *)
Definition new_Matrix (f : Form) (bcs : option (list DirichletBC)) (sparsity : SparsityRequest) : Matrix :=
  {| mat_a := f; mat_bcs := bcs;
     block_shape := (fs_len (fst (sp_dsets sparsity)), fs_len (snd (sp_dsets sparsity)));
     mat_sparsity := Some sparsity;
     _assembly_callback := cb_unset |}.

(** The destination of the accumulation and the variables bound with
    it in each branch of [_assemble]. *)
Inductive Dest :=
| DestMat (test trial : Argument) (result_matrix : Matrix)
| DestVec (test : Argument) (result_function : Function_)
| DestScalar.

Definition is_mat (d : Dest) : bool := match d with DestMat _ _ _ => true | _ => false end.
Definition is_vec (d : Dest) : bool := match d with DestVec _ _ => true | _ => false end.

(** [result()] *)
Definition result (d : Dest) : Result :=
  match d with
  | DestMat _ _ A => RMatrix A
  | DestVec _ F => RFunction F
  | DestScalar => RScalar
  end.

(** [for x in l: acc = body acc x] *)
Fixpoint for_fold {A S} (l : list A) (acc : S) (body : S -> A -> M S) : M S :=
  match l with
  | [] => ret acc
  | x :: l' => acc' <- body acc x ;; for_fold l' acc' body
  end.

(** ** The assembler *)

Section Assembly.

(** [parameters.parameters["default_matrix_type"]] and
    [parameters.parameters["default_sub_matrix_type"]]. *)
Variable default_matrix_type default_sub_matrix_type : string.

(** PyOP2, an external library: whether [op2.Sparsity] raises
    [SparsityFormatError] on a request, and whether [op2.par_loop]
    raises [MapValueError] on a call. *)
Variable sparsity_format_error : SparsityRequest -> bool.
Variable map_value_error : ParLoopCall -> bool.

(** *** The closure [thunk] *)

(** [get_map] as defined in the branches of the loop over kernels. *)
Definition GetMap : Type :=
  Mappable -> option (list DirichletBC) -> option op2.IterationRegion -> MapVal.

Definition get_map_cell : GetMap :=
  fun x bcs decoration => node_map cell_node_map x bcs.

Definition get_map_exterior_facet : GetMap :=
  fun x bcs decoration => node_map exterior_facet_node_map x bcs.

Definition get_map_interior_facet : GetMap :=
  fun x bcs decoration => node_map interior_facet_node_map x bcs.

Definition get_map_horizontal : GetMap :=
  fun x bcs decoration =>
    let map_ := node_map cell_node_map x bcs in
    match decoration with
    | Some d => DecoratedMap map_ [d]
    | None => map_
    end.

(** Lines 414-427: the boundary conditions that match the test and
    the trial index of the block a kernel writes. *)
Definition matching_bcs (block_shape : nat * nat) (i j : nat)
    (bcs : option (list DirichletBC))
  : M (option (list DirichletBC) * option (list DirichletBC)) :=
  if tuple_gt block_shape (1, 1) then
    match bcs with
    | None => raise TypeError ["'NoneType' object is not iterable"]
    | Some l =>
        r <- for_fold l ([], []) (fun acc bc =>
               let fs := bc_function_space bc in
               fs <- match fs_component fs with
                     | Some _ =>
                         match fs_parent fs with
                         | Some p => ret p
                         | None => raise AttributeError ["'NoneType' object has no attribute 'index'"]
                         end
                     | None => ret fs
                     end ;;
               let tsbc := if bool_decide (fs_index fs = Some i) then fst acc ++ [bc] else fst acc in
               let trbc := if bool_decide (fs_index fs = Some j) then snd acc ++ [bc] else snd acc in
               ret (tsbc, trbc)) ;;
        ret (Some (fst r), Some (snd r))
    end
  else ret (bcs, bcs).

(** [mat(testmap, trialmap, i, j)]; [tensor[i, j]] raises outside the
    blocks of the matrix. *)
Definition mat (test trial : Argument) (result_matrix : Matrix)
    (testmap trialmap : Mappable -> MapVal) (i j : nat) : M Arg :=
  si <- fs_getitem (arg_function_space test) i ;;
  let m := testmap (OfSpace si) in
  sj <- fs_getitem (arg_function_space trial) j ;;
  let n := trialmap (OfSpace sj) in
  let maps := (if truthy m then Indexed m 0 else NoMap,
               if truthy n then Indexed n (if truthy m then 1 else 0) else NoMap) in
  if (i <? fst (block_shape result_matrix)) && (j <? snd (block_shape result_matrix))
  then ret (MatArg i j op2.INC maps)
  else raise IndexError ["list index out of range"].

(** [vec(testmap, i)]; [tensor[i]] raises outside the blocks of the
    function. *)
Definition vec (test : Argument) (result_function : Function_)
    (testmap : Mappable -> MapVal) (i : nat) : M Arg :=
  si <- fs_getitem (arg_function_space test) i ;;
  let _testmap := testmap (OfSpace si) in
  if i <? fs_len (fn_function_space result_function)
  then ret (VecArg i op2.INC (if truthy _testmap then Indexed _testmap 0 else NoMap))
  else raise IndexError ["list index out of range"].

(** The first part of a pass of the loop over kernels (lines 397-427):
    the mesh of the kernel, its subdomain data, the block indices, and
    the boundary conditions that match them. *)
Definition kernel_context (f : Form) (dest : Dest) (bcs : option (list DirichletBC))
    (k : SplitKernel)
  : M (Mesh * option (list Entity) * (nat * nat)
       * (option (list DirichletBC) * option (list DirichletBC))) :=
  let integral_type := integral_type (kinfo k) in
  m <- list_index (ufl_domains f) (domain_number (kinfo k)) ;;
  subdomain_data <-
    match subdomain_data f !! mesh_id m with
    | Some d => ret d
    | None => raise KeyError ["mesh"]
    end ;;
  (* Find argument space indices *)
  ij <- match dest, indices k with
        | DestMat _ _ _, [i; j] => ret (i, j)
        | DestMat _ _ _, _ => raise ValueError ["wrong number of values to unpack"]
        | DestVec _ _, [i] => ret (i, 0)
        | DestVec _ _, _ => raise ValueError ["wrong number of values to unpack"]
        | DestScalar, [] => ret (0, 0)
        | DestScalar, _ => raise AssertionError []
        end ;;
  let i := fst ij in
  let j := snd ij in
  let sdata : option (list Entity) := mjoin (subdomain_data !! integral_type) in
  if negb (String.eqb integral_type "cell") && bool_decide (is_Some sdata) then
    raise NotImplementedError ["subdomain_data only supported with cell integrals."]
  else
  (* Extract block from tensor and test/trial spaces *)
  bb <- match dest with
        | DestMat _ _ result_matrix => matching_bcs (block_shape result_matrix) i j bcs
        | _ => ret (None, None)
        end ;;
  ret (m, sdata, ij, bb).

(** One pass of the loop over kernels (lines 396-519). *)
Definition kernel_step (f : Form) (dest : Dest) (collect_loops : bool)
    (all_integer_subdomain_ids : gmap string (list SubdomainId))
    (bcs : option (list DirichletBC)) (k : SplitKernel) : M unit :=
  let integral_type := integral_type (kinfo k) in
  let subdomain_id := subdomain_id (kinfo k) in
  ctx <- kernel_context f dest bcs k ;;
  let '(m, sdata, ij, bb) := ctx in
  let i := fst ij in
  let j := snd ij in
  let tsbc := fst bb in
  let trbc := snd bb in
  (* Now build arguments for the par_loop *)
  itspace <- measure_set m integral_type subdomain_id all_integer_subdomain_ids ;;
  cl <- (if String.eqb integral_type "cell" then
           let itspace := match sdata with Some s => s | None => itspace end in
           if negb (is_otherwise subdomain_id || sid_eqb subdomain_id everywhere)
              && bool_decide (is_Some sdata)
           then raise ValueError ["Cannot use subdomain data and subdomain_id"]
           else ret (itspace, get_map_cell, [], None)
         else if str_in integral_type ["exterior_facet"; "exterior_facet_vert"] then
           ret (itspace, get_map_exterior_facet,
                [LocalFacetDat false (mesh_id m) op2.READ], None)
         else if str_in integral_type ["exterior_facet_top"; "exterior_facet_bottom"] then
           let decoration :=
             if String.eqb integral_type "exterior_facet_top" then op2.ON_TOP else op2.ON_BOTTOM in
           ret (itspace, get_map_horizontal, [], Some decoration)
         else if str_in integral_type ["interior_facet"; "interior_facet_vert"] then
           ret (itspace, get_map_interior_facet,
                [LocalFacetDat true (mesh_id m) op2.READ], None)
         else if String.eqb integral_type "interior_facet_horiz" then
           ret (itspace, get_map_horizontal, [], Some op2.ON_INTERIOR_FACETS)
         else
           raise ValueError ["Unknown integral type '" +:+ integral_type +:+ "'"]) ;;
  let '(itspace, get_map, extra_args, decoration) := cl in
  (* Output argument *)
  tensor_arg <- match dest with
                | DestMat test trial result_matrix =>
                    mat test trial result_matrix
                      (fun s => get_map s tsbc decoration)
                      (fun s => get_map s trbc decoration) i j
                | DestVec test result_function =>
                    vec test result_function (fun s => get_map s None None) i
                | DestScalar => ret (GlobalArg op2.INC)
                end ;;
  let coords := coordinates m in
  cmap <- map_index (get_map (OfCarrier coords) None None) 0 ;;
  let args := [tensor_arg; DatArg (dat_name coords) op2.READ cmap] in
  args <- (if needs_orientations (kinfo k) then
             let o := cell_orientations m in
             omap_ <- map_index (get_map (OfCarrier o) None None) 0 ;;
             ret (args ++ [DatArg (dat_name o) op2.READ omap_])
           else ret args) ;;
  args <- for_fold (coeff_map (kinfo k)) args (fun args n =>
            c <- list_index (coefficients f) n ;;
            for_fold (coef_split c) args (fun args c_ =>
              let m_ := get_map (OfCarrier c_) None None in
              ret (args ++ [DatArg (dat_name c_) op2.READ
                              (if truthy m_ then Indexed m_ 0 else m_)]))) ;;
  extra_args <- (if needs_cell_facets (kinfo k) then
                   if String.eqb integral_type "cell"
                   then ret (extra_args ++ [CellToFacets (mesh_id m) op2.READ])
                   else raise AssertionError []
                 else ret extra_args) ;;
  let call := {| pl_kernel := kernel (kinfo k);
                 pl_itspace := itspace;
                 pl_args := args ++ extra_args;
                 pl_iterate := decoration;
                 pl_pass_layer_arg := pass_layer_arg (kinfo k) |} in
  if map_value_error call then
    raise RuntimeError ["Integral measure does not match measure of all coefficients/arguments"]
  else
    emit (EvParLoop collect_loops call) ;;;
    emit (EvLoopsAppend (LParLoop call)).

(** [loops.append(tensor[i, j].set_local_diagonal_entries(nodes, idx=idx))]
    inside [collecting_loops(collect_loops)]. *)
Definition set_local_diagonal_entries (collect_loops : bool) (i j : nat)
    (nodes : list nat) (idx : option nat) : M unit :=
  emit (EvSetDiag collect_loops i j nodes idx) ;;;
  emit (EvLoopsAppend (LSetDiag i j nodes idx)).

(** The body of the double loop over blocks (lines 537-557). *)
Definition bc_block (collect_loops : bool) (fs : FunctionSpace) (nodes : list nat)
    (i j : nat) : M unit :=
  if negb (i =? j) then ret tt
  else
    match fs_component fs, fs_index fs with
    | None, Some index =>
        (* Mixed, index (no ComponentFunctionSpace) *)
        if index =? i then set_local_diagonal_entries collect_loops i j nodes None
        else ret tt
    | Some component, _ =>
        (* ComponentFunctionSpace, check parent index *)
        match fs_parent fs with
        | None => raise AttributeError ["'NoneType' object has no attribute 'index'"]
        | Some parent =>
            match fs_index parent with
            | Some pindex =>
                if negb (pindex =? i) then ret tt
                else set_local_diagonal_entries collect_loops i j nodes (Some component)
            | None => set_local_diagonal_entries collect_loops i j nodes (Some component)
            end
        end
    | None, None => set_local_diagonal_entries collect_loops i j nodes None
    end.
(* The final [else: raise RuntimeError("Unhandled BC case")] of the source
   cannot be reached: the three cases above are exhaustive. *)

(** One pass of the loop over boundary conditions of a matrix
    (lines 525-557). *)
Definition apply_bc_mat (collect_loops : bool) (shape : nat * nat) (bc : DirichletBC) : M unit :=
  let fs := bc_function_space bc in
  emit (EvBcNodes bc) ;;;
  let nodes := bc_nodes bc in
  if 1 <? fs_len fs then
    raise RuntimeError ["Cannot apply boundary conditions to full mixed space. Did you forget to index it?"]
  else
    for_ (seq 0 (fst shape)) (fun i =>
      for_ (seq 0 (snd shape)) (fun j =>
        bc_block collect_loops fs nodes i j)).

(** [zero_tensor()] *)
Definition call_zero_tensor (z : ZeroTensor) : M unit :=
  match z with
  | zero_noop => ret tt
  | tensor_zero => emit EvZero
  end.

(** [thunk(bcs)], with the variables it captures as arguments. *)
Definition thunk (f : Form) (kernels : list SplitKernel) (dest : Dest)
    (zero_tensor : ZeroTensor) (collect_loops : bool)
    (all_integer_subdomain_ids : gmap string (list SubdomainId))
    (bcs : option (list DirichletBC)) : M Result :=
  (if collect_loops then emit (EvLoopsAppend (LZeroTensor zero_tensor))
   else call_zero_tensor zero_tensor) ;;;
  for_ kernels (kernel_step f dest collect_loops all_integer_subdomain_ids bcs) ;;;
  (* Must apply bcs outside loop over kernels *)
  match bcs, dest with
  | Some l, DestMat _ _ result_matrix =>
      for_ l (apply_bc_mat collect_loops (block_shape result_matrix))
  | _, _ => ret tt
  end ;;;
  match bcs, dest with
  | Some l, DestVec _ _ =>
      (if (0 <? length l) && collect_loops
       then raise NotImplementedError ["Loop collection not handled in this case"]
       else ret tt) ;;;
      for_ l (fun bc => emit (EvBcApply bc))
  | _, _ => ret tt
  end ;;;
  (if is_mat dest then
     (* Queue up matrix assembly (after we've done all the other operations) *)
     emit EvMatAssemble ;;; emit (EvLoopsAppend LMatAssemble)
   else ret tt) ;;;
  ret (result dest).

(** [A._assembly_callback(bcs)]: calling the thunk stored on a
    matrix. *)
Definition call_assembly_callback (A : Matrix) (bcs : option (list DirichletBC)) : M Result :=
  match _assembly_callback A with
  | cb_thunk env =>
      thunk (th_f env) (th_kernels env) (DestMat (th_test env) (th_trial env) A)
        (th_zero_tensor env) (th_collect_loops env)
        (th_all_integer_subdomain_ids env) bcs
  | cb_None => raise TypeError ["'NoneType' object is not callable"]
  | cb_unset => raise AttributeError ["_assembly_callback"]
  end.

(** *** [_assemble] *)

(** Lines 264-282: the iteration regions the sparsity is built for. *)
Definition sparsity_domains (integral_types : list string)
  : M (list op2.IterationRegion * list op2.IterationRegion * list op2.IterationRegion) :=
  for_fold integral_types ([], [], []) (fun acc integral_type =>
    let '(cell_domains, exterior_facet_domains, interior_facet_domains) := acc in
    if String.eqb integral_type "cell" then
      ret (cell_domains ++ [op2.ALL], exterior_facet_domains, interior_facet_domains)
    else if String.eqb integral_type "exterior_facet" then
      ret (cell_domains, exterior_facet_domains ++ [op2.ALL], interior_facet_domains)
    else if String.eqb integral_type "interior_facet" then
      ret (cell_domains, exterior_facet_domains, interior_facet_domains ++ [op2.ALL])
    else if String.eqb integral_type "exterior_facet_bottom" then
      ret (cell_domains ++ [op2.ON_BOTTOM], exterior_facet_domains, interior_facet_domains)
    else if String.eqb integral_type "exterior_facet_top" then
      ret (cell_domains ++ [op2.ON_TOP], exterior_facet_domains, interior_facet_domains)
    else if String.eqb integral_type "exterior_facet_vert" then
      ret (cell_domains, exterior_facet_domains ++ [op2.ALL], interior_facet_domains)
    else if String.eqb integral_type "interior_facet_horiz" then
      ret (cell_domains ++ [op2.ON_INTERIOR_FACETS], exterior_facet_domains, interior_facet_domains)
    else if String.eqb integral_type "interior_facet_vert" then
      ret (cell_domains, exterior_facet_domains, interior_facet_domains ++ [op2.ALL])
    else
      raise ValueError ["Unknown integral type " +:+ dquote +:+ integral_type +:+ dquote]).

(** Lines 289-299: the decorated map pairs. *)
Definition map_pairs (test trial : Argument)
    (domains : list op2.IterationRegion * list op2.IterationRegion * list op2.IterationRegion)
  : list (MapVal * MapVal) :=
  let '(cell_domains, exterior_facet_domains, interior_facet_domains) := domains in
  let pair kind d :=
    (DecoratedMap (node_map kind (OfSpace (arg_function_space test)) None) d,
     DecoratedMap (node_map kind (OfSpace (arg_function_space trial)) None) d) in
  (match cell_domains with [] => [] | d => [pair cell_node_map d] end) ++
  (match exterior_facet_domains with [] => [] | d => [pair exterior_facet_node_map d] end) ++
  (match interior_facet_domains with [] => [] | d => [pair interior_facet_node_map d] end).

(** Lines 367-372: the subdomain identifiers of the kernels that are
    not "otherwise", by integral type, sorted. *)
Definition collect_subdomain_ids (kernels : list SplitKernel) : gmap string (list SubdomainId) :=
  foldl (fun d k =>
           if is_otherwise (subdomain_id (kinfo k)) then d
           else <[integral_type (kinfo k) :=
                    default [] (d !! integral_type (kinfo k)) ++ [subdomain_id (kinfo k)]]> d)
        ∅ kernels.

Definition all_integer_subdomain_ids (kernels : list SplitKernel)
  : M (gmap string (list SubdomainId)) :=
  let d := collect_subdomain_ids kernels in
  if bool_decide (map_Forall (fun _ v => is_Some (sorted v)) d)
  then ret ((fun v => default v (sorted v)) <$> d)
  else raise TypeError ["'<' not supported between instances of 'str' and 'int'"].

Definition set_bcs (A : Matrix) (bcs : option (list DirichletBC)) : Matrix :=
  {| mat_a := mat_a A; mat_bcs := bcs; block_shape := block_shape A;
     mat_sparsity := mat_sparsity A; _assembly_callback := _assembly_callback A |}.

Definition set_assembly_callback (A : Matrix) (c : Callback) : Matrix :=
  {| mat_a := mat_a A; mat_bcs := mat_bcs A; block_shape := block_shape A;
     mat_sparsity := mat_sparsity A; _assembly_callback := c |}.

(** A computation run for the items it appends to [loops]. *)
Definition collected {A} (c : M A) : M (list LoopItem) :=
  match c with
  | (t, inl e) => (t, inl e)
  | (t, inr _) => (t, inr (loops_of t))
  end.

Definition subscripted (coeff : Coefficient) : bool :=
  match coef_function_space coeff with
  | Some fs => bool_decide (is_Some (fs_component fs))
  | None => false
  end.

(** Lines 231-339: the branch for a 2-form.  It returns early with a
    result (matrix-free, or [allocate_only]) or gives the destination
    and [zero_tensor]. *)
Definition setup_mat (f : Form) (test trial : Argument) (tensor : option Tensor)
    (bcs : option (list DirichletBC)) (inverse : bool) (mat_type sub_mat_type : string)
    (options_prefix : option string) (integral_types : list string)
    (collect_loops allocate_only : bool) : M (Result + Dest * ZeroTensor) :=
  let matfree := String.eqb mat_type "matfree" in
  let nest := String.eqb mat_type "nest" in
  let baij := if nest then String.eqb sub_mat_type "baij" else String.eqb mat_type "baij" in
  if matfree then
    (* intercept matrix-free matrices here *)
    if inverse then raise NotImplementedError ["Inverse not implemented with matfree"]
    else if collect_loops then raise NotImplementedError ["Can't collect loops with matfree"]
    else
      match tensor with
      | None =>
          emit (EvNewImplicitMatrix options_prefix) ;;;
          ret (inl (RImplicitMatrix (mkImplicit f bcs)))
      | Some (AnImplicitMatrix A) =>
          emit EvImplicitAssemble ;;; ret (inl (RImplicitMatrix A))
      | Some _ => raise ValueError ["Expecting implicit matrix with matfree"]
      end
  else
    rz <- match tensor with
          | None =>
              domains <- sparsity_domains integral_types ;;
              let fs_names := (fs_name (arg_function_space test),
                               fs_name (arg_function_space trial)) in
              let request :=
                {| sp_dsets := (arg_function_space test, arg_function_space trial);
                   sp_maps := map_pairs test trial domains;
                   sp_name := fst fs_names +:+ "_" +:+ snd fs_names +:+ "_sparsity";
                   sp_nest := nest;
                   sp_block_sparse := baij |} in
              if sparsity_format_error request then
                raise ValueError ["Monolithic matrix assembly is not supported for systems with R-space blocks."]
              else
                emit (EvSparsity request) ;;;
                emit (EvNewMatrix (fst fs_names +:+ "_" +:+ snd fs_names +:+ "_matrix")
                        options_prefix) ;;;
                ret (new_Matrix f bcs request, zero_noop)
          | Some (AnImplicitMatrix _) =>
              raise ValueError ["Expecting matfree with implicit matrix"]
          | Some (AMatrix A) =>
              (* Replace any bcs on the tensor we passed in *)
              ret (set_bcs A bcs, tensor_zero)
          | Some (AFunction _) =>
              raise AttributeError ["'Function' object has no attribute '_M'"]
          end ;;
    let result_matrix := fst rz in
    let zero_tensor := snd rz in
    if tuple_ne (block_shape result_matrix) (1, 1) && String.eqb mat_type "baij" then
      raise ValueError ["BAIJ matrix type makes no sense for mixed spaces, use 'aij'"]
    else if allocate_only then
      ret (inl (RMatrix (set_assembly_callback result_matrix cb_None)))
    else
      ret (inr (DestMat test trial result_matrix, zero_tensor)).

(** Lines 340-353: the branch for a 1-form. *)
Definition setup_vec (test : Argument) (tensor : option Tensor) : M (Dest * ZeroTensor) :=
  match tensor with
  | None =>
      emit EvNewFunction ;;;
      ret (DestVec test (mkFunction (arg_function_space test)), zero_noop)
  | Some (AFunction F) => ret (DestVec test F, tensor_zero)
  | Some _ => raise AttributeError ["object has no attribute 'dat'"]
  end.

(** Lines 354-360: 0-forms are always scalar. *)
Definition setup_scalar (tensor : option Tensor) : M (Dest * ZeroTensor) :=
  match tensor with
  | None => emit EvNewGlobal ;;; ret (DestScalar, zero_noop)
  | Some _ => raise ValueError ["Can't assemble 0-form into existing tensor"]
  end.

(** Lines 197-208: all domains, arguments and coefficients live on
    one mesh topology. *)
Definition check_topology (f : Form) : M unit :=
  first <- list_index (ufl_domains f) 0 ;;
  let topology0 := topology first in
  for_ (ufl_domains f) (fun m =>
    (* Ensure mesh is "initialised" *)
    emit (EvMeshInit (mesh_id m)) ;;;
    if negb (topology m =? topology0)
    then raise NotImplementedError ["All integration domains must share a mesh topology."]
    else ret tt) ;;;
  for_ (map arg_domain (arguments f) ++ map coef_domain (coefficients f)) (fun domain =>
    match domain with
    | Some d =>
        if negb (topology d =? topology0)
        then raise NotImplementedError ["Assembly with multiple meshes not supported."]
        else ret tt
    | None => ret tt
    end).

(** Lines 182-360 of [_assemble]: checks, compilation, and the choice
    of the destination tensor.  It returns early with a result
    (matrix-free, or [allocate_only]) or gives the destination and
    [zero_tensor]. *)
Definition prepare (f : Form) (tensor : option Tensor) (bcs : option (list DirichletBC))
    (form_compiler_parameters : option (gmap string string)) (inverse : bool)
    (mat_type sub_mat_type : option string) (options_prefix : option string)
    (collect_loops allocate_only : bool) : M (Result + Dest * ZeroTensor) :=
  let mat_type := default default_matrix_type mat_type in
  if negb (str_in mat_type ["matfree"; "aij"; "baij"; "nest"]) then
    raise ValueError ["Unrecognised matrix type, '" +:+ mat_type +:+ "'"]
  else
  let sub_mat_type := default default_sub_matrix_type sub_mat_type in
  if negb (str_in sub_mat_type ["aij"; "baij"]) then
    raise ValueError ["Invalid submatrix type, '%s' (not 'aij' or 'baij')"; sub_mat_type]
  else
  let form_compiler_parameters :=
    <["assemble_inverse" := if inverse then "True" else "False"]>
      (default ∅ form_compiler_parameters) in
  check_topology f ;;;
  emit (EvCompile (is_slate f) form_compiler_parameters) ;;;
  let kernels := compiled_kernels f in
  let integral_types :=
    if is_slate f then map (fun kernel => integral_type (kinfo kernel)) kernels
    else integrals f in
  let rank := length (arguments f) in
  if existsb subscripted (coefficients f) then
    raise NotImplementedError ["Integration of subscripted VFS not yet implemented"]
  else if inverse && negb (rank =? 2) then
    raise ValueError ["Can only assemble the inverse of a 2-form"]
  else
  match arguments f with
  | [test; trial] =>
      setup_mat f test trial tensor bcs inverse mat_type sub_mat_type
        options_prefix integral_types collect_loops allocate_only
  | [test] => r <- setup_vec test tensor ;; ret (inr r)
  | _ => r <- setup_scalar tensor ;; ret (inr r)
  end.

(** [_assemble]: [prepare], then lines 362-575. *)
Definition _assemble (f : Form) (tensor : option Tensor) (bcs : option (list DirichletBC))
    (form_compiler_parameters : option (gmap string string)) (inverse : bool)
    (mat_type sub_mat_type : option string) (options_prefix : option string)
    (collect_loops allocate_only : bool) : M Result :=
  s <- prepare f tensor bcs form_compiler_parameters inverse mat_type sub_mat_type
         options_prefix collect_loops allocate_only ;;
  let kernels := compiled_kernels f in
  match s with
  | inl r => ret r
  | inr (dest, zero_tensor) =>
      ids <- all_integer_subdomain_ids kernels ;;
      if collect_loops then
        loops <- collected (thunk f kernels dest zero_tensor collect_loops ids bcs) ;;
        ret (RLoops loops)
      else
        match dest with
        | DestMat test trial result_matrix =>
            ret (RMatrix (set_assembly_callback result_matrix
                            (cb_thunk (mkThunkEnv f kernels test trial zero_tensor
                                         collect_loops ids))))
        | _ => thunk f kernels dest zero_tensor collect_loops ids bcs
        end
  end.

(** *** The public entry points *)

(** [solving._extract_bcs] (firedrake/solving.py is not among the
    sources). *)
Variable _extract_bcs : option (list DirichletBC) -> option (list DirichletBC).

(** The keyword arguments [assemble] looks at, and the names of any
    others. *)
Record Kwargs := mkKwargs {
  kw_nest : option (option bool);
  kw_collect_loops : option bool;
  kw_allocate_only : option bool;
  kw_others : list string }.

(** What [assemble] is given: a form or Slate tensor, another UFL
    expression, or something else. *)
Inductive Assemblable :=
| AForm (f : Form)
| AnExpr
| NotAssemblable (repr : string).

Definition assemble (f : Assemblable) (tensor : option Tensor)
    (bcs : option (list DirichletBC))
    (form_compiler_parameters : option (gmap string string)) (inverse : bool)
    (mat_type sub_mat_type : option string) (options_prefix : option string)
    (kwargs : Kwargs) : M Result :=
  mat_type <- match kw_nest kwargs with
              | Some nest =>
                  emit (EvWarning "The 'nest' argument is deprecated, please set 'mat_type' instead") ;;;
                  ret (match nest with
                       | Some b => Some (if b then "nest" else "aij")
                       | None => mat_type
                       end)
              | None => ret mat_type
              end ;;
  let collect_loops := default false (kw_collect_loops kwargs) in
  let allocate_only := default false (kw_allocate_only kwargs) in
  match kw_others kwargs with
  | _ :: _ =>
      raise TypeError ["Unknown keyword arguments '" +:+ String.concat ", " (kw_others kwargs) +:+ "'"]
  | [] =>
      match f with
      | AForm f =>
          _assemble f tensor (_extract_bcs bcs) form_compiler_parameters inverse
            mat_type sub_mat_type options_prefix collect_loops allocate_only
      | AnExpr => emit EvAssembleExpression ;;; ret RExpression
      | NotAssemblable r => raise TypeError ["Unable to assemble: " +:+ r]
      end
  end.

Definition allocate_matrix (f : Form) (bcs : option (list DirichletBC))
    (form_compiler_parameters : option (gmap string string)) (inverse : bool)
    (mat_type sub_mat_type : option string) (options_prefix : option string) : M Result :=
  _assemble f None bcs form_compiler_parameters inverse mat_type sub_mat_type
    options_prefix false true.

(** What [create_assembly_callable] returns: the bound method
    [tensor.assemble], or the closure that calls every collected
    loop. *)
Inductive AssemblyCallable :=
| TensorAssemble (tensor : Tensor)
| CallLoops (loops : list LoopItem).

Definition create_assembly_callable (f : Form) (tensor : option Tensor)
    (bcs : option (list DirichletBC))
    (form_compiler_parameters : option (gmap string string)) (inverse : bool)
    (mat_type sub_mat_type : option string) : M AssemblyCallable :=
  match tensor with
  | None => raise ValueError ["Have to provide tensor to write to"]
  | Some t =>
      if bool_decide (mat_type = Some "matfree") then ret (TensorAssemble t)
      else
        r <- _assemble f tensor bcs form_compiler_parameters inverse mat_type
               sub_mat_type None true false ;;
        match r with
        | RLoops loops => ret (CallLoops loops)
        | _ => raise TypeError ["object is not iterable"]
        end
  end.

(** Calling a collected loop. *)
Definition call_loop (l : LoopItem) : M unit :=
  match l with
  | LZeroTensor z => call_zero_tensor z
  | LParLoop c => emit (EvParLoop false c)
  | LSetDiag i j nodes idx => emit (EvSetDiag false i j nodes idx)
  | LMatAssemble => emit EvMatAssemble
  end.

(** Calling the callable made by [create_assembly_callable]. *)
Definition call_assembly_callable (c : AssemblyCallable) : M unit :=
  match c with
  | CallLoops loops => for_ loops call_loop
  | TensorAssemble _ => emit EvImplicitAssemble
  end.

End Assembly.

(** ** Small forms used in the examples below *)

Module Examples.

Definition V : FunctionSpace := mkFS "V" None None None [] false.
Definition Q : FunctionSpace := mkFS "Q" None None None [] false.
Definition W : FunctionSpace :=
  mkFS "W" None None None
    [mkFS "V" (Some 0) None None [] false; mkFS "Q" (Some 1) None None [] false] false.
Definition W0 : FunctionSpace := mkFS "V" (Some 0) None (Some W) [] false.
Definition W1 : FunctionSpace := mkFS "Q" (Some 1) None (Some W) [] false.

Definition X : DataCarrier := mkCarrier "coords" (Some V).
Definition O : DataCarrier := mkCarrier "orientations" (Some V).

Definition e (n : nat) (t : Z) : Entity := mkEntity n (Some t).

Definition mesh : Mesh :=
  mkMesh 0 0 [e 0 1; e 1 1; e 2 2; e 3 3] [e 10 1; e 11 2] [e 20 1] X O.

Definition kern (n : nat) (it : string) (sd : SubdomainId) (idx : list nat) : SplitKernel :=
  mkSplitKernel idx (mkKinfo n it false sd 0 [] false false).

Definition no_data : gmap nat (gmap string (option (list Entity))) := {[ 0 := ∅ ]}.

Definition arg (fs : FunctionSpace) : Argument := mkArgument (Some mesh) fs.

(** A 0-form, a 1-form and a 2-form on [V] with one cell integral. *)
Definition functional : Form :=
  mkForm false [mesh] [] [] ["cell"] [kern 7 "cell" otherwise []] no_data.
Definition linear : Form :=
  mkForm false [mesh] [arg V] [] ["cell"] [kern 7 "cell" otherwise [0]] no_data.
Definition bilinear : Form :=
  mkForm false [mesh] [arg V; arg V] [] ["cell"] [kern 7 "cell" otherwise [0; 0]] no_data.

(** PyOP2 raising nothing. *)
Definition no_error {A} (_ : A) : bool := false.

Definition run_assemble (f : Form) (tensor : option Tensor) (bcs : option (list DirichletBC))
    (inverse : bool) (mat_type : option string) (kwargs : Kwargs) : M Result :=
  assemble "aij" "baij" no_error no_error (fun b => Some (default [] b))
    (AForm f) tensor bcs None inverse mat_type None None kwargs.

Definition no_kwargs : Kwargs := mkKwargs None None None [].

(** A matrix of one block, as [allocate_matrix] leaves it. *)
Definition A11 : Matrix := mkMatrix bilinear None (1, 1) None cb_None.

End Examples.

(** ** The effect of the loops on a matrix *)

Section Execution.

(** The blocks of a matrix, by block index, and what PyOP2 does to
    them: [tensor.zero()] zeroes every block, a parallel loop
    accumulates into the matrix, [set_local_diagonal_entries] changes one
    block, [tensor.assemble()] finalises the matrix. *)
Context {Block : Type}.
Variable zero : Block -> Block.
Variable accumulate : ParLoopCall -> gmap (nat * nat) Block -> gmap (nat * nat) Block.
Variable set_diagonal : list nat -> option nat -> Block -> Block.
Variable finalize : gmap (nat * nat) Block -> gmap (nat * nat) Block.

(** Calling one item of [loops]. *)
Definition run_loop (T : gmap (nat * nat) Block) (l : LoopItem) : gmap (nat * nat) Block :=
  match l with
  | LZeroTensor zero_noop => T
  | LZeroTensor tensor_zero => zero <$> T
  | LParLoop c => accumulate c T
  | LSetDiag i j nodes idx => alter (set_diagonal nodes idx) (i, j) T
  | LMatAssemble => finalize T
  end.

(** [for kernel in loops: kernel()] *)
Definition run_loops (loops : list LoopItem) (T : gmap (nat * nat) Block)
  : gmap (nat * nat) Block :=
  foldl run_loop T loops.

End Execution.

(** * Vocabulary of the properties *)

(** ** Reading the log *)

(** ** Reading the log *)

Definition is_accumulation (ev : Event) : bool :=
  match ev with EvParLoop _ _ => true | _ => false end.

Definition is_allocation (ev : Event) : bool :=
  match ev with
  | EvSparsity _ | EvNewMatrix _ _ | EvNewImplicitMatrix _ | EvNewFunction | EvNewGlobal => true
  | _ => false
  end.

Definition is_compilation (ev : Event) : bool :=
  match ev with EvCompile _ _ => true | _ => false end.

Definition is_zero (ev : Event) : bool :=
  match ev with EvZero => true | _ => false end.

Definition is_set_diag (ev : Event) : bool :=
  match ev with EvSetDiag _ _ _ _ _ => true | _ => false end.

Definition is_finalize (ev : Event) : bool :=
  match ev with EvMatAssemble => true | _ => false end.

(** The parallel loops issued, in order, with the [collecting_loops]
    flag they were issued under. *)
Definition par_loops (t : list Event) : list (bool * ParLoopCall) :=
  omap (fun ev => match ev with EvParLoop c call => Some (c, call) | _ => None end) t.

(** The kernels accumulated, in order. *)
Definition kernels_run (t : list Event) : list nat :=
  map (fun p => pl_kernel (snd p)) (par_loops t).

(** [bc.apply] calls on a vector, in order. *)
Definition bcs_applied (t : list Event) : list DirichletBC :=
  omap (fun ev => match ev with EvBcApply bc => Some bc | _ => None end) t.

(** Every event of the log of [c] satisfies [P]. *)
Definition quiet {A} (P : Event -> Prop) (c : M A) : Prop := Forall P (trace c).

(** [c] logs nothing. *)
Definition silent {A} (c : M A) : Prop := trace c = [].

(** Events of [prepare]: mesh initialisation, compilation, allocation,
    and the assembly of a supplied matrix-free matrix. *)
Definition setup_event (ev : Event) : Prop :=
  match ev with
  | EvMeshInit _ | EvCompile _ _ | EvSparsity _ | EvNewMatrix _ _
  | EvNewImplicitMatrix _ | EvNewFunction | EvNewGlobal | EvImplicitAssemble => True
  | _ => False
  end.

(** Events of the boundary-condition and finalisation steps. *)
Definition constraint_event (ev : Event) : Prop :=
  match ev with
  | EvBcNodes _ | EvSetDiag _ _ _ _ _ | EvBcApply _ | EvMatAssemble
  | EvLoopsAppend (LSetDiag _ _ _ _) | EvLoopsAppend LMatAssemble => True
  | _ => False
  end.

(** The log [t] shows one run of the pipeline over [kernels]: a first
    part in which every kernel is accumulated exactly once, in the order
    of [kernels], with the flag [collecting], and which holds no
    boundary-condition or finalisation event; then a second part made of
    such events only. *)
Definition ran_pipeline_once (kernels : list SplitKernel) (collecting : bool)
    (t : list Event) : Prop :=
  exists t1 t2,
    t = t1 ++ t2 /\
    kernels_run t1 = map (fun k => kernel (kinfo k)) kernels /\
    Forall (fun p => fst p = collecting) (par_loops t1) /\
    Forall (fun ev => ~ constraint_event ev) t1 /\
    Forall constraint_event t2.

(** The events of issuing the parallel loops [calls] in turn. *)
Definition issued (collecting : bool) (calls : list ParLoopCall) : list Event :=
  flat_map (fun call => [EvParLoop collecting call; EvLoopsAppend (LParLoop call)]) calls.

(** The part of [thunk] that follows the loop over kernels (lines
    521-566): boundary conditions, then the queued matrix assembly. *)
Definition after_kernels (dest : Dest) (collect_loops : bool)
    (bcs : option (list DirichletBC)) : M Result :=
  match bcs, dest with
  | Some l, DestMat _ _ result_matrix =>
      for_ l (apply_bc_mat collect_loops (block_shape result_matrix))
  | _, _ => ret tt
  end ;;;
  match bcs, dest with
  | Some l, DestVec _ _ =>
      (if (0 <? length l) && collect_loops
       then raise NotImplementedError ["Loop collection not handled in this case"]
       else ret tt) ;;;
      for_ l (fun bc => emit (EvBcApply bc))
  | _, _ => ret tt
  end ;;;
  (if is_mat dest then emit EvMatAssemble ;;; emit (EvLoopsAppend LMatAssemble)
   else ret tt) ;;;
  ret (result dest).

(** The first statement of [thunk] (lines 392-395). *)
Definition zero_step (zero_tensor : ZeroTensor) (collect_loops : bool) : M unit :=
  if collect_loops then emit (EvLoopsAppend (LZeroTensor zero_tensor))
  else call_zero_tensor zero_tensor.

(** Neither a call of [tensor.zero] nor the collection of
    [zero_tensor]. *)
Definition not_zero_step (ev : Event) : Prop :=
  is_zero ev = false /\ forall z, ev <> EvLoopsAppend (LZeroTensor z).

(** Nothing allocated and nothing accumulated. *)
Definition not_allocation_nor_accumulation (ev : Event) : Prop :=
  is_allocation ev = false /\ is_accumulation ev = false.

(** The top-level mixed index the space of a boundary condition
    resolves to: its own index, or the index of its parent when it is a
    component of a vector-valued subspace. *)
Definition owning_index (fs : FunctionSpace) : option nat :=
  match fs_component fs with
  | Some _ => match fs_parent fs with Some parent => fs_index parent | None => None end
  | None => fs_index fs
  end.

(** Every diagonal operation among the events is on block [(k, k)]. *)
Definition on_block (k : nat) (ev : Event) : Prop :=
  match ev with
  | EvSetDiag _ i j _ _ | EvLoopsAppend (LSetDiag i j _ _) => i = k /\ j = k
  | EvBcNodes _ => True
  | _ => False
  end.

(** The entity [e] is selected by the subdomain identifier of the
    kernel [k] of a form with kernels [kernels]: it carries the tag of
    [k]; or, for "otherwise", its tag is not an integer tag of a kernel
    of the same integral type. *)
Definition selected (kernels : list SplitKernel) (k : SplitKernel) (e : Entity) : Prop :=
  match subdomain_id (kinfo k) with
  | tag t => ent_tag e = Some t
  | otherwise =>
      forall k' t, In k' kernels ->
        integral_type (kinfo k') = integral_type (kinfo k) ->
        subdomain_id (kinfo k') = tag t -> ent_tag e <> Some t
  | everywhere => True
  end.

(** Events of a run of the thunk. *)
Definition thunk_event (ev : Event) : Prop :=
  match ev with
  | EvZero | EvParLoop _ _ | EvBcNodes _ | EvSetDiag _ _ _ _ _ | EvBcApply _
  | EvMatAssemble | EvLoopsAppend _ => True
  | _ => False
  end.

Definition not_allocation (ev : Event) : Prop := is_allocation ev = false.

(** The block shape of the matrix [A] is the one of the argument
    spaces of the 2-form [f]. *)
Definition shape_compatible (f : Form) (A : Matrix) : Prop :=
  match arguments f with
  | [test; trial] =>
      block_shape A = (fs_len (arg_function_space test), fs_len (arg_function_space trial))
  | _ => False
  end.

(** The spaces of the blocks of a matrix along one argument space. *)
Definition blocks_of (fs : FunctionSpace) : list FunctionSpace :=
  match fs_subspaces fs with [] => [fs] | l => l end.

(** Some block of the sparsity is on a space of global ("R") degrees of
    freedom, whose nodes cannot be stored block-sparse. *)
Definition has_real_block (request : SparsityRequest) : bool :=
  existsb fs_real (blocks_of (fst (sp_dsets request)))
  || existsb fs_real (blocks_of (snd (sp_dsets request))).

(** Modelled from the spec: when the Sparsity Builder (PyOP2's
    [op2.Sparsity], an external library) raises [SparsityFormatError]:
    block-sparse storage is invalid when any block corresponds to a space
    whose nodes are not uniformly blockable. *)
Definition rejects_unblockable (sparsity_format_error : SparsityRequest -> bool) : Prop :=
  forall request,
    sp_block_sparse request = true -> has_real_block request = true ->
    sparsity_format_error request = true.

(** The integral kinds the assembler knows. *)
Definition recognised (integral_type : string) : bool :=
  str_in integral_type
    ["cell"; "exterior_facet"; "interior_facet"; "exterior_facet_bottom";
     "exterior_facet_top"; "exterior_facet_vert"; "interior_facet_horiz";
     "interior_facet_vert"].

(** ** One mesh topology *)

(** All integration domains of [f], and the domains of its arguments
    and coefficients that have one, have topology [t]. *)
Definition shares_topology (f : Form) (t : nat) : Prop :=
  (forall m, In m (ufl_domains f) -> topology m = t) /\
  (forall a d, In a (arguments f) -> arg_domain a = Some d -> topology d = t) /\
  (forall c d, In c (coefficients f) -> coef_domain c = Some d -> topology d = t).

(** Nothing compiled, allocated or accumulated. *)
Definition untouched (ev : Event) : Prop :=
  is_compilation ev = false /\ is_allocation ev = false /\ is_accumulation ev = false.

Definition not_accumulation (ev : Event) : Prop := is_accumulation ev = false.

(** ** Forms used as examples *)

Module TopologyExample.
Import Examples.

(** A second mesh, on another topology. *)
Definition other_mesh : Mesh := mkMesh 1 1 [] [] [] X O.

(** A 1-form whose coefficient lives on the other mesh. *)
Definition two_meshes : Form :=
  mkForm false [mesh] [arg V] [mkCoefficient (Some other_mesh) (Some V) [X]]
    ["cell"] [kern 7 "cell" otherwise [0]] no_data.
End TopologyExample.

Module BcExample.
Import Examples.

(** A boundary condition on the second subspace of [W], one on a
    component of a vector-valued first subspace, and one on the whole of
    [W]. *)
Definition bc_Q : DirichletBC := mkBC W1 [3; 4].
Definition bc_component : DirichletBC :=
  mkBC (mkFS "V_0" None (Some 0) (Some W0) [] false) [5].
Definition bc_W : DirichletBC := mkBC W [3; 4].

(** A stand-in for the blocks of a 2 x 2 matrix: the list of the
    operations each block has seen. *)
Definition blocks : gmap (nat * nat) (list string) :=
  {[ (0, 0) := ["a00"]; (0, 1) := ["a01"]; (1, 0) := ["a10"]; (1, 1) := ["a11"] ]}.
Definition zero (b : list string) : list string := b ++ ["zero"].
Definition accumulate (c : ParLoopCall) (T : gmap (nat * nat) (list string))
  : gmap (nat * nat) (list string) := (fun b => b ++ ["accumulate"]) <$> T.
Definition set_diagonal (nodes : list nat) (idx : option nat) (b : list string)
  : list string := b ++ ["diagonal"].
Definition finalize (T : gmap (nat * nat) (list string)) : gmap (nat * nat) (list string) := T.

(** A mixed 2-form on [W] x [W] with one kernel for block (0, 0), and
    a matrix of 2 x 2 blocks for it. *)
Definition mixed : Form :=
  mkForm false [mesh] [arg W; arg W] [] ["cell"] [kern 7 "cell" otherwise [0; 0]] no_data.
Definition A22 : Matrix := mkMatrix mixed None (2, 2) None cb_None.
End BcExample.

Module SubdomainExample.
Import Examples.

(** A 1-form with a cell kernel for tag 1 and an "otherwise" cell
    kernel. *)
Definition tagged_kernel : SplitKernel := kern 1 "cell" (tag 1) [0].
Definition otherwise_kernel : SplitKernel := kern 2 "cell" otherwise [0].
Definition tagged : Form :=
  mkForm false [mesh] [arg V] [] ["cell"] [tagged_kernel; otherwise_kernel] no_data.
Definition tagged_ids : gmap string (list SubdomainId) := {[ "cell" := [tag 1] ]}.

(** The loop of the "otherwise" kernel: over the cells tagged 2 and 3. *)
Definition otherwise_call : ParLoopCall :=
  mkParLoop 2 [e 2 2; e 3 3]
    [VecArg 0 op2.INC (Indexed (NodeMap cell_node_map "V" None) 0);
     DatArg "coords" op2.READ (Indexed (NodeMap cell_node_map "V" None) 0)]
    None false.

(** A 1-form with only an "otherwise" cell kernel, whose cell integral
    carries subdomain data: the first cell. *)
Definition with_data : Form :=
  mkForm false [mesh] [arg V] [] ["cell"] [otherwise_kernel]
    {[ 0 := {[ "cell" := Some [e 0 1] ]} ]}.
End SubdomainExample.

Module ReuseExample.
Import Examples.

Definition bc_V : DirichletBC := mkBC V [0; 1].

(** Assembling the 2-form on [V] into the supplied one-block matrix,
    with a boundary condition. *)
Definition reuse : M Result :=
  _assemble "aij" "baij" no_error no_error bilinear (Some (AMatrix A11)) (Some [bc_V])
    None false None None None false false.
Definition reused : Result :=
  match outcome reuse with inr r => r | inl _ => RScalar end.
End ReuseExample.

Module RealSpaceExample.
Import Examples.

(** A mixed space with a block of global degrees of freedom, a 2-form
    on it, and a matrix of 2 x 2 blocks. *)
Definition R : FunctionSpace := mkFS "R" (Some 1) None None [] true.
Definition VR : FunctionSpace :=
  mkFS "VR" None None None [mkFS "V" (Some 0) None None [] false; R] false.
Definition constrained : Form :=
  mkForm false [mesh] [arg VR; arg VR] [] ["cell"] [kern 7 "cell" otherwise [0; 0]] no_data.
Definition A_VR : Matrix := mkMatrix constrained None (2, 2) None cb_None.

(** A Sparsity Builder that raises exactly for a block-sparse request
    with such a block. *)
Definition builder (request : SparsityRequest) : bool :=
  sp_block_sparse request && has_real_block request.
End RealSpaceExample.

Module UnknownKindExample.
Import Examples.

(** A 1-form with a cell integral and a vertex (point) integral, a
    kind of integral UFL has and the assembler does not. *)
Definition cell_kernel : SplitKernel := kern 7 "cell" otherwise [0].
Definition vertex_kernel : SplitKernel := kern 8 "vertex" otherwise [0].
Definition with_vertex : Form :=
  mkForm false [mesh] [arg V] [] ["cell"; "vertex"] [cell_kernel; vertex_kernel] no_data.
End UnknownKindExample.

(** * Vocabulary of the further properties *)

(** The iteration region an integral kind adds to the cell maps, to the
    exterior-facet maps and to the interior-facet maps of the sparsity
    (lines 264-282). *)
Definition cell_region (integral_type : string) : option op2.IterationRegion :=
  if String.eqb integral_type "cell" then Some op2.ALL
  else if String.eqb integral_type "exterior_facet_bottom" then Some op2.ON_BOTTOM
  else if String.eqb integral_type "exterior_facet_top" then Some op2.ON_TOP
  else if String.eqb integral_type "interior_facet_horiz" then Some op2.ON_INTERIOR_FACETS
  else None.

Definition exterior_facet_region (integral_type : string) : option op2.IterationRegion :=
  if str_in integral_type ["exterior_facet"; "exterior_facet_vert"] then Some op2.ALL else None.

Definition interior_facet_region (integral_type : string) : option op2.IterationRegion :=
  if str_in integral_type ["interior_facet"; "interior_facet_vert"] then Some op2.ALL else None.

(** The boundary condition [bc] belongs to the top-level mixed index
    [i]. *)
Definition owned_by (i : nat) (bc : DirichletBC) : bool :=
  bool_decide (owning_index (bc_function_space bc) = Some i).

(** A space that is a component of a vector-valued space names that
    space as its parent. *)
Definition component_has_parent (bc : DirichletBC) : Prop :=
  is_Some (fs_component (bc_function_space bc)) -> is_Some (fs_parent (bc_function_space bc)).

(** The iteration region a parallel loop is restricted to, by integral
    kind (lines 438-485): the horizontal facets of an extruded mesh are
    reached through the cells. *)
Definition decoration_of (integral_type : string) : option op2.IterationRegion :=
  if String.eqb integral_type "exterior_facet_top" then Some op2.ON_TOP
  else if String.eqb integral_type "exterior_facet_bottom" then Some op2.ON_BOTTOM
  else if String.eqb integral_type "interior_facet_horiz" then Some op2.ON_INTERIOR_FACETS
  else None.

(** The arguments that follow the coefficients in a parallel loop: the
    local facet numbers for a facet integral that iterates over facets,
    the cell-to-facet data for a kernel that asks for it. *)
Definition trailing_args (m : Mesh) (ki : KernelInfo) : list Arg :=
  (if str_in (integral_type ki) ["exterior_facet"; "exterior_facet_vert"]
   then [LocalFacetDat false (mesh_id m) op2.READ]
   else if str_in (integral_type ki) ["interior_facet"; "interior_facet_vert"]
   then [LocalFacetDat true (mesh_id m) op2.READ]
   else []) ++
  (if needs_cell_facets ki then [CellToFacets (mesh_id m) op2.READ] else []).

(** [a] increments the block of the destination that the indices
    [idx] of a kernel name, and that block exists. *)
Definition output_arg (dest : Dest) (idx : list nat) (a : Arg) : Prop :=
  match dest, a with
  | DestMat _ _ A, MatArg i j op2.INC _ =>
      idx = [i; j] /\ i < fst (block_shape A) /\ j < snd (block_shape A)
  | DestVec _ F, VecArg i op2.INC _ => idx = [i] /\ i < fs_len (fn_function_space F)
  | DestScalar, GlobalArg op2.INC => idx = []
  | _, _ => False
  end.

(** What one pass of the loop over kernels has established when it
    issues its parallel loop [call], under the flag [c], for the kernel
    [k] on the mesh [m] with subdomain data [sdata]. *)
Record call_shape (map_value_error : ParLoopCall -> bool) (dest : Dest)
    (collect_loops : bool) (k : SplitKernel) (m : Mesh) (sdata : option (list Entity))
    (c : bool) (call : ParLoopCall) : Prop := mkCallShape {
  cs_flag : c = collect_loops;
  cs_accepted : map_value_error call = false;
  cs_kernel : pl_kernel call = kernel (kinfo k);
  cs_layer : pl_pass_layer_arg call = pass_layer_arg (kinfo k);
  cs_kind : recognised (integral_type (kinfo k)) = true;
  cs_iterate : pl_iterate call = decoration_of (integral_type (kinfo k));
  cs_data :
    sdata <> None ->
    integral_type (kinfo k) = "cell" /\
    is_otherwise (subdomain_id (kinfo k)) || sid_eqb (subdomain_id (kinfo k)) everywhere = true;
  cs_args :
    exists out cmap rest,
      output_arg dest (indices k) out /\
      pl_args call = out :: DatArg (dat_name (coordinates m)) op2.READ cmap :: rest;
  cs_trailing : exists pre, pl_args call = pre ++ trailing_args m (kinfo k);
  cs_cell_facets : needs_cell_facets (kinfo k) = true -> integral_type (kinfo k) = "cell" }.

(** ** Loops used as examples *)

Module LoopExample.
Import Examples.

(** The loop of the "otherwise" kernel of the 1-form whose cell integral
    carries subdomain data: over the data, the first cell. *)
Definition data_call : ParLoopCall :=
  mkParLoop 2 [e 0 1]
    [VecArg 0 op2.INC (Indexed (NodeMap cell_node_map "V" None) 0);
     DatArg "coords" op2.READ (Indexed (NodeMap cell_node_map "V" None) 0)]
    None false.
End LoopExample.

(** Neither the finalisation of a matrix nor its collection. *)
Definition not_finalisation (ev : Event) : Prop :=
  is_finalize ev = false /\ ev <> EvLoopsAppend LMatAssemble.

(** Not a call of [bc.apply]. *)
Definition not_bc_apply (ev : Event) : Prop :=
  match ev with EvBcApply _ => False | _ => True end.

(** An operation performed on the tensor: zeroing, a parallel loop or a
    diagonal update outside [collecting_loops], [bc.apply], the
    finalisation. *)
Definition is_executed (ev : Event) : bool :=
  match ev with
  | EvZero | EvParLoop false _ | EvSetDiag false _ _ _ _ | EvBcApply _ | EvMatAssemble => true
  | _ => false
  end.

(** Calling, in order, the loops appended in the log [t] performs
    exactly the operations that [t] performed on the tensor. *)
Definition replays (t : list Event) : Prop :=
  trace (for_ (loops_of t) call_loop) = List.filter is_executed t.

(** Two computations append the same loops and end alike. *)
Definition same_loops {A} (c1 c2 : M A) : Prop :=
  loops_of (trace c1) = loops_of (trace c2) /\ outcome c1 = outcome c2.

(** The destination [_assemble] makes of a supplied tensor. *)
Definition dest_of_supplied (f : Form) (t : Tensor) (bcs : option (list DirichletBC))
    (dest : Dest) : Prop :=
  match t with
  | AMatrix A =>
      exists test trial, arguments f = [test; trial] /\ dest = DestMat test trial (set_bcs A bcs)
  | AFunction F => exists test, arguments f = [test] /\ dest = DestVec test F
  | AnImplicitMatrix _ => False
  end.

Module ReplayExample.
Import Examples.

(** The callable for the 2-form on [V], a supplied one-block matrix and
    a boundary condition. *)
Definition make : M AssemblyCallable :=
  create_assembly_callable "aij" "baij" no_error no_error bilinear (Some (AMatrix A11))
    (Some [ReuseExample.bc_V]) None false None None.
Definition callable : AssemblyCallable :=
  match outcome make with inr c => c | inl _ => CallLoops [] end.
End ReplayExample.

(** [a <= b] holds for two subdomain identifiers that compare. *)
Definition sid_le (a b : SubdomainId) : Prop := sid_leb a b = Some true.

(** The kernel [k] has the integral type [it] and a subdomain
    identifier that is not "otherwise". *)
Definition declares_id (it : string) (k : SplitKernel) : bool :=
  String.eqb (integral_type (kinfo k)) it && negb (is_otherwise (subdomain_id (kinfo k))).

(** The integral types [_assemble] plans the sparsity for: those of the
    kernels of a Slate tensor, those of the integrals of a form
    (lines 210-215). *)
Definition sparsity_integral_types (f : Form) : list string :=
  if is_slate f then map (fun kernel => integral_type (kinfo kernel)) (compiled_kernels f)
  else integrals f.

(** The sparsity a new matrix for the 2-form [f] is built on: over the
    two argument spaces, with the maps of the regions of the integrals,
    as a nest for the matrix type "nest", block-sparse for "baij" (for
    the sub-matrix type "baij" in a nest). *)
Definition sparsity_request (f : Form) (test trial : Argument) (mat_type sub_mat_type : string)
  : SparsityRequest :=
  let its := sparsity_integral_types f in
  {| sp_dsets := (arg_function_space test, arg_function_space trial);
     sp_maps := map_pairs test trial
                  (omap cell_region its, omap exterior_facet_region its,
                   omap interior_facet_region its);
     sp_name := fs_name (arg_function_space test) +:+ "_"
                +:+ fs_name (arg_function_space trial) +:+ "_sparsity";
     sp_nest := String.eqb mat_type "nest";
     sp_block_sparse := if String.eqb mat_type "nest" then String.eqb sub_mat_type "baij"
                        else String.eqb mat_type "baij" |}.

(** A space that belongs to no top-level mixed index: it has no index
    of its own, or it is a component of a space that has none. *)
Definition unindexed (fs : FunctionSpace) : Prop :=
  match fs_component fs with
  | Some _ => exists parent, fs_parent fs = Some parent /\ fs_index parent = None
  | None => fs_index fs = None
  end.

(** The events of setting the diagonal entries of [nodes] on the first
    [n] diagonal blocks, in order. *)
Definition diagonal_updates (collect_loops : bool) (nodes : list nat) (idx : option nat)
    (n : nat) : list Event :=
  flat_map (fun i => [EvSetDiag collect_loops i i nodes idx;
                      EvLoopsAppend (LSetDiag i i nodes idx)]) (seq 0 n).

(** * Vocabulary of the revised properties *)


Module DeferredExample.
Import Examples.

(** Assembling the 2-form on [V] into a new matrix, and the matrix
    returned. *)
Definition run : M Result :=
  _assemble "aij" "baij" no_error no_error bilinear None None None false None None None
    false false.
End DeferredExample.

Module CollectExample.
Import Examples.

(** Collecting the loops of the 2-form on [V] for the supplied
    one-block matrix, with a boundary condition. *)
Definition collect : M Result :=
  _assemble "aij" "baij" no_error no_error bilinear (Some (AMatrix A11))
    (Some [ReuseExample.bc_V]) None false None None None true false.
Definition loops : Result :=
  match outcome collect with inr r => r | inl _ => RScalar end.
End CollectExample.

(** The boundary conditions a node map was asked for; [None] for the
    absent map of a space of global degrees of freedom. *)
Fixpoint map_bcs (m : MapVal) : option (option (list DirichletBC)) :=
  match m with
  | NoMap => None
  | NodeMap _ _ bcs => Some bcs
  | DecoratedMap m _ => map_bcs m
  | Indexed m _ => map_bcs m
  end.

(** The space a node map is on. *)
Fixpoint map_space (m : MapVal) : option string :=
  match m with
  | NoMap => None
  | NodeMap _ space _ => Some space
  | DecoratedMap m _ => map_space m
  | Indexed m _ => map_space m
  end.

(** The boundary conditions of the rows ([fst]) and of the columns
    ([snd]) of block [(i, j)] of a matrix of block shape [shape]: those
    of mixed index [i] and of mixed index [j] for a matrix of more than
    one block, all of them for a matrix of one block. *)
Definition block_bcs (shape : nat * nat) (i j : nat) (bcs : option (list DirichletBC))
  : option (list DirichletBC) * option (list DirichletBC) :=
  if tuple_gt shape (1, 1)
  then (List.filter (owned_by i) <$> bcs, List.filter (owned_by j) <$> bcs)
  else (bcs, bcs).

Module MapsExample.
Import Examples.

(** A mixed 2-form on [W] x [W] with one kernel for the off-diagonal
    block (0, 1), its thunk on a matrix of 2 x 2 blocks with a boundary
    condition on each subspace, and the loop the thunk issues. *)
Definition offdiag : Form :=
  mkForm false [mesh] [arg W; arg W] [] ["cell"] [kern 7 "cell" otherwise [0; 1]] no_data.
Definition bc_V0 : DirichletBC := mkBC W0 [1; 2].
Definition run : M Result :=
  thunk no_error offdiag (compiled_kernels offdiag) (DestMat (arg W) (arg W) BcExample.A22)
    tensor_zero false ∅ (Some [BcExample.bc_Q; bc_V0]).
Definition call : ParLoopCall :=
  match par_loops (trace run) with
  | (_, c) :: _ => c
  | [] => mkParLoop 0 [] [] None false
  end.
End MapsExample.
(** * Properties *)

(** ** The monad *)

Section MonadFacts.
Context {A B : Type}.

Lemma trace_bind (c : M A) (k : A -> M B) :
  trace (bind c k) =
  trace c ++ match outcome c with inr a => trace (k a) | inl _ => [] end.
Proof.
  destruct c as [t [e | a]]; simpl.
  - now rewrite app_nil_r.
  - now destruct (k a).
Qed.

Lemma outcome_bind (c : M A) (k : A -> M B) :
  outcome (bind c k) =
  match outcome c with inr a => outcome (k a) | inl e => inl e end.
Proof.
  destruct c as [t [e | a]]; simpl; [reflexivity |].
  now destruct (k a).
Qed.

Lemma bind_ok_inv (c : M A) (k : A -> M B) (b : B) :
  outcome (bind c k) = inr b ->
  exists a, outcome c = inr a /\ outcome (k a) = inr b.
Proof.
  rewrite outcome_bind. destruct (outcome c) as [e | a]; [discriminate |].
  intros H. now exists a.
Qed.

Lemma quiet_bind (P : Event -> Prop) (c : M A) (k : A -> M B) :
  quiet P c -> (forall a, outcome c = inr a -> quiet P (k a)) -> quiet P (bind c k).
Proof.
  unfold quiet. intros Hc Hk. rewrite trace_bind. apply Forall_app. split; [exact Hc |].
  destruct (outcome c) as [e | a]; [constructor | now apply Hk].
Qed.

Lemma quiet_ret (P : Event -> Prop) (a : A) : quiet P (ret a).
Proof. constructor. Qed.

Lemma quiet_raise (P : Event -> Prop) cls args : quiet P (@raise A cls args).
Proof. constructor. Qed.
End MonadFacts.

Lemma quiet_emit (P : Event -> Prop) ev : P ev -> quiet P (emit ev).
Proof. intros H. repeat constructor. exact H. Qed.

Lemma quiet_for {A} (P : Event -> Prop) (l : list A) body :
  (forall x, In x l -> quiet P (body x)) -> quiet P (for_ l body).
Proof.
  induction l as [| x l IH]; intros H; simpl.
  - apply quiet_ret.
  - apply quiet_bind; [apply H; now left |].
    intros _ _. apply IH. intros y Hy. apply H. now right.
Qed.

Lemma quiet_for_fold {A S} (P : Event -> Prop) (l : list A) (acc : S) body :
  (forall s x, In x l -> quiet P (body s x)) -> quiet P (for_fold l acc body).
Proof.
  revert acc. induction l as [| x l IH]; intros acc H; simpl.
  - apply quiet_ret.
  - apply quiet_bind; [apply H; now left |].
    intros s _. apply IH. intros s' y Hy. apply H. now right.
Qed.

Lemma quiet_collected {A} (P : Event -> Prop) (c : M A) : quiet P c -> quiet P (collected c).
Proof. destruct c as [t [e | a]]; auto. Qed.

(** A successful loop ran every pass successfully. *)
Lemma for_ok_inv {A} (l : list A) body :
  outcome (for_ l body) = inr tt -> forall x, In x l -> outcome (body x) = inr tt.
Proof.
  induction l as [| x l IH]; simpl; intros H y Hy; [contradiction |].
  apply bind_ok_inv in H as ([] & Hx & Hl).
  destruct Hy as [<- | Hy]; [exact Hx | now apply IH].
Qed.

(** A loop one of whose passes raises, raises. *)
Lemma for_fails {A} (l : list A) body x :
  In x l -> (exists e, outcome (body x) = inl e) -> exists e, outcome (for_ l body) = inl e.
Proof.
  intros Hx [e He]. destruct (outcome (for_ l body)) as [e' | []] eqn:H; [now exists e' |].
  rewrite (for_ok_inv _ _ H x Hx) in He. discriminate.
Qed.

(** Splits the goal [quiet P c] along the structure of [c]. *)
Ltac quiet_step :=
  lazymatch goal with
  | |- quiet _ (bind _ _) => apply quiet_bind; [| intros ? ?]
  | |- quiet _ (ret _) => apply quiet_ret
  | |- quiet _ (raise _ _) => apply quiet_raise
  | |- quiet _ (emit _) => apply quiet_emit; try (simpl; tauto || reflexivity)
  | |- quiet _ (for_ _ _) => apply quiet_for; intros ? ?
  | |- quiet _ (for_fold _ _ _) => apply quiet_for_fold; intros ? ? ?
  | |- quiet _ (collected _) => apply quiet_collected
  | |- quiet _ (if ?b then _ else _) => destruct b eqn:?
  | |- quiet _ (let '(_, _) := ?x in _) => destruct x eqn:?
  | |- quiet _ (match ?x with _ => _ end) => destruct x eqn:?
  end.

Ltac quiet := repeat quiet_step.

(** ** The entry point *)

(** [assemble] on a form, without the deprecated or unknown keyword
    arguments, is [_assemble] on the extracted boundary conditions. *)
Lemma assemble_form dmt dsmt sfe mve extract f tensor bcs fcp inverse mat_type sub_mat_type
    options_prefix collect_loops allocate_only :
  assemble dmt dsmt sfe mve extract (AForm f) tensor bcs fcp inverse mat_type sub_mat_type
    options_prefix (mkKwargs None collect_loops allocate_only [])
  = _assemble dmt dsmt sfe mve f tensor (extract bcs) fcp inverse mat_type sub_mat_type
      options_prefix (default false collect_loops) (default false allocate_only).
Proof.
  unfold assemble. simpl.
  now destruct (_assemble dmt dsmt sfe mve f tensor (extract bcs) fcp inverse mat_type
                  sub_mat_type options_prefix (default false collect_loops)
                  (default false allocate_only)).
Qed.

(** ** One mesh topology *)

Lemma check_topology_ok f :
  outcome (check_topology f) = inr tt -> exists t, shares_topology f t.
Proof.
  unfold check_topology. intros H.
  apply bind_ok_inv in H as (first & _ & H).
  apply bind_ok_inv in H as ([] & Hdom & Hrest).
  exists (topology first). repeat split.
  - intros m Hm. pose proof (for_ok_inv _ _ Hdom m Hm) as Hpass.
    apply bind_ok_inv in Hpass as ([] & _ & Hpass).
    destruct (topology m =? topology first) eqn:E; [now apply Nat.eqb_eq in E |].
    simpl in Hpass. discriminate.
  - intros a d Ha Hd.
    assert (Hin : In (Some d) (map arg_domain (arguments f) ++ map coef_domain (coefficients f))).
    { apply in_or_app. left. rewrite <- Hd. now apply in_map. }
    pose proof (for_ok_inv _ _ Hrest _ Hin) as Hpass. simpl in Hpass.
    destruct (topology d =? topology first) eqn:E; [now apply Nat.eqb_eq in E |].
    simpl in Hpass. discriminate.
  - intros c d Hc Hd.
    assert (Hin : In (Some d) (map arg_domain (arguments f) ++ map coef_domain (coefficients f))).
    { apply in_or_app. right. rewrite <- Hd. now apply in_map. }
    pose proof (for_ok_inv _ _ Hrest _ Hin) as Hpass. simpl in Hpass.
    destruct (topology d =? topology first) eqn:E; [now apply Nat.eqb_eq in E |].
    simpl in Hpass. discriminate.
Qed.

Lemma check_topology_quiet f : quiet untouched (check_topology f).
Proof. unfold check_topology, list_index, untouched. quiet. Qed.

Lemma two_meshes_mixed : ~ (exists t, shares_topology TopologyExample.two_meshes t).
Proof.
  intros (t & Hd & _ & Hc).
  assert (H0 : topology Examples.mesh = t) by (apply Hd; simpl; auto).
  assert (H1 : topology TopologyExample.other_mesh = t) by (eapply Hc; simpl; eauto).
  simpl in H0, H1. congruence.
Defined.

(** A failure of [prepare] is the failure of [_assemble]. *)
Lemma _assemble_prepare_fails dmt dsmt sfe mve f tensor bcs fcp inverse mat_type
    sub_mat_type options_prefix collect_loops allocate_only e :
  outcome (prepare dmt dsmt sfe f tensor bcs fcp inverse mat_type sub_mat_type
             options_prefix collect_loops allocate_only) = inl e ->
  _assemble dmt dsmt sfe mve f tensor bcs fcp inverse mat_type sub_mat_type
    options_prefix collect_loops allocate_only
  = (trace (prepare dmt dsmt sfe f tensor bcs fcp inverse mat_type sub_mat_type
              options_prefix collect_loops allocate_only), inl e).
Proof.
  unfold _assemble. destruct (prepare _ _ _ _ _ _ _ _ _ _ _ _ _) as [t [e' | a]]; simpl.
  - now intros [= ->].
  - discriminate.
Qed.

Lemma prepare_mixed_topology dmt dsmt sfe f tensor bcs fcp inverse mat_type
    sub_mat_type options_prefix collect_loops allocate_only :
  ~ (exists t, shares_topology f t) ->
  (exists e, outcome (prepare dmt dsmt sfe f tensor bcs fcp inverse mat_type
                        sub_mat_type options_prefix collect_loops allocate_only) = inl e) /\
  quiet untouched (prepare dmt dsmt sfe f tensor bcs fcp inverse mat_type
                     sub_mat_type options_prefix collect_loops allocate_only).
Proof.
  intros Hmixed. unfold prepare.
  destruct (negb (str_in (default dmt mat_type) _)); [split; [eexists; reflexivity | apply quiet_raise] |].
  destruct (negb (str_in (default dsmt sub_mat_type) _)); [split; [eexists; reflexivity | apply quiet_raise] |].
  pose proof (check_topology_quiet f) as Hq.
  destruct (outcome (check_topology f)) as [e | []] eqn:Hout.
  - split.
    + exists e. rewrite outcome_bind, Hout. reflexivity.
    + unfold quiet. rewrite trace_bind, Hout, app_nil_r. exact Hq.
  - exfalso. apply Hmixed. now apply check_topology_ok.
Qed.

(** C10.  If the integration domains, arguments and coefficients of the
    form do not all share one mesh topology, [_assemble] raises, and it
    does so before the form is compiled, before anything is allocated
    and before any accumulation: the log holds none of these events. *)
Theorem mixed_topology_rejected
    (dmt dsmt : string) (sfe : SparsityRequest -> bool) (mve : ParLoopCall -> bool)
    (f : Form) (tensor : option Tensor) (bcs : option (list DirichletBC))
    (fcp : option (gmap string string)) (inverse : bool) (mat_type sub_mat_type : option string)
    (options_prefix : option string) (collect_loops allocate_only : bool) :
  ~ (exists t, shares_topology f t) ->
  (exists e, outcome (_assemble dmt dsmt sfe mve f tensor bcs fcp inverse mat_type
                        sub_mat_type options_prefix collect_loops allocate_only) = inl e) /\
  quiet untouched (_assemble dmt dsmt sfe mve f tensor bcs fcp inverse mat_type
                     sub_mat_type options_prefix collect_loops allocate_only).
Proof.
  intros Hmixed.
  destruct (prepare_mixed_topology dmt dsmt sfe f tensor bcs fcp inverse mat_type
              sub_mat_type options_prefix collect_loops allocate_only Hmixed)
    as [[e He] Hq].
  rewrite (_assemble_prepare_fails _ _ _ mve _ _ _ _ _ _ _ _ _ _ e He).
  split; [now exists e | exact Hq].
Qed.

Lemma mixed_topology_rejected_witness :
  ~ (exists t, shares_topology TopologyExample.two_meshes t) /\
  ((exists e, outcome (_assemble "aij" "baij" Examples.no_error Examples.no_error
                         TopologyExample.two_meshes None None None false None None None
                         false false) = inl e) /\
   quiet untouched (_assemble "aij" "baij" Examples.no_error Examples.no_error
                      TopologyExample.two_meshes None None None false None None None
                      false false)).
Proof.
  split; [exact two_meshes_mixed |].
  apply (mixed_topology_rejected "aij" "baij" Examples.no_error Examples.no_error
           TopologyExample.two_meshes None None None false None None None false false).
  exact two_meshes_mixed.
Defined.

(** ** The inverse option *)

Lemma quiet_weaken {A} (P Q : Event -> Prop) (c : M A) :
  (forall ev, P ev -> Q ev) -> quiet P c -> quiet Q c.
Proof. intros H Hc. unfold quiet in *. eapply List.Forall_impl; [exact H | exact Hc]. Qed.

Lemma check_topology_not_accumulation f : quiet not_accumulation (check_topology f).
Proof.
  apply (quiet_weaken untouched); [| apply check_topology_quiet].
  intros ev (_ & _ & H). exact H.
Qed.

Lemma setup_mat_matfree_inverse sfe f test trial tensor bcs sub_mat_type op its cl ao :
  setup_mat sfe f test trial tensor bcs true "matfree" sub_mat_type op its cl ao
  = raise NotImplementedError ["Inverse not implemented with matfree"].
Proof. reflexivity. Qed.

Lemma prepare_inverse dmt dsmt sfe f tensor bcs fcp mat_type sub_mat_type
    options_prefix collect_loops allocate_only :
  length (arguments f) <> 2 \/ default dmt mat_type = "matfree" ->
  (exists e, outcome (prepare dmt dsmt sfe f tensor bcs fcp true mat_type
                        sub_mat_type options_prefix collect_loops allocate_only) = inl e) /\
  quiet not_accumulation (prepare dmt dsmt sfe f tensor bcs fcp true mat_type
                            sub_mat_type options_prefix collect_loops allocate_only).
Proof.
  intros Hreq. unfold prepare.
  destruct (negb (str_in (default dmt mat_type) _)); [split; [eexists; reflexivity | apply quiet_raise] |].
  destruct (negb (str_in (default dsmt sub_mat_type) _)); [split; [eexists; reflexivity | apply quiet_raise] |].
  pose proof (check_topology_not_accumulation f) as Hq.
  destruct (outcome (check_topology f)) as [e | []] eqn:Hout.
  { split.
    - exists e. rewrite outcome_bind, Hout. reflexivity.
    - unfold quiet. rewrite trace_bind, Hout, app_nil_r. exact Hq. }
  assert (Hrest : forall c : M (Result + Dest * ZeroTensor),
             (exists e, outcome c = inl e) /\ quiet not_accumulation c ->
             (exists e, outcome (check_topology f ;;; c) = inl e) /\
             quiet not_accumulation (check_topology f ;;; c)).
  { intros c [[e He] Hc]. split.
    - exists e. rewrite outcome_bind, Hout. exact He.
    - apply quiet_bind; auto. }
  apply Hrest. clear Hrest.
  destruct (existsb subscripted (coefficients f)).
  { split; [eexists; reflexivity | unfold not_accumulation; quiet]. }
  destruct (length (arguments f) =? 2) eqn:Hrank; simpl andb; simpl negb; cbv iota.
  2: { split; [eexists; reflexivity | unfold not_accumulation; quiet]. }
  apply Nat.eqb_eq in Hrank. destruct Hreq as [Hreq | Hreq]; [contradiction |].
  destruct (arguments f) as [| test [| trial [| ? ?]]]; try discriminate.
  rewrite Hreq, setup_mat_matfree_inverse.
  split; [eexists; reflexivity | repeat constructor].
Qed.

(** C9 (amended).  With [inverse] set, [_assemble] raises when the form
    is not a 2-form and when the matrix type is matrix-free, and no
    accumulation has been issued by then. *)
Theorem inverse_only_assembled_2form
    (dmt dsmt : string) (sfe : SparsityRequest -> bool) (mve : ParLoopCall -> bool)
    (f : Form) (tensor : option Tensor) (bcs : option (list DirichletBC))
    (fcp : option (gmap string string)) (mat_type sub_mat_type : option string)
    (options_prefix : option string) (collect_loops allocate_only : bool) :
  length (arguments f) <> 2 \/ default dmt mat_type = "matfree" ->
  (exists e, outcome (_assemble dmt dsmt sfe mve f tensor bcs fcp true mat_type
                        sub_mat_type options_prefix collect_loops allocate_only) = inl e) /\
  quiet not_accumulation (_assemble dmt dsmt sfe mve f tensor bcs fcp true mat_type
                            sub_mat_type options_prefix collect_loops allocate_only).
Proof.
  intros Hreq.
  destruct (prepare_inverse dmt dsmt sfe f tensor bcs fcp mat_type sub_mat_type
              options_prefix collect_loops allocate_only Hreq) as [[e He] Hq].
  rewrite (_assemble_prepare_fails _ _ _ mve _ _ _ _ _ _ _ _ _ _ e He).
  split; [now exists e | exact Hq].
Qed.

Lemma inverse_only_assembled_2form_witness :
  (length (arguments Examples.linear) <> 2 \/ default "aij" None = "matfree") /\
  ((exists e, outcome (_assemble "aij" "baij" Examples.no_error Examples.no_error
                         Examples.linear None None None true None None None
                         false false) = inl e) /\
   quiet not_accumulation (_assemble "aij" "baij" Examples.no_error Examples.no_error
                             Examples.linear None None None true None None None
                             false false)).
Proof.
  split; [left; simpl; lia |].
  apply (inverse_only_assembled_2form "aij" "baij" Examples.no_error Examples.no_error
           Examples.linear None None None None None None false false).
  left. simpl. lia.
Defined.

(** C9 as stated fails: [inverse] together with loop collection is
    accepted for a 2-form that is not matrix-free, both by [_assemble]
    and by [create_assembly_callable], which always collects loops. *)
Lemma inverse_with_loop_collection_accepted :
  (exists loops,
     outcome (_assemble "aij" "baij" Examples.no_error Examples.no_error
                Examples.bilinear None None None true None None None true false)
     = inr (RLoops loops)) /\
  (exists loops,
     outcome (create_assembly_callable "aij" "baij" Examples.no_error Examples.no_error
                Examples.bilinear (Some (AMatrix Examples.A11)) None None true None None)
     = inr (CallLoops loops)).
Proof. split; vm_compute; eexists; reflexivity. Qed.

(** ** The loop over kernels *)

Lemma bind_silent {A B} (c : M A) (k : A -> M B) :
  silent c ->
  bind c k = match outcome c with inl e => ([], inl e) | inr a => k a end.
Proof.
  destruct c as [t [e | a]]; unfold silent; simpl; intros ->; [reflexivity |].
  now destruct (k a).
Qed.

Lemma silent_ret {A} (a : A) : silent (ret a).
Proof. reflexivity. Qed.

Lemma silent_raise {A} cls args : silent (@raise A cls args).
Proof. reflexivity. Qed.

Lemma silent_bind {A B} (c : M A) (k : A -> M B) :
  silent c -> (forall a, silent (k a)) -> silent (bind c k).
Proof.
  intros Hc Hk. unfold silent. rewrite trace_bind, Hc. simpl.
  destruct (outcome c); [reflexivity | apply Hk].
Qed.

Lemma silent_for_fold {A S} (l : list A) (acc : S) body :
  (forall s x, silent (body s x)) -> silent (for_fold l acc body).
Proof.
  intros H. revert acc. induction l as [| x l IH]; intros acc; simpl.
  - apply silent_ret.
  - apply silent_bind; [apply H | intros; apply IH].
Qed.

Ltac silent_step :=
  lazymatch goal with
  | |- silent (bind _ _) => apply silent_bind; [| intros ?]
  | |- silent (ret _) => apply silent_ret
  | |- silent (raise _ _) => apply silent_raise
  | |- silent (for_fold _ _ _) => apply silent_for_fold; intros ? ?
  | |- silent (if ?b then _ else _) => destruct b
  | |- silent (match ?x with _ => _ end) => destruct x
  end.

Ltac silent := repeat silent_step.

Lemma silent_list_index {A} (l : list A) n : silent (list_index l n).
Proof. unfold list_index. silent. Qed.

Lemma silent_fs_getitem fs i : silent (fs_getitem fs i).
Proof. unfold fs_getitem, list_index. silent. Qed.

Lemma silent_map_index m k : silent (map_index m k).
Proof. unfold map_index. silent. Qed.

Lemma silent_measure_set m it sd ids : silent (measure_set m it sd ids).
Proof. unfold measure_set. silent. Qed.

Lemma silent_matching_bcs shape i j bcs : silent (matching_bcs shape i j bcs).
Proof. unfold matching_bcs. silent. Qed.

Lemma silent_mat test trial A tm trm i j : silent (mat test trial A tm trm i j).
Proof. unfold mat. silent; apply silent_fs_getitem. Qed.

Lemma silent_vec test F tm i : silent (vec test F tm i).
Proof. unfold vec. silent; apply silent_fs_getitem. Qed.

Create HintDb silent.
Lemma silent_kernel_context f dest bcs k : silent (kernel_context f dest bcs k).
Proof.
  unfold kernel_context. silent; auto using silent_list_index, silent_matching_bcs.
Qed.

#[local] Hint Resolve silent_list_index silent_fs_getitem silent_map_index
  silent_measure_set silent_matching_bcs silent_mat silent_vec silent_ret silent_raise
  silent_kernel_context : silent.

(** One pass of the loop either raises without having logged anything,
    or issues exactly one parallel loop, for the kernel of the pass. *)
Lemma kernel_step_cases mve f dest cl ids bcs k (P : M unit -> Prop) :
  (forall e, P ([], inl e)) ->
  (forall call, pl_kernel call = kernel (kinfo k) ->
                P ([EvParLoop cl call; EvLoopsAppend (LParLoop call)], inr tt)) ->
  P (kernel_step mve f dest cl ids bcs k).
Proof.
  intros Herr Hrun. unfold kernel_step.
  repeat first
    [ apply Herr
    | match goal with
      | |- P (bind ?c _) =>
          rewrite (bind_silent c) by (silent; auto with silent);
          let a := fresh "a" in destruct (outcome c) as [? | a]
      | |- P (if ?b then _ else _) => destruct b
      | |- P (match ?x with _ => _ end) => destruct x
      end ].
  match goal with
  | |- P (emit (EvParLoop _ ?c) ;;; _) => exact (Hrun c eq_refl)
  end.
Qed.

Lemma kernel_step_spec mve f dest cl ids bcs k :
  (exists e, kernel_step mve f dest cl ids bcs k = ([], inl e)) \/
  (exists call, pl_kernel call = kernel (kinfo k) /\
     kernel_step mve f dest cl ids bcs k
     = ([EvParLoop cl call; EvLoopsAppend (LParLoop call)], inr tt)).
Proof.
  apply (kernel_step_cases mve f dest cl ids bcs k
           (fun c => (exists e, c = ([], inl e)) \/
                     (exists call, pl_kernel call = kernel (kinfo k) /\
                        c = ([EvParLoop cl call; EvLoopsAppend (LParLoop call)], inr tt)))).
  - intros e. left. now exists e.
  - intros call H. right. now exists call.
Qed.

Lemma kernel_step_trace mve f dest cl ids bcs k e :
  outcome (kernel_step mve f dest cl ids bcs k) = inl e ->
  kernel_step mve f dest cl ids bcs k = ([], inl e).
Proof.
  apply (kernel_step_cases mve f dest cl ids bcs k).
  - intros e' H. simpl in H. congruence.
  - intros call _ H. discriminate.
Qed.

(** The loop over kernels issues the parallel loops of a prefix of the
    kernels, in order: of all of them when it succeeds, and of those
    before the first kernel whose pass raises otherwise. *)
Lemma kernel_loop_cases mve f dest cl ids bcs kernels :
  exists calls,
    trace (for_ kernels (kernel_step mve f dest cl ids bcs)) = issued cl calls /\
    ((outcome (for_ kernels (kernel_step mve f dest cl ids bcs)) = inr tt /\
      map pl_kernel calls = map (fun k => kernel (kinfo k)) kernels) \/
     (exists e pre k post,
        outcome (for_ kernels (kernel_step mve f dest cl ids bcs)) = inl e /\
        kernels = pre ++ k :: post /\
        map pl_kernel calls = map (fun k => kernel (kinfo k)) pre /\
        kernel_step mve f dest cl ids bcs k = ([], inl e) /\
        forall k', In k' pre -> outcome (kernel_step mve f dest cl ids bcs k') = inr tt)).
Proof.
  induction kernels as [| k kernels IH].
  - exists []. split; [reflexivity |]. left. split; reflexivity.
  - simpl for_.
    destruct (kernel_step_spec mve f dest cl ids bcs k) as [[e Hk] | (call & Hcall & Hk)].
    + exists []. rewrite Hk. split; [reflexivity |]. right.
      exists e, [], k, kernels. simpl. split; [reflexivity |].
      repeat split; [exact Hk | intros k' []].
    + destruct IH as (calls & Htr & IH).
      exists (call :: calls). split.
      { rewrite trace_bind, Hk. simpl. now rewrite Htr. }
      rewrite outcome_bind, Hk. simpl outcome at 1. cbv iota.
      destruct IH as [[Hok Hmap] | (e & pre & k0 & post & Hout & Hsplit & Hmap & Hfail & Hpre)].
      * left. split; [exact Hok |]. simpl. now rewrite Hcall, Hmap.
      * right. exists e, (k :: pre), k0, post. repeat split; try assumption.
        -- simpl. now rewrite Hsplit.
        -- simpl. now rewrite Hcall, Hmap.
        -- intros k' [<- | Hk']; [now rewrite Hk | now apply Hpre].
Qed.

(** ** The thunk *)

Lemma thunk_eq mve f kernels dest z cl ids bcs :
  thunk mve f kernels dest z cl ids bcs =
  (zero_step z cl ;;;
   for_ kernels (kernel_step mve f dest cl ids bcs) ;;;
   after_kernels dest cl bcs).
Proof. reflexivity. Qed.

Lemma zero_step_ok z cl : outcome (zero_step z cl) = inr tt.
Proof. now destruct z, cl. Qed.

(** A run of the thunk: the zero step, the parallel loops of the
    kernels up to the first whose pass raises, and, when none does, the
    boundary conditions and the finalisation. *)
Lemma thunk_cases mve f kernels dest z cl ids bcs :
  exists calls,
    (outcome (for_ kernels (kernel_step mve f dest cl ids bcs)) = inr tt /\
     map pl_kernel calls = map (fun k => kernel (kinfo k)) kernels /\
     thunk mve f kernels dest z cl ids bcs
     = (trace (zero_step z cl) ++ issued cl calls ++ trace (after_kernels dest cl bcs),
        outcome (after_kernels dest cl bcs))) \/
    (exists e pre k post,
       kernels = pre ++ k :: post /\
       map pl_kernel calls = map (fun k => kernel (kinfo k)) pre /\
       kernel_step mve f dest cl ids bcs k = ([], inl e) /\
       (forall k', In k' pre -> outcome (kernel_step mve f dest cl ids bcs k') = inr tt) /\
       thunk mve f kernels dest z cl ids bcs
       = (trace (zero_step z cl) ++ issued cl calls, inl e)).
Proof.
  destruct (kernel_loop_cases mve f dest cl ids bcs kernels) as (calls & Htr & Hcases).
  exists calls. rewrite thunk_eq.
  assert (Hpair : forall {A} (c : M A), c = (trace c, outcome c)) by (now intros A [t o]).
  destruct Hcases as [[Hok Hmap] | (e & pre & k & post & Hout & Hsplit & Hmap & Hk & Hpre)].
  - left. split; [exact Hok |]. split; [exact Hmap |].
    rewrite (Hpair _ (_ ;;; _)).
    rewrite !trace_bind, !outcome_bind, zero_step_ok, Hok, Htr. reflexivity.
  - right. exists e, pre, k, post. repeat split; try assumption.
    rewrite (Hpair _ (_ ;;; _)).
    rewrite !trace_bind, !outcome_bind, zero_step_ok, Hout, Htr, app_nil_r. reflexivity.
Qed.

Lemma quiet_after_kernels dest cl bcs : quiet constraint_event (after_kernels dest cl bcs).
Proof.
  unfold after_kernels, apply_bc_mat, bc_block, set_local_diagonal_entries. quiet.
Qed.



Lemma after_kernels_scalar cl bcs : after_kernels DestScalar cl bcs = ([], inr RScalar).
Proof. unfold after_kernels. now destruct bcs. Qed.

Lemma after_kernels_result dest cl bcs r :
  outcome (after_kernels dest cl bcs) = inr r -> r = result dest.
Proof.
  unfold after_kernels. intros H.
  apply bind_ok_inv in H as ([] & _ & H).
  apply bind_ok_inv in H as ([] & _ & H).
  apply bind_ok_inv in H as ([] & _ & H).
  simpl in H. congruence.
Qed.

(** ** Reading the log of a run *)

Lemma par_loops_app t1 t2 : par_loops (t1 ++ t2) = par_loops t1 ++ par_loops t2.
Proof. apply omap_app. Qed.

Lemma kernels_run_app t1 t2 : kernels_run (t1 ++ t2) = kernels_run t1 ++ kernels_run t2.
Proof. unfold kernels_run. now rewrite par_loops_app, map_app. Qed.

Lemma bcs_applied_app t1 t2 : bcs_applied (t1 ++ t2) = bcs_applied t1 ++ bcs_applied t2.
Proof. apply omap_app. Qed.

Lemma par_loops_issued cl calls : par_loops (issued cl calls) = map (pair cl) calls.
Proof. induction calls as [| c calls IH]; [reflexivity |]. simpl. now rewrite <- IH. Qed.

Lemma kernels_run_issued cl calls : kernels_run (issued cl calls) = map pl_kernel calls.
Proof.
  unfold kernels_run. rewrite par_loops_issued, map_map. reflexivity.
Qed.

Lemma bcs_applied_issued cl calls : bcs_applied (issued cl calls) = [].
Proof. induction calls as [| c calls IH]; [reflexivity | exact IH]. Qed.

Lemma issued_not_constraint cl calls : Forall (fun ev => ~ constraint_event ev) (issued cl calls).
Proof. induction calls as [| c calls IH]; simpl; repeat constructor; auto. Qed.

Lemma par_loops_none (P : Event -> Prop) t :
  (forall ev, P ev -> is_accumulation ev = false) -> Forall P t -> par_loops t = [].
Proof.
  intros HP Ht. induction Ht as [| ev t Hev _ IH]; [reflexivity |].
  apply HP in Hev. destruct ev; try discriminate; exact IH.
Qed.

Lemma bcs_applied_none (P : Event -> Prop) t :
  (forall ev, P ev -> forall bc, ev <> EvBcApply bc) -> Forall P t -> bcs_applied t = [].
Proof.
  intros HP Ht. induction Ht as [| ev t Hev _ IH]; [reflexivity |].
  destruct ev; try exact IH. now destruct (HP _ Hev bc).
Qed.


Lemma constraint_not_accumulation ev : constraint_event ev -> is_accumulation ev = false.
Proof. now destruct ev. Qed.


Lemma zero_step_trace z cl :
  Forall (fun ev => ~ constraint_event ev /\ is_accumulation ev = false
                    /\ forall bc, ev <> EvBcApply bc) (trace (zero_step z cl)).
Proof. destruct z, cl; simpl; repeat constructor; auto; discriminate. Qed.

(** A successful run of the thunk is one run of the pipeline, and it
    returns the destination. *)
Lemma thunk_ran_pipeline_once mve f kernels dest z cl ids bcs r :
  outcome (thunk mve f kernels dest z cl ids bcs) = inr r ->
  ran_pipeline_once kernels cl (trace (thunk mve f kernels dest z cl ids bcs)) /\
  r = result dest /\
  bcs_applied (trace (thunk mve f kernels dest z cl ids bcs))
  = bcs_applied (trace (after_kernels dest cl bcs)).
Proof.
  intros Hok.
  destruct (thunk_cases mve f kernels dest z cl ids bcs)
    as (calls & [(_ & Hmap & Heq) | (e & pre & k & post & _ & _ & _ & _ & Heq)]);
    rewrite Heq in Hok |- *; simpl in Hok; [| discriminate].
  pose proof (zero_step_trace z cl) as Hz.
  split; [| split].
  - exists (trace (zero_step z cl) ++ issued cl calls), (trace (after_kernels dest cl bcs)).
    simpl. rewrite <- app_assoc. split; [reflexivity |].
    rewrite kernels_run_app, par_loops_app, kernels_run_issued, par_loops_issued.
    unfold kernels_run.
    rewrite (par_loops_none _ _ (fun ev H => proj1 (proj2 H)) Hz). simpl.
    repeat split.
    + exact Hmap.
    + apply List.Forall_forall. intros p Hp. apply in_map_iff in Hp as (c & <- & _). reflexivity.
    + apply Forall_app. split; [| apply issued_not_constraint].
      eapply List.Forall_impl; [| exact Hz]. now intros ev [H _].
    + apply quiet_after_kernels.
  - now apply after_kernels_result in Hok.
  - simpl. rewrite !bcs_applied_app, bcs_applied_issued.
    rewrite (bcs_applied_none _ _ (fun ev H => proj2 (proj2 H)) Hz). reflexivity.
Qed.

(** ** What [prepare] gives *)

Lemma quiet_prepare dmt dsmt sfe f tensor bcs fcp inverse mat_type sub_mat_type
    options_prefix collect_loops allocate_only :
  quiet setup_event (prepare dmt dsmt sfe f tensor bcs fcp inverse mat_type sub_mat_type
                       options_prefix collect_loops allocate_only).
Proof.
  unfold prepare, check_topology, list_index, setup_mat, setup_vec, setup_scalar,
    sparsity_domains.
  quiet.
Qed.

Lemma silent_all_integer_subdomain_ids kernels : silent (all_integer_subdomain_ids kernels).
Proof. unfold all_integer_subdomain_ids. silent. Qed.

(** A successful [prepare] went through the branch of the rank. *)
Lemma prepare_ok_inv dmt dsmt sfe f tensor bcs fcp inverse mat_type sub_mat_type
    options_prefix collect_loops allocate_only s :
  outcome (prepare dmt dsmt sfe f tensor bcs fcp inverse mat_type sub_mat_type
             options_prefix collect_loops allocate_only) = inr s ->
  match arguments f with
  | [test; trial] =>
      exists integral_types,
        outcome (setup_mat sfe f test trial tensor bcs inverse (default dmt mat_type)
                   (default dsmt sub_mat_type) options_prefix integral_types
                   collect_loops allocate_only) = inr s
  | [test] => exists d, outcome (setup_vec test tensor) = inr d /\ s = inr d
  | _ => exists d, outcome (setup_scalar tensor) = inr d /\ s = inr d
  end.
Proof.
  unfold prepare. intros H.
  destruct (negb (str_in (default dmt mat_type) _)); [discriminate |].
  destruct (negb (str_in (default dsmt sub_mat_type) _)); [discriminate |].
  apply bind_ok_inv in H as ([] & _ & H).
  apply bind_ok_inv in H as ([] & _ & H).
  destruct (existsb subscripted (coefficients f)); [discriminate |].
  destruct (inverse && negb (length (arguments f) =? 2)); [discriminate |].
  destruct (arguments f) as [| test [| trial [| ? ?]]].
  - apply bind_ok_inv in H as (d & Hd & H). exists d. split; [exact Hd |]. simpl in H. congruence.
  - apply bind_ok_inv in H as (d & Hd & H). exists d. split; [exact Hd |]. simpl in H. congruence.
  - eexists. exact H.
  - apply bind_ok_inv in H as (d & Hd & H). exists d. split; [exact Hd |]. simpl in H. congruence.
Qed.

Lemma setup_vec_ok test tensor d :
  outcome (setup_vec test tensor) = inr d ->
  exists F, d = (DestVec test F, match tensor with None => zero_noop | Some _ => tensor_zero end).
Proof.
  destruct tensor as [[A | A | F] |]; simpl; try discriminate; intros [= <-]; eauto.
Qed.

Lemma setup_scalar_ok tensor d :
  outcome (setup_scalar tensor) = inr d -> d = (DestScalar, zero_noop) /\ tensor = None.
Proof. destruct tensor; simpl; [discriminate |]. now intros [= <-]. Qed.

Lemma setup_mat_ok sfe f test trial tensor bcs inverse mat_type sub_mat_type
    options_prefix integral_types collect_loops allocate_only s :
  outcome (setup_mat sfe f test trial tensor bcs inverse mat_type sub_mat_type
             options_prefix integral_types collect_loops allocate_only) = inr s ->
  (String.eqb mat_type "matfree" = true /\
   exists A, s = inl (RImplicitMatrix A) /\
             (tensor = None \/ tensor = Some (AnImplicitMatrix A))) \/
  (String.eqb mat_type "matfree" = false /\
   exists A z,
     ((tensor = None /\ z = zero_noop /\ exists request, A = new_Matrix f bcs request) \/
      (exists A0, tensor = Some (AMatrix A0) /\ z = tensor_zero /\ A = set_bcs A0 bcs)) /\
     s = if allocate_only then inl (RMatrix (set_assembly_callback A cb_None))
         else inr (DestMat test trial A, z)).
Proof.
  unfold setup_mat. intros H.
  destruct (String.eqb mat_type "matfree").
  - left. split; [reflexivity |].
    destruct inverse; [discriminate |]. destruct collect_loops; [discriminate |].
    destruct tensor as [[A | A | F] |]; simpl in H; try discriminate;
      injection H as <-; eauto.
  - right. split; [reflexivity |].
    apply bind_ok_inv in H as ([A z] & Hrz & H). simpl fst in H. simpl snd in H.
    exists A, z. split.
    + destruct tensor as [[A0 | A0 | F] |]; simpl in Hrz; try discriminate.
      * right. exists A0. injection Hrz as <- <-. auto.
      * left. apply bind_ok_inv in Hrz as (domains & _ & Hrz).
        destruct (sfe _); [discriminate |].
        simpl in Hrz. injection Hrz as <- <-. eauto.
    + destruct (tuple_ne (block_shape A) (1, 1) && String.eqb mat_type "baij"); [discriminate |].
      destruct allocate_only; simpl in H; congruence.
Qed.








(** ** Zeroing *)

Lemma prepare_zero dmt dsmt sfe f tensor bcs fcp inverse mat_type sub_mat_type
    options_prefix collect_loops allocate_only dest z :
  outcome (prepare dmt dsmt sfe f tensor bcs fcp inverse mat_type sub_mat_type
             options_prefix collect_loops allocate_only) = inr (inr (dest, z)) ->
  z = match tensor with None => zero_noop | Some _ => tensor_zero end.
Proof.
  intros H. apply prepare_ok_inv in H.
  destruct (arguments f) as [| test [| trial [| ? ?]]].
  - destruct H as (d & Hd & [= <-]). apply setup_scalar_ok in Hd as [[= _ <-] ->]. reflexivity.
  - destruct H as (d & Hd & [= <-]). apply setup_vec_ok in Hd as (F & [= _ ->]). reflexivity.
  - destruct H as (its & H).
    apply setup_mat_ok in H as [(_ & IM & [=] & _) | (_ & A & z' & Hz & H)].
    destruct allocate_only; [discriminate |]. injection H as _ <-.
    destruct Hz as [(-> & -> & _) | (A0 & -> & -> & _)]; reflexivity.
  - destruct H as (d & Hd & [= <-]). apply setup_scalar_ok in Hd as [[= _ <-] ->]. reflexivity.
Qed.

Lemma thunk_trace_shape mve f kernels dest z cl ids bcs :
  exists rest,
    trace (thunk mve f kernels dest z cl ids bcs) = trace (zero_step z cl) ++ rest /\
    Forall not_zero_step rest.
Proof.
  assert (Hissued : forall calls, Forall not_zero_step (issued cl calls)).
  { induction calls; simpl; repeat constructor; auto; discriminate. }
  assert (Hafter : Forall not_zero_step (trace (after_kernels dest cl bcs))).
  { eapply List.Forall_impl; [| apply quiet_after_kernels].
    intros ev Hev. now destruct ev as [| | | | | | | | | | | | | | | [] |]. }
  destruct (thunk_cases mve f kernels dest z cl ids bcs)
    as (calls & [(_ & _ & Heq) | (e & pre & k & post & _ & _ & _ & _ & Heq)]); rewrite Heq; simpl.
  - eexists. split; [reflexivity |]. apply Forall_app. auto.
  - eexists. split; [reflexivity |]. auto.
Qed.

(** C2 (amended).  For the destination and [zero_tensor] that
    [_assemble] prepares, every run of the thunk (with any boundary
    conditions) performs the zero step exactly once and first, hence
    before every accumulation and not once per kernel: when the tensor
    was supplied by the caller and loops are not collected, the first
    event is the call of [tensor.zero] and no other follows; when loops
    are collected, [zero_tensor] is the first item collected and is
    neither called nor collected again.  When the tensor was allocated
    by the call, the zero step is a no-op: the tensor is not zeroed. *)
Theorem zero_step_once
    (dmt dsmt : string) (sfe : SparsityRequest -> bool) (mve : ParLoopCall -> bool)
    (f : Form) (tensor : option Tensor) (bcs : option (list DirichletBC))
    (fcp : option (gmap string string)) (inverse : bool) (mat_type sub_mat_type : option string)
    (options_prefix : option string) (collect_loops allocate_only : bool)
    (dest : Dest) (z : ZeroTensor) (kernels : list SplitKernel)
    (ids : gmap string (list SubdomainId)) (bcs' : option (list DirichletBC)) :
  outcome (prepare dmt dsmt sfe f tensor bcs fcp inverse mat_type sub_mat_type
             options_prefix collect_loops allocate_only) = inr (inr (dest, z)) ->
  z = match tensor with None => zero_noop | Some _ => tensor_zero end /\
  match collect_loops, tensor with
  | false, Some _ =>
      exists rest,
        trace (thunk mve f kernels dest z collect_loops ids bcs') = EvZero :: rest /\
        Forall not_zero_step rest
  | false, None =>
      Forall not_zero_step (trace (thunk mve f kernels dest z collect_loops ids bcs'))
  | true, _ =>
      exists rest,
        trace (thunk mve f kernels dest z collect_loops ids bcs')
        = EvLoopsAppend (LZeroTensor z) :: rest /\
        Forall not_zero_step rest
  end.
Proof.
  intros Hprep. apply prepare_zero in Hprep. split; [exact Hprep |].
  destruct (thunk_trace_shape mve f kernels dest z collect_loops ids bcs')
    as (rest & Heq & Hrest).
  rewrite Heq. destruct collect_loops.
  - exists rest. auto.
  - destruct tensor; subst z; simpl; eauto.
Qed.

Lemma zero_step_once_witness :
  outcome (prepare "aij" "baij" Examples.no_error Examples.linear
             (Some (AFunction (mkFunction Examples.V))) None None false None None None
             false false)
  = inr (inr (DestVec (Examples.arg Examples.V) (mkFunction Examples.V), tensor_zero)) /\
  (tensor_zero = tensor_zero /\
   exists rest,
     trace (thunk Examples.no_error Examples.linear (compiled_kernels Examples.linear)
              (DestVec (Examples.arg Examples.V) (mkFunction Examples.V)) tensor_zero false
              ∅ None)
     = EvZero :: rest /\
     Forall not_zero_step rest).
Proof.
  split; [vm_compute; reflexivity |].
  apply (zero_step_once "aij" "baij" Examples.no_error Examples.no_error Examples.linear
           (Some (AFunction (mkFunction Examples.V))) None None false None None None
           false false (DestVec (Examples.arg Examples.V) (mkFunction Examples.V))
           tensor_zero (compiled_kernels Examples.linear) ∅ None).
  vm_compute. reflexivity.
Defined.

(** C2 as stated fails when the tensor is allocated by the call: the
    1-form is accumulated into the new function without any call of
    [tensor.zero]; and the thunk stored on a newly allocated matrix
    accumulates without zeroing each time it is called. *)
Lemma fresh_tensor_not_zeroed :
  (kernels_run
     (trace (Examples.run_assemble Examples.linear None None false None Examples.no_kwargs))
   = [7] /\
   List.filter is_zero
     (trace (Examples.run_assemble Examples.linear None None false None Examples.no_kwargs))
   = []) /\
  (exists A,
     outcome (Examples.run_assemble Examples.bilinear None None false None Examples.no_kwargs)
     = inr (RMatrix A) /\
     kernels_run (trace (call_assembly_callback Examples.no_error A (Some []))) = [7] /\
     List.filter is_zero (trace (call_assembly_callback Examples.no_error A (Some []))) = []).
Proof.
  split; [split; vm_compute; reflexivity |].
  eexists. split; [vm_compute; reflexivity |]. split; vm_compute; reflexivity.
Qed.

(** ** Unknown integral kinds *)

Lemma entity_set_unknown m integral_type :
  recognised integral_type = false -> entity_set m integral_type = None.
Proof.
  unfold recognised, entity_set, str_in. simpl. intros H.
  repeat (apply orb_false_elim in H as [? H]).
  repeat match goal with
         | E : String.eqb integral_type _ = false |- _ => rewrite E; clear E
         end.
  reflexivity.
Qed.

(** The pass of a kernel of unknown kind raises before it issues its
    parallel loop; once the context of the kernel is found, the error is
    the [ValueError] that names the kind. *)
Lemma kernel_step_unknown mve f dest cl ids bcs k :
  recognised (integral_type (kinfo k)) = false ->
  (exists e, kernel_step mve f dest cl ids bcs k = ([], inl e)) /\
  (forall ctx, outcome (kernel_context f dest bcs k) = inr ctx ->
     kernel_step mve f dest cl ids bcs k
     = ([], inl (mkExc ValueError
                   ["Unknown integral type '" +:+ integral_type (kinfo k) +:+ "'"]))).
Proof.
  intros Hkind. unfold kernel_step.
  rewrite (bind_silent _ _ (silent_kernel_context f dest bcs k)).
  destruct (outcome (kernel_context f dest bcs k)) as [e | [[[m sdata] ij] bb]].
  - split; [now exists e | discriminate].
  - unfold measure_set. rewrite (entity_set_unknown m _ Hkind).
    split; [eexists |]; reflexivity.
Qed.

Lemma for_fold_raise {A S} (l : list A) (acc : S) body x l' cls args :
  l = x :: l' -> body acc x = raise cls args ->
  for_fold l acc body = raise cls args.
Proof. intros -> H. simpl. now rewrite H. Qed.

(** Planning the sparsity stops at the first unknown integral kind,
    with the [ValueError] that names it. *)
Lemma sparsity_domains_unknown integral_types integral_type :
  In integral_type integral_types -> recognised integral_type = false ->
  exists unknown,
    In unknown integral_types /\ recognised unknown = false /\
    sparsity_domains integral_types
    = raise ValueError ["Unknown integral type " +:+ dquote +:+ unknown +:+ dquote].
Proof.
  unfold sparsity_domains. generalize (@nil op2.IterationRegion, @nil op2.IterationRegion,
                                       @nil op2.IterationRegion).
  induction integral_types as [| it0 its IH]; intros acc Hin Hkind; [contradiction |].
  destruct (recognised it0) eqn:Hit0.
  - destruct Hin as [-> | Hin]; [congruence |].
    assert (Hstep : exists acc',
               (let '(cell_domains, exterior_facet_domains, interior_facet_domains) := acc in
                if String.eqb it0 "cell" then
                  ret (cell_domains ++ [op2.ALL], exterior_facet_domains, interior_facet_domains)
                else if String.eqb it0 "exterior_facet" then
                  ret (cell_domains, exterior_facet_domains ++ [op2.ALL], interior_facet_domains)
                else if String.eqb it0 "interior_facet" then
                  ret (cell_domains, exterior_facet_domains, interior_facet_domains ++ [op2.ALL])
                else if String.eqb it0 "exterior_facet_bottom" then
                  ret (cell_domains ++ [op2.ON_BOTTOM], exterior_facet_domains, interior_facet_domains)
                else if String.eqb it0 "exterior_facet_top" then
                  ret (cell_domains ++ [op2.ON_TOP], exterior_facet_domains, interior_facet_domains)
                else if String.eqb it0 "exterior_facet_vert" then
                  ret (cell_domains, exterior_facet_domains ++ [op2.ALL], interior_facet_domains)
                else if String.eqb it0 "interior_facet_horiz" then
                  ret (cell_domains ++ [op2.ON_INTERIOR_FACETS], exterior_facet_domains,
                       interior_facet_domains)
                else if String.eqb it0 "interior_facet_vert" then
                  ret (cell_domains, exterior_facet_domains, interior_facet_domains ++ [op2.ALL])
                else
                  raise ValueError ["Unknown integral type " +:+ dquote +:+ it0 +:+ dquote])
               = ret acc').
    { destruct acc as [[c e] i]. unfold recognised, str_in in Hit0. simpl in Hit0.
      repeat match goal with
             | |- context [if String.eqb it0 ?s then _ else _] =>
                 destruct (String.eqb it0 s); [eexists; reflexivity |]
             end.
      discriminate. }
    destruct Hstep as (acc' & Hstep).
    destruct (IH acc' Hin Hkind) as (unknown & Hu & Hku & Heq).
    exists unknown. split; [now right |]. split; [exact Hku |].
    simpl. rewrite Hstep. simpl. rewrite <- Heq.
    now destruct (for_fold its acc' _).
  - exists it0. split; [now left |]. split; [exact Hit0 |].
    simpl. destruct acc as [[c e] i]. unfold recognised, str_in in Hit0. simpl in Hit0.
    repeat (apply orb_false_elim in Hit0 as [? Hit0]).
    repeat match goal with
           | E : String.eqb it0 _ = false |- _ => rewrite E; clear E
           end.
    reflexivity.
Qed.

(** C4 (amended).  When a kernel of the form has an unknown integral
    kind, every run of the pipeline raises, and the kernels accumulated
    by then are among those listed before it: no accumulation is issued
    for the offending kernel nor for any kernel after it.  When the
    kernels listed before it accumulate without error, all of them have
    run, and if the context of the offending kernel (its mesh, block
    indices, subdomain data and matching boundary conditions) is found,
    the error is the [ValueError] naming the kind. *)
Theorem unknown_kind_stops_pipeline
    (mve : ParLoopCall -> bool) (f : Form) (pre : list SplitKernel) (k : SplitKernel)
    (post : list SplitKernel) (dest : Dest) (z : ZeroTensor) (collect_loops : bool)
    (ids : gmap string (list SubdomainId)) (bcs : option (list DirichletBC)) :
  recognised (integral_type (kinfo k)) = false ->
  (exists e, outcome (thunk mve f (pre ++ k :: post) dest z collect_loops ids bcs) = inl e) /\
  (exists rest,
     map (fun k => kernel (kinfo k)) pre
     = kernels_run (trace (thunk mve f (pre ++ k :: post) dest z collect_loops ids bcs))
       ++ rest) /\
  ((forall k', In k' pre ->
      outcome (kernel_step mve f dest collect_loops ids bcs k') = inr tt) ->
   kernels_run (trace (thunk mve f (pre ++ k :: post) dest z collect_loops ids bcs))
   = map (fun k => kernel (kinfo k)) pre /\
   forall ctx, outcome (kernel_context f dest bcs k) = inr ctx ->
     outcome (thunk mve f (pre ++ k :: post) dest z collect_loops ids bcs)
     = inl (mkExc ValueError
              ["Unknown integral type '" +:+ integral_type (kinfo k) +:+ "'"])).
Proof.
  intros Hkind.
  destruct (kernel_step_unknown mve f dest collect_loops ids bcs k Hkind) as [[ek Hk] Hnamed].
  assert (Hrun : forall calls,
             kernels_run (trace (zero_step z collect_loops) ++ issued collect_loops calls)
             = map pl_kernel calls).
  { intros calls. rewrite kernels_run_app, kernels_run_issued. unfold kernels_run.
    rewrite (par_loops_none _ _ (fun ev H => proj1 (proj2 H)) (zero_step_trace z collect_loops)).
    reflexivity. }
  destruct (thunk_cases mve f (pre ++ k :: post) dest z collect_loops ids bcs)
    as (calls & [(Hok & _ & _) | (e & pre' & k' & post' & Hsplit & Hmap & Hk' & Hpre' & Heq)]).
  { (* the loop cannot succeed *)
    pose proof (for_ok_inv _ _ Hok k) as Hkk. rewrite Hk in Hkk. simpl in Hkk.
    discriminate Hkk. apply in_or_app. right. now left. }
  rewrite Heq. simpl trace. simpl outcome. rewrite Hrun, Hmap.
  apply app_eq_app in Hsplit as (l & [[-> Hl] | [-> Hl]]).
  - (* the first failing kernel is at or before [k] *)
    split; [now exists e |]. split.
    { exists (map (fun k => kernel (kinfo k)) l). now rewrite map_app. }
    intros Hall. destruct l as [| k0 l].
    + simpl in Hl. injection Hl as -> ->. rewrite app_nil_r. split; [reflexivity |].
      intros ctx Hctx. rewrite (Hnamed ctx Hctx) in Hk'. congruence.
    + simpl in Hl. injection Hl as -> _.
      assert (Hin : In k0 (pre' ++ k0 :: l)) by (apply in_or_app; right; now left).
      apply Hall in Hin. rewrite Hk' in Hin. discriminate.
  - (* [k] would have succeeded *)
    destruct l as [| k0 l].
    + simpl in Hl. injection Hl as -> ->. rewrite app_nil_r.
      split; [now exists e |]. split; [exists []; now rewrite app_nil_r |].
      intros _. split; [reflexivity |].
      intros ctx Hctx. rewrite (Hnamed ctx Hctx) in Hk'. congruence.
    + simpl in Hl. injection Hl as <- _.
      assert (Hin : In k (pre ++ k :: l)) by (apply in_or_app; right; now left).
      apply Hpre' in Hin. rewrite Hk in Hin. discriminate.
Qed.

Lemma unknown_kind_stops_pipeline_witness :
  recognised (integral_type (kinfo UnknownKindExample.vertex_kernel)) = false /\
  ((exists e,
      outcome (thunk Examples.no_error UnknownKindExample.with_vertex
                 ([UnknownKindExample.cell_kernel] ++ UnknownKindExample.vertex_kernel :: [])
                 (DestVec (Examples.arg Examples.V) (mkFunction Examples.V))
                 zero_noop false ∅ None) = inl e) /\
   (exists rest,
      map (fun k => kernel (kinfo k)) [UnknownKindExample.cell_kernel]
      = kernels_run
          (trace (thunk Examples.no_error UnknownKindExample.with_vertex
                    ([UnknownKindExample.cell_kernel] ++ UnknownKindExample.vertex_kernel :: [])
                    (DestVec (Examples.arg Examples.V) (mkFunction Examples.V))
                    zero_noop false ∅ None))
        ++ rest) /\
   ((forall k', In k' [UnknownKindExample.cell_kernel] ->
       outcome (kernel_step Examples.no_error UnknownKindExample.with_vertex
                  (DestVec (Examples.arg Examples.V) (mkFunction Examples.V))
                  false ∅ None k') = inr tt) ->
    kernels_run
      (trace (thunk Examples.no_error UnknownKindExample.with_vertex
                ([UnknownKindExample.cell_kernel] ++ UnknownKindExample.vertex_kernel :: [])
                (DestVec (Examples.arg Examples.V) (mkFunction Examples.V))
                zero_noop false ∅ None))
    = map (fun k => kernel (kinfo k)) [UnknownKindExample.cell_kernel] /\
    forall ctx,
      outcome (kernel_context UnknownKindExample.with_vertex
                 (DestVec (Examples.arg Examples.V) (mkFunction Examples.V)) None
                 UnknownKindExample.vertex_kernel) = inr ctx ->
      outcome (thunk Examples.no_error UnknownKindExample.with_vertex
                 ([UnknownKindExample.cell_kernel] ++ UnknownKindExample.vertex_kernel :: [])
                 (DestVec (Examples.arg Examples.V) (mkFunction Examples.V))
                 zero_noop false ∅ None)
      = inl (mkExc ValueError
               ["Unknown integral type '"
                +:+ integral_type (kinfo UnknownKindExample.vertex_kernel) +:+ "'"]))).
Proof.
  split; [reflexivity |].
  apply (unknown_kind_stops_pipeline Examples.no_error UnknownKindExample.with_vertex
           [UnknownKindExample.cell_kernel] UnknownKindExample.vertex_kernel []
           (DestVec (Examples.arg Examples.V) (mkFunction Examples.V)) zero_noop false ∅ None).
  reflexivity.
Defined.

(** C4 as stated fails: assembling the 1-form with a cell and a vertex
    integral raises the error that names "vertex", but only after the
    cell kernel has been accumulated. *)
Lemma unknown_kind_after_accumulation :
  outcome (Examples.run_assemble UnknownKindExample.with_vertex None None false None
             Examples.no_kwargs)
  = inl (mkExc ValueError ["Unknown integral type 'vertex'"]) /\
  par_loops (trace (Examples.run_assemble UnknownKindExample.with_vertex None None false None
                      Examples.no_kwargs)) <> [] /\
  kernels_run (trace (Examples.run_assemble UnknownKindExample.with_vertex None None false
                        None Examples.no_kwargs))
  = [7].
Proof. repeat split; vm_compute; (reflexivity || discriminate). Qed.

(** For a 2-form assembled without a supplied tensor, an unknown kind
    among the integrals of the form is already rejected when the
    sparsity is planned (lines 264-282): [_assemble] raises before
    anything is allocated or accumulated. *)
Lemma unknown_kind_rejected_before_allocation dmt dsmt sfe mve f test trial bcs fcp inverse
    mat_type sub_mat_type options_prefix collect_loops allocate_only kind :
  arguments f = [test; trial] ->
  String.eqb (default dmt mat_type) "matfree" = false ->
  In kind (if is_slate f
                    then map (fun kernel => integral_type (kinfo kernel)) (compiled_kernels f)
                    else integrals f) ->
  recognised kind = false ->
  (exists e, outcome (_assemble dmt dsmt sfe mve f None bcs fcp inverse mat_type sub_mat_type
                        options_prefix collect_loops allocate_only) = inl e) /\
  quiet not_allocation_nor_accumulation
    (_assemble dmt dsmt sfe mve f None bcs fcp inverse mat_type sub_mat_type
       options_prefix collect_loops allocate_only).
Proof.
  intros Hargs Hmat Hin Hkind.
  destruct (sparsity_domains_unknown _ _ Hin Hkind) as (unknown & _ & _ & Hplan).
  assert (Hprep :
    (exists e, outcome (prepare dmt dsmt sfe f None bcs fcp inverse mat_type sub_mat_type
                          options_prefix collect_loops allocate_only) = inl e) /\
    quiet not_allocation_nor_accumulation
      (prepare dmt dsmt sfe f None bcs fcp inverse mat_type sub_mat_type
         options_prefix collect_loops allocate_only)).
  { unfold prepare.
    destruct (negb (str_in (default dmt mat_type) _)); [split; [eexists; reflexivity | apply quiet_raise] |].
    destruct (negb (str_in (default dsmt sub_mat_type) _)); [split; [eexists; reflexivity | apply quiet_raise] |].
    assert (Hq : quiet not_allocation_nor_accumulation (check_topology f)).
    { apply (quiet_weaken untouched); [| apply check_topology_quiet].
      intros ev (_ & H1 & H2). now split. }
    destruct (outcome (check_topology f)) as [e | []] eqn:Hout.
    { split.
      - exists e. rewrite outcome_bind, Hout. reflexivity.
      - unfold quiet. rewrite trace_bind, Hout, app_nil_r. exact Hq. }
    assert (Hrest : forall c : M (Result + Dest * ZeroTensor),
               (exists e, outcome c = inl e) /\ quiet not_allocation_nor_accumulation c ->
               (exists e, outcome (check_topology f ;;; c) = inl e) /\
               quiet not_allocation_nor_accumulation (check_topology f ;;; c)).
    { intros c [[e He] Hc]. split.
      - exists e. rewrite outcome_bind, Hout. exact He.
      - apply quiet_bind; auto. }
    apply Hrest. clear Hrest.
    destruct (existsb subscripted (coefficients f)).
    { split; [eexists; reflexivity | repeat constructor]. }
    destruct (inverse && negb (length (arguments f) =? 2)).
    { split; [eexists; reflexivity | repeat constructor]. }
    rewrite Hargs. unfold setup_mat. rewrite Hmat, Hplan.
    split; [eexists; reflexivity | repeat constructor]. }
  destruct Hprep as [[e He] Hq].
  rewrite (_assemble_prepare_fails _ _ _ mve _ _ _ _ _ _ _ _ _ _ e He).
  split; [now exists e | exact Hq].
Qed.

(** ** Boundary conditions of a matrix *)

Lemma apply_bc_mat_on_block collect_loops shape bc k :
  owning_index (bc_function_space bc) = Some k ->
  quiet (on_block k) (apply_bc_mat collect_loops shape bc).
Proof.
  unfold owning_index, apply_bc_mat, bc_block, set_local_diagonal_entries.
  intros Hk. quiet.
  all: simpl;
    repeat match goal with
           | H : negb _ = false |- _ => apply negb_false_iff in H
           | H : (_ =? _) = true |- _ => apply Nat.eqb_eq in H
           end;
    try discriminate; try congruence.
  all: injection Hk as ->; subst; auto.
Qed.

Lemma for_ret {A} (l : list A) body :
  (forall y, In y l -> body y = ret tt) -> for_ l body = ret tt.
Proof.
  induction l as [| x l IH]; intros H; [reflexivity |].
  simpl. rewrite (H x) by now left. rewrite IH; [reflexivity |].
  intros y Hy. apply H. now right.
Qed.

Lemma for_at {A} (l1 l2 : list A) x body t :
  (forall y, In y l1 -> body y = ret tt) ->
  (forall y, In y l2 -> body y = ret tt) ->
  body x = (t, inr tt) ->
  for_ (l1 ++ x :: l2) body = (t, inr tt).
Proof.
  intros H1 H2 Hx. induction l1 as [| y l1 IH]; simpl.
  - rewrite Hx, (for_ret l2 body H2). simpl. now rewrite app_nil_r.
  - rewrite (H1 y) by now left. rewrite IH; [reflexivity |].
    intros y' Hy'. apply H1. now right.
Qed.

Lemma seq_split k n : k < n -> seq 0 n = seq 0 k ++ k :: seq (S k) (n - S k).
Proof.
  intros H. replace n with (k + S (n - S k)) at 1 by lia.
  rewrite seq_app. reflexivity.
Qed.

Lemma bc_block_eq collect_loops fs nodes k i j :
  owning_index fs = Some k ->
  bc_block collect_loops fs nodes i j
  = if (i =? j) && (i =? k)
    then set_local_diagonal_entries collect_loops i j nodes (fs_component fs)
    else ret tt.
Proof.
  unfold owning_index, bc_block. intros Hk.
  destruct (i =? j); simpl; [| reflexivity].
  destruct (fs_component fs) as [component |].
  - destruct (fs_parent fs) as [parent |]; [| discriminate].
    rewrite Hk. rewrite (Nat.eqb_sym k i). now destruct (i =? k).
  - rewrite Hk. rewrite (Nat.eqb_sym k i). now destruct (i =? k).
Qed.

(** The boundary condition of a subspace of index [k] sets the
    diagonal of block [(k, k)], once, and does nothing else. *)
Lemma apply_bc_mat_eq collect_loops shape bc k :
  owning_index (bc_function_space bc) = Some k ->
  fs_len (bc_function_space bc) <= 1 ->
  k < fst shape -> k < snd shape ->
  apply_bc_mat collect_loops shape bc
  = ([EvBcNodes bc;
      EvSetDiag collect_loops k k (bc_nodes bc) (fs_component (bc_function_space bc));
      EvLoopsAppend (LSetDiag k k (bc_nodes bc) (fs_component (bc_function_space bc)))],
     inr tt).
Proof.
  intros Hk Hlen Hr Hc. unfold apply_bc_mat.
  assert (Hlt : (1 <? fs_len (bc_function_space bc)) = false) by (apply Nat.ltb_ge; lia).
  rewrite Hlt.
  assert (Hrows :
    for_ (seq 0 (fst shape)) (fun i =>
      for_ (seq 0 (snd shape)) (fun j =>
        bc_block collect_loops (bc_function_space bc) (bc_nodes bc) i j))
    = ([EvSetDiag collect_loops k k (bc_nodes bc) (fs_component (bc_function_space bc));
        EvLoopsAppend (LSetDiag k k (bc_nodes bc) (fs_component (bc_function_space bc)))],
       inr tt)).
  { assert (Hother : forall i, i <> k ->
              for_ (seq 0 (snd shape)) (fun j =>
                bc_block collect_loops (bc_function_space bc) (bc_nodes bc) i j) = ret tt).
    { intros i Hi. apply for_ret. intros j _. rewrite (bc_block_eq _ _ _ k) by exact Hk.
      destruct (i =? k) eqn:E; [apply Nat.eqb_eq in E; contradiction |].
      now rewrite andb_false_r. }
    rewrite (seq_split k (fst shape) Hr). apply for_at.
    - intros i Hi. apply Hother. apply in_seq in Hi. lia.
    - intros i Hi. apply Hother. apply in_seq in Hi. lia.
    - rewrite (seq_split k (snd shape) Hc). apply for_at.
      + intros j Hj. rewrite (bc_block_eq _ _ _ k) by exact Hk.
        apply in_seq in Hj. destruct (k =? j) eqn:E; [apply Nat.eqb_eq in E; lia |].
        reflexivity.
      + intros j Hj. rewrite (bc_block_eq _ _ _ k) by exact Hk.
        apply in_seq in Hj. destruct (k =? j) eqn:E; [apply Nat.eqb_eq in E; lia |].
        reflexivity.
      + rewrite (bc_block_eq _ _ _ k) by exact Hk. rewrite Nat.eqb_refl. reflexivity. }
  rewrite Hrows. reflexivity.
Qed.

Section Frame.
Context {Block : Type}.
Variable zero : Block -> Block.
Variable accumulate : ParLoopCall -> gmap (nat * nat) Block -> gmap (nat * nat) Block.
Variable set_diagonal : list nat -> option nat -> Block -> Block.
Variable finalize : gmap (nat * nat) Block -> gmap (nat * nat) Block.

Lemma run_loops_on_block (k : nat) (t : list Event) (T : gmap (nat * nat) Block)
    (i j : nat) :
  Forall (on_block k) t -> (i, j) <> (k, k) ->
  run_loops zero accumulate set_diagonal finalize (loops_of t) T !! (i, j) = T !! (i, j).
Proof.
  intros Ht Hij. revert T. induction Ht as [| ev t Hev _ IH]; intros T; [reflexivity |].
  destruct ev as [| | | | | | | | | | | | | | | l |]; simpl in Hev; try contradiction;
    try exact (IH T).
  destruct l as [| | i' j' nodes idx |]; try contradiction.
  destruct Hev as [-> ->]. unfold loops_of. simpl.
  fold (loops_of t). unfold run_loops in *. simpl. rewrite IH.
  now apply lookup_alter_ne.
Qed.

(** C3.  Applying to a matrix a boundary condition whose space resolves
    to the top-level index [k] (directly, or through the parent of a
    component space) leaves every block other than [(k, k)] as it was;
    and when the space is not a full mixed space and [k] is a block of
    the matrix, what it does to block [(k, k)] is to set the diagonal
    entries of the constrained nodes. *)
Theorem bc_changes_only_its_diagonal_block
    (collect_loops : bool) (shape : nat * nat) (bc : DirichletBC) (k : nat)
    (T : gmap (nat * nat) Block) :
  owning_index (bc_function_space bc) = Some k ->
  (forall i j, (i, j) <> (k, k) ->
     run_loops zero accumulate set_diagonal finalize
       (loops_of (trace (apply_bc_mat collect_loops shape bc))) T !! (i, j)
     = T !! (i, j)) /\
  (fs_len (bc_function_space bc) <= 1 -> k < fst shape -> k < snd shape ->
     run_loops zero accumulate set_diagonal finalize
       (loops_of (trace (apply_bc_mat collect_loops shape bc))) T !! (k, k)
     = set_diagonal (bc_nodes bc) (fs_component (bc_function_space bc)) <$> T !! (k, k)).
Proof.
  intros Hk. split.
  - intros i j Hij. apply run_loops_on_block with (k := k); [| exact Hij].
    now apply apply_bc_mat_on_block.
  - intros Hlen Hr Hc. rewrite (apply_bc_mat_eq _ _ _ k) by assumption.
    unfold run_loops. simpl. rewrite lookup_alter. now rewrite decide_True.
Qed.

End Frame.

Lemma bc_changes_only_its_diagonal_block_witness :
  owning_index (bc_function_space BcExample.bc_Q) = Some 1 /\
  ((forall i j, (i, j) <> (1, 1) ->
      run_loops BcExample.zero BcExample.accumulate BcExample.set_diagonal BcExample.finalize
        (loops_of (trace (apply_bc_mat false (2, 2) BcExample.bc_Q))) BcExample.blocks
        !! (i, j)
      = BcExample.blocks !! (i, j)) /\
   (fs_len (bc_function_space BcExample.bc_Q) <= 1 -> 1 < fst (2, 2) -> 1 < snd (2, 2) ->
      run_loops BcExample.zero BcExample.accumulate BcExample.set_diagonal BcExample.finalize
        (loops_of (trace (apply_bc_mat false (2, 2) BcExample.bc_Q))) BcExample.blocks
        !! (1, 1)
      = BcExample.set_diagonal (bc_nodes BcExample.bc_Q)
          (fs_component (bc_function_space BcExample.bc_Q)) <$> BcExample.blocks !! (1, 1))).
Proof.
  split; [reflexivity |].
  apply (bc_changes_only_its_diagonal_block BcExample.zero BcExample.accumulate
           BcExample.set_diagonal BcExample.finalize false (2, 2) BcExample.bc_Q 1
           BcExample.blocks).
  reflexivity.
Defined.

(** The same on the example, computed: block (1, 1) gets its diagonal
    set, the three other blocks are as before. *)
Example bc_Q_on_blocks :
  map (fun ij => run_loops BcExample.zero BcExample.accumulate BcExample.set_diagonal
                   BcExample.finalize
                   (loops_of (trace (apply_bc_mat false (2, 2) BcExample.bc_Q)))
                   BcExample.blocks !! ij)
    [(0, 0); (0, 1); (1, 0); (1, 1)]
  = [Some ["a00"]; Some ["a01"]; Some ["a10"]; Some ["a11"; "diagonal"]].
Proof. vm_compute. reflexivity. Qed.

(** A boundary condition on a component of the first subspace
    resolves to index 0 through its parent. *)
Example bc_component_on_blocks :
  owning_index (bc_function_space BcExample.bc_component) = Some 0 /\
  loops_of (trace (apply_bc_mat false (2, 2) BcExample.bc_component))
  = [LSetDiag 0 0 [5] (Some 0)].
Proof. split; reflexivity. Qed.

(** ** A boundary condition on a full mixed space *)

Lemma apply_bc_mat_full_mixed collect_loops shape bc :
  1 < fs_len (bc_function_space bc) ->
  apply_bc_mat collect_loops shape bc
  = ([EvBcNodes bc],
     inl (mkExc RuntimeError
            ["Cannot apply boundary conditions to full mixed space. Did you forget to index it?"])).
Proof.
  intros H. unfold apply_bc_mat. apply Nat.ltb_lt in H. rewrite H. reflexivity.
Qed.

Lemma quiet_apply_bc_mat collect_loops shape bc :
  quiet (fun ev => is_finalize ev = false) (apply_bc_mat collect_loops shape bc).
Proof. unfold apply_bc_mat, bc_block, set_local_diagonal_entries. quiet. Qed.

(** C7.  Applying to a matrix a boundary condition whose function space
    is a full mixed space raises the [RuntimeError] that tells the
    caller to index the space, and the only event of the attempt is the
    evaluation of [bc.nodes]: no diagonal entry is set for it.  Hence
    every run of the thunk on a matrix with such a boundary condition
    among [bcs] raises, and the matrix is never finalised. *)
Theorem full_mixed_space_bc_rejected
    (mve : ParLoopCall -> bool) (f : Form) (kernels : list SplitKernel)
    (test trial : Argument) (A : Matrix) (z : ZeroTensor) (collect_loops : bool)
    (ids : gmap string (list SubdomainId)) (bcs : list DirichletBC) (bc : DirichletBC) :
  1 < fs_len (bc_function_space bc) ->
  apply_bc_mat collect_loops (block_shape A) bc
  = ([EvBcNodes bc],
     inl (mkExc RuntimeError
            ["Cannot apply boundary conditions to full mixed space. Did you forget to index it?"])) /\
  (In bc bcs ->
   (exists e,
      outcome (thunk mve f kernels (DestMat test trial A) z collect_loops ids (Some bcs))
      = inl e) /\
   quiet (fun ev => is_finalize ev = false)
     (thunk mve f kernels (DestMat test trial A) z collect_loops ids (Some bcs))).
Proof.
  intros Hfull. split; [now apply apply_bc_mat_full_mixed |].
  intros Hin.
  assert (Hbcs : exists e,
             outcome (for_ bcs (apply_bc_mat collect_loops (block_shape A))) = inl e).
  { apply for_fails with (x := bc); [exact Hin |].
    rewrite apply_bc_mat_full_mixed by exact Hfull. eexists. reflexivity. }
  destruct Hbcs as [e He].
  assert (Hafter :
    after_kernels (DestMat test trial A) collect_loops (Some bcs)
    = (trace (for_ bcs (apply_bc_mat collect_loops (block_shape A))), inl e)).
  { unfold after_kernels.
    destruct (for_ bcs (apply_bc_mat collect_loops (block_shape A))) as [t [e' | []]];
      simpl in *; congruence. }
  assert (Hquiet : forall calls,
             Forall (fun ev => is_finalize ev = false)
               (trace (zero_step z collect_loops) ++ issued collect_loops calls)).
  { intros calls. apply Forall_app. split.
    - destruct z, collect_loops; repeat constructor.
    - induction calls; simpl; repeat constructor; auto. }
  destruct (thunk_cases mve f kernels (DestMat test trial A) z collect_loops ids (Some bcs))
    as (calls & [(_ & _ & Heq) | (e' & pre & k & post & _ & _ & _ & _ & Heq)]);
    rewrite Heq; unfold quiet; simpl.
  - rewrite Hafter. simpl. split; [now exists e |].
    rewrite app_assoc. apply Forall_app. split; [apply Hquiet |].
    apply quiet_for. intros bc' _. apply quiet_apply_bc_mat.
  - split; [now exists e' | apply Hquiet].
Qed.

Lemma full_mixed_space_bc_rejected_witness :
  1 < fs_len (bc_function_space BcExample.bc_W) /\
  (apply_bc_mat false (block_shape BcExample.A22) BcExample.bc_W
   = ([EvBcNodes BcExample.bc_W],
      inl (mkExc RuntimeError
             ["Cannot apply boundary conditions to full mixed space. Did you forget to index it?"])) /\
   (In BcExample.bc_W [BcExample.bc_Q; BcExample.bc_W] ->
    (exists e,
       outcome (thunk Examples.no_error BcExample.mixed (compiled_kernels BcExample.mixed)
                  (DestMat (Examples.arg Examples.W) (Examples.arg Examples.W) BcExample.A22)
                  tensor_zero false ∅ (Some [BcExample.bc_Q; BcExample.bc_W]))
       = inl e) /\
    quiet (fun ev => is_finalize ev = false)
      (thunk Examples.no_error BcExample.mixed (compiled_kernels BcExample.mixed)
         (DestMat (Examples.arg Examples.W) (Examples.arg Examples.W) BcExample.A22)
         tensor_zero false ∅ (Some [BcExample.bc_Q; BcExample.bc_W])))).
Proof.
  split; [vm_compute; lia |].
  apply (full_mixed_space_bc_rejected Examples.no_error BcExample.mixed
           (compiled_kernels BcExample.mixed) (Examples.arg Examples.W)
           (Examples.arg Examples.W) BcExample.A22 tensor_zero false ∅
           [BcExample.bc_Q; BcExample.bc_W] BcExample.bc_W).
  vm_compute. lia.
Defined.

(** On the example the kernel is accumulated, the first boundary
    condition sets the diagonal of its block, and the second raises. *)
Example full_mixed_space_run :
  thunk Examples.no_error BcExample.mixed [] 
    (DestMat (Examples.arg Examples.W) (Examples.arg Examples.W) BcExample.A22)
    tensor_zero false ∅ (Some [BcExample.bc_Q; BcExample.bc_W])
  = ([EvZero; EvBcNodes BcExample.bc_Q; EvSetDiag false 1 1 [3; 4] None;
      EvLoopsAppend (LSetDiag 1 1 [3; 4] None); EvBcNodes BcExample.bc_W],
     inl (mkExc RuntimeError
            ["Cannot apply boundary conditions to full mixed space. Did you forget to index it?"])).
Proof. vm_compute. reflexivity. Qed.

(** ** Iteration sets *)

Lemma bind_ret {A B} (a : A) (k : A -> M B) : bind (ret a) k = k a.
Proof. unfold bind, ret. now destruct (k a). Qed.

Lemma bind_raise {A B} cls args (k : A -> M B) : bind (raise cls args) k = raise cls args.
Proof. reflexivity. Qed.

(** The parallel loop a pass issues iterates over the entity set of
    the kind of the kernel, filtered by subdomain, or, for a cell
    integral with subdomain data, over that data. *)
Lemma kernel_step_call mve f dest cl ids bcs k c call :
  In (EvParLoop c call) (trace (kernel_step mve f dest cl ids bcs k)) ->
  exists m sdata ij bb es,
    outcome (kernel_context f dest bcs k) = inr (m, sdata, ij, bb) /\
    entity_set m (integral_type (kinfo k)) = Some es /\
    pl_itspace call =
      if String.eqb (integral_type (kinfo k)) "cell"
      then default (subdomain_filter (subdomain_id (kinfo k))
                      (default [] (ids !! integral_type (kinfo k))) es) sdata
      else subdomain_filter (subdomain_id (kinfo k))
             (default [] (ids !! integral_type (kinfo k))) es.
Proof.
  unfold kernel_step.
  rewrite (bind_silent _ _ (silent_kernel_context f dest bcs k)).
  destruct (outcome (kernel_context f dest bcs k)) as [e | [[[m sdata] ij] bb]] eqn:Hctx;
    [simpl; contradiction |].
  unfold measure_set.
  destruct (entity_set m (integral_type (kinfo k))) as [es |] eqn:Hes;
    [| simpl; contradiction].
  rewrite bind_ret. intros Hin.
  exists m, sdata, ij, bb, es. split; [reflexivity |]. split; [exact Hes |].
  revert Hin.
  repeat first
    [ progress (rewrite ?bind_ret, ?bind_raise; cbv beta iota zeta)
    | match goal with
      | |- In _ (trace (raise _ _)) -> _ => simpl; contradiction
      | |- In _ (trace (bind (if ?b then _ else _) _)) -> _ => destruct b eqn:?
      | |- In _ (trace (bind ?c _)) -> _ =>
          rewrite (bind_silent c) by (silent; auto with silent);
          let a := fresh "a" in destruct (outcome c) as [? | a]; [simpl; contradiction |]
      | |- In _ (trace (if ?b then _ else _)) -> _ => destruct b eqn:?
      | |- In _ (trace (match ?x with _ => _ end)) -> _ => destruct x
      end ].
  all: simpl; intros [H | [H | []]]; [injection H as _ <-; reflexivity | discriminate].
Qed.

Lemma sorted_insert_In x l l' :
  sorted_insert x l = Some l' -> forall y, In y l' <-> y = x \/ In y l.
Proof.
  revert l'. induction l as [| z l IH]; simpl; intros l' H y.
  - injection H as <-. simpl. intuition.
  - destruct (sid_leb x z) as [[] |]; [| | discriminate].
    + injection H as <-. simpl. intuition.
    + destruct (sorted_insert x l) as [l0 |] eqn:E; [| discriminate].
      injection H as <-. simpl. rewrite (IH l0 eq_refl y). intuition.
Qed.

Lemma sorted_In v l : sorted v = Some l -> forall y, In y l <-> In y v.
Proof.
  revert l. induction v as [| x v IH]; simpl; intros l H y.
  - injection H as <-. reflexivity.
  - destruct (sorted v) as [l0 |] eqn:E; [| discriminate].
    rewrite (sorted_insert_In _ _ _ H y), (IH l0 eq_refl y). intuition.
Qed.

(** The identifiers collected for an integral type are those of the
    kernels of that type that are not "otherwise". *)
Lemma collect_subdomain_ids_In kernels it s :
  In s (default [] (collect_subdomain_ids kernels !! it)) <->
  exists k, In k kernels /\ integral_type (kinfo k) = it /\ subdomain_id (kinfo k) = s /\
            is_otherwise s = false.
Proof.
  unfold collect_subdomain_ids.
  assert (Hgen : forall d : gmap string (list SubdomainId),
    In s (default [] (foldl (fun d k =>
             if is_otherwise (subdomain_id (kinfo k)) then d
             else <[integral_type (kinfo k) :=
                      default [] (d !! integral_type (kinfo k)) ++ [subdomain_id (kinfo k)]]> d)
           d kernels !! it)) <->
    In s (default [] (d !! it)) \/
    exists k, In k kernels /\ integral_type (kinfo k) = it /\ subdomain_id (kinfo k) = s /\
              is_otherwise s = false).
  { induction kernels as [| k kernels IH]; intros d; simpl.
    - split; [auto | intros [H | (k & [] & _)]; exact H].
    - rewrite IH. clear IH.
      destruct (is_otherwise (subdomain_id (kinfo k))) eqn:Hother.
      + split.
        * intros [H | (k' & Hk' & H)]; [now left | right; exists k'; auto].
        * intros [H | (k' & [<- | Hk'] & Hit & Hs & Ho)]; [now left | congruence |].
          right. exists k'. auto.
      + destruct (decide (integral_type (kinfo k) = it)) as [<- | Hne].
        * rewrite lookup_insert_eq. simpl. rewrite in_app_iff. simpl. split.
          -- intros [[H | [H | []]] | (k' & Hk' & H)].
             ++ now left.
             ++ right. exists k. subst s. auto.
             ++ right. exists k'. auto.
          -- intros [H | (k' & [<- | Hk'] & Hit & Hs & Ho)].
             ++ left. now left.
             ++ left. right. now left.
             ++ right. exists k'. auto.
        * rewrite lookup_insert_ne by exact Hne. split.
          -- intros [H | (k' & Hk' & H)]; [now left | right; exists k'; auto].
          -- intros [H | (k' & [<- | Hk'] & Hit & Hs & Ho)]; [now left | contradiction |].
             right. exists k'. auto. }
  rewrite Hgen. rewrite lookup_empty. simpl. intuition.
Qed.

Lemma all_integer_subdomain_ids_In kernels ids it s :
  outcome (all_integer_subdomain_ids kernels) = inr ids ->
  In s (default [] (ids !! it)) <->
  exists k, In k kernels /\ integral_type (kinfo k) = it /\ subdomain_id (kinfo k) = s /\
            is_otherwise s = false.
Proof.
  unfold all_integer_subdomain_ids. intros H.
  destruct (bool_decide _); [| discriminate]. injection H as <-.
  rewrite <- collect_subdomain_ids_In. rewrite lookup_fmap.
  destruct (collect_subdomain_ids kernels !! it) as [v |]; simpl; [| reflexivity].
  destruct (sorted v) as [l |] eqn:E; simpl; [| reflexivity].
  now apply sorted_In.
Qed.

Lemma sid_eqb_eq a b : sid_eqb a b = true <-> a = b.
Proof.
  destruct a, b; simpl; try (split; [discriminate | congruence]); try tauto.
  rewrite Z.eqb_eq. split; congruence.
Qed.

Lemma tag_declared_true declared e :
  tag_declared declared e = true <-> exists t, ent_tag e = Some t /\ In (tag t) declared.
Proof.
  unfold tag_declared. destruct (ent_tag e) as [u |].
  - rewrite existsb_exists. split.
    + intros (s & Hs & Heq). apply sid_eqb_eq in Heq as <-. eauto.
    + intros (t & [= ->] & Ht). exists (tag t). split; [exact Ht | now apply sid_eqb_eq].
  - split; [discriminate | intros (t & [=] & _)].
Qed.

Lemma kernel_context_ok f dest bcs k m sdata ij bb :
  outcome (kernel_context f dest bcs k) = inr (m, sdata, ij, bb) ->
  ufl_domains f !! domain_number (kinfo k) = Some m /\
  (exists d, subdomain_data f !! mesh_id m = Some d /\
             sdata = mjoin (d !! integral_type (kinfo k))) /\
  (sdata <> None -> String.eqb (integral_type (kinfo k)) "cell" = true).
Proof.
  unfold kernel_context, list_index. intros H.
  apply bind_ok_inv in H as (m' & Hm & H).
  destruct (ufl_domains f !! domain_number (kinfo k)) as [m0 |]; [| discriminate].
  injection Hm as ->.
  apply bind_ok_inv in H as (d & Hd & H).
  destruct (subdomain_data f !! mesh_id m') as [d0 |] eqn:Hsd; [| discriminate].
  injection Hd as ->.
  apply bind_ok_inv in H as (ij' & _ & H).
  destruct (String.eqb (integral_type (kinfo k)) "cell") eqn:Hcell; simpl in H.
  - apply bind_ok_inv in H as (bb' & _ & H). injection H as <- <- <- <-.
    split; [reflexivity |]. split; [| auto].
    exists d. rewrite Hsd. split; reflexivity.
  - destruct (bool_decide (is_Some (mjoin (d !! integral_type (kinfo k))))) eqn:Hsome;
      [discriminate |].
    apply bind_ok_inv in H as (bb' & _ & H). injection H as <- <- <- <-.
    split; [reflexivity |]. split; [exists d; rewrite Hsd; split; reflexivity |].
    intros Hne. apply bool_decide_eq_false in Hsome. exfalso. apply Hsome.
    destruct (mjoin (d !! integral_type (kinfo k))); [eauto | contradiction].
Qed.

(** C5 (amended).  With the subdomain identifiers collected from the
    kernels of the form, the parallel loop issued for a kernel iterates,
    when there is no subdomain data for its integral type, over exactly
    the entities of its kind that its subdomain identifier selects: those
    carrying its integer tag, or, for "otherwise", those whose tag is not
    an integer tag of a kernel of the same integral type.  When the form
    carries subdomain data for a cell integral, the loop iterates over
    that data instead. *)
Theorem iteration_set_selected
    (mve : ParLoopCall -> bool) (f : Form) (kernels : list SplitKernel) (dest : Dest)
    (collect_loops : bool) (ids : gmap string (list SubdomainId))
    (bcs : option (list DirichletBC)) (k : SplitKernel) (c : bool) (call : ParLoopCall) :
  outcome (all_integer_subdomain_ids kernels) = inr ids ->
  In (EvParLoop c call) (trace (kernel_step mve f dest collect_loops ids bcs k)) ->
  exists m d es,
    ufl_domains f !! domain_number (kinfo k) = Some m /\
    subdomain_data f !! mesh_id m = Some d /\
    entity_set m (integral_type (kinfo k)) = Some es /\
    match mjoin (d !! integral_type (kinfo k)) with
    | None => forall e, In e (pl_itspace call) <-> In e es /\ selected kernels k e
    | Some s => integral_type (kinfo k) = "cell" /\ pl_itspace call = s
    end.
Proof.
  intros Hids Hin.
  apply kernel_step_call in Hin as (m & sdata & ij & bb & es & Hctx & Hes & Hit).
  apply kernel_context_ok in Hctx as (Hm & (d & Hd & ->) & Hcell).
  exists m, d, es. repeat split; try assumption.
  destruct (mjoin (d !! integral_type (kinfo k))) as [s |].
  - rewrite Hcell in Hit by discriminate. split; [| exact Hit].
    apply String.eqb_eq. now apply Hcell.
  - assert (Hit' : pl_itspace call
                   = subdomain_filter (subdomain_id (kinfo k))
                       (default [] (ids !! integral_type (kinfo k))) es).
    { rewrite Hit. now destruct (String.eqb _ _). }
    rewrite Hit'. clear Hit Hit'. intros e. unfold subdomain_filter, selected.
    destruct (subdomain_id (kinfo k)) as [t | |].
    + rewrite filter_In. unfold has_tag.
      destruct (ent_tag e) as [u |]; [rewrite Z.eqb_eq | ]; split;
        intros [H1 H2]; split; congruence.
    + rewrite filter_In, negb_true_iff.
      split; intros [He Hsel]; (split; [exact He |]).
      * intros k' t Hk' Hkind Hsid Htag.
        assert (Hdecl : tag_declared (default [] (ids !! integral_type (kinfo k))) e = true).
        { apply tag_declared_true. exists t. split; [exact Htag |].
          apply (all_integer_subdomain_ids_In kernels ids _ _ Hids).
          exists k'. rewrite Hsid. auto. }
        congruence.
      * destruct (tag_declared _ e) eqn:Hdecl; [| reflexivity].
        apply tag_declared_true in Hdecl as (t & Htag & Ht).
        apply (all_integer_subdomain_ids_In kernels ids _ _ Hids) in Ht
          as (k' & Hk' & Hkind & Hsid & _).
        exfalso. exact (Hsel k' t Hk' Hkind Hsid Htag).
    + tauto.
Qed.

Lemma iteration_set_selected_witness :
  outcome (all_integer_subdomain_ids (compiled_kernels SubdomainExample.tagged))
  = inr SubdomainExample.tagged_ids /\
  In (EvParLoop false SubdomainExample.otherwise_call)
    (trace (kernel_step Examples.no_error SubdomainExample.tagged
              (DestVec (Examples.arg Examples.V) (mkFunction Examples.V)) false
              SubdomainExample.tagged_ids None SubdomainExample.otherwise_kernel)) /\
  exists m d es,
    ufl_domains SubdomainExample.tagged
      !! domain_number (kinfo SubdomainExample.otherwise_kernel) = Some m /\
    subdomain_data SubdomainExample.tagged !! mesh_id m = Some d /\
    entity_set m (integral_type (kinfo SubdomainExample.otherwise_kernel)) = Some es /\
    match mjoin (d !! integral_type (kinfo SubdomainExample.otherwise_kernel)) with
    | None =>
        forall e, In e (pl_itspace SubdomainExample.otherwise_call) <->
                  In e es /\
                  selected (compiled_kernels SubdomainExample.tagged)
                    SubdomainExample.otherwise_kernel e
    | Some s =>
        integral_type (kinfo SubdomainExample.otherwise_kernel) = "cell" /\
        pl_itspace SubdomainExample.otherwise_call = s
    end.
Proof.
  assert (Hids : outcome (all_integer_subdomain_ids (compiled_kernels SubdomainExample.tagged))
                 = inr SubdomainExample.tagged_ids) by (vm_compute; reflexivity).
  assert (Hin : In (EvParLoop false SubdomainExample.otherwise_call)
                  (trace (kernel_step Examples.no_error SubdomainExample.tagged
                            (DestVec (Examples.arg Examples.V) (mkFunction Examples.V)) false
                            SubdomainExample.tagged_ids None
                            SubdomainExample.otherwise_kernel)))
    by (vm_compute; left; reflexivity).
  split; [exact Hids |]. split; [exact Hin |].
  exact (iteration_set_selected Examples.no_error SubdomainExample.tagged
           (compiled_kernels SubdomainExample.tagged)
           (DestVec (Examples.arg Examples.V) (mkFunction Examples.V)) false
           SubdomainExample.tagged_ids None SubdomainExample.otherwise_kernel false
           SubdomainExample.otherwise_call Hids Hin).
Defined.

(** C5 as stated fails for a cell integral with subdomain data: the
    "otherwise" kernel iterates over the data, the first cell only,
    although no kernel of the form declares an integer tag, so that every
    cell, the second for one, has a tag that is not declared. *)
Lemma otherwise_kernel_with_subdomain_data :
  map (fun p => pl_itspace (snd p))
    (par_loops (trace (Examples.run_assemble SubdomainExample.with_data None None false None
                         Examples.no_kwargs)))
  = [[Examples.e 0 1]] /\
  In (Examples.e 1 1) (cell_set Examples.mesh) /\
  selected (compiled_kernels SubdomainExample.with_data) SubdomainExample.otherwise_kernel
    (Examples.e 1 1) /\
  ~ In (Examples.e 1 1) [Examples.e 0 1].
Proof.
  split; [vm_compute; reflexivity |].
  split; [simpl; auto |].
  split.
  - intros k' t [<- | []] _ Hsid. discriminate.
  - intros [H | []]. discriminate.
Qed.

(** ** A supplied matrix *)

Lemma quiet_thunk mve f kernels dest z cl ids bcs :
  quiet thunk_event (thunk mve f kernels dest z cl ids bcs).
Proof.
  assert (Hzero : Forall thunk_event (trace (zero_step z cl))).
  { destruct z, cl; repeat constructor. }
  assert (Hissued : forall calls, Forall thunk_event (issued cl calls)).
  { induction calls; simpl; repeat constructor; auto. }
  assert (Hafter : Forall thunk_event (trace (after_kernels dest cl bcs))).
  { eapply List.Forall_impl; [| apply quiet_after_kernels].
    intros ev Hev. destruct ev; try contradiction; exact I. }
  unfold quiet.
  destruct (thunk_cases mve f kernels dest z cl ids bcs)
    as (calls & [(_ & _ & Heq) | (e & pre & k & post & _ & _ & _ & _ & Heq)]);
    rewrite Heq; simpl; repeat (apply Forall_app; split); auto.
Qed.

Lemma quiet_prepare_supplied dmt dsmt sfe f A bcs fcp inverse mat_type sub_mat_type
    options_prefix collect_loops allocate_only :
  quiet not_allocation
    (prepare dmt dsmt sfe f (Some (AMatrix A)) bcs fcp inverse mat_type sub_mat_type
       options_prefix collect_loops allocate_only).
Proof.
  unfold prepare, check_topology, list_index, setup_mat, setup_vec, setup_scalar,
    not_allocation.
  quiet.
Qed.

(** The rest of [_assemble] allocates nothing. *)
Lemma quiet_assemble_tail mve f (s : Result + Dest * ZeroTensor) (cl : bool) bcs :
  quiet not_allocation
    match s with
    | inl r => ret r
    | inr (dest, zero_tensor) =>
        ids <- all_integer_subdomain_ids (compiled_kernels f) ;;
        if cl then
          loops <- collected (thunk mve f (compiled_kernels f) dest zero_tensor cl ids bcs) ;;
          ret (RLoops loops)
        else
          match dest with
          | DestMat test trial result_matrix =>
              ret (RMatrix (set_assembly_callback result_matrix
                              (cb_thunk (mkThunkEnv f (compiled_kernels f) test trial
                                           zero_tensor cl ids))))
          | _ => thunk mve f (compiled_kernels f) dest zero_tensor cl ids bcs
          end
    end.
Proof.
  assert (Hthunk : forall dest z ids,
             quiet not_allocation (thunk mve f (compiled_kernels f) dest z cl ids bcs)).
  { intros. apply (quiet_weaken thunk_event); [| apply quiet_thunk].
    intros ev Hev. now destruct ev. }
  unfold all_integer_subdomain_ids. quiet; apply Hthunk.
Qed.

(** C8 (amended).  When the caller supplies a matrix for a 2-form and
    [_assemble] returns, nothing has been allocated: the matrix is reused
    with its sparsity and block shape, and its boundary conditions are
    replaced by the ones of the call.  When loops are not collected (or
    the call only allocates) the matrix is returned, and the thunk stored
    on it does not depend on the boundary conditions of the call: it
    takes them when it is called.  When loops are collected, as
    [create_assembly_callable] does, the call returns the loops of one
    run of the pipeline on the reused matrix, zeroed first, with the
    boundary conditions of the call, which are thereby fixed in the
    loops.  The call does not check that the shape or the sparsity of the
    matrix fit the form. *)
Theorem supplied_matrix_reused
    (dmt dsmt : string) (sfe : SparsityRequest -> bool) (mve : ParLoopCall -> bool)
    (f : Form) (test trial : Argument) (A : Matrix) (bcs : option (list DirichletBC))
    (fcp : option (gmap string string)) (inverse : bool) (mat_type sub_mat_type : option string)
    (options_prefix : option string) (collect_loops allocate_only : bool) (r : Result) :
  arguments f = [test; trial] ->
  outcome (_assemble dmt dsmt sfe mve f (Some (AMatrix A)) bcs fcp inverse mat_type
             sub_mat_type options_prefix collect_loops allocate_only) = inr r ->
  quiet not_allocation
    (_assemble dmt dsmt sfe mve f (Some (AMatrix A)) bcs fcp inverse mat_type
       sub_mat_type options_prefix collect_loops allocate_only) /\
  mat_bcs (set_bcs A bcs) = bcs /\
  mat_a (set_bcs A bcs) = mat_a A /\ mat_sparsity (set_bcs A bcs) = mat_sparsity A /\
  block_shape (set_bcs A bcs) = block_shape A /\
  if collect_loops && negb allocate_only then
    exists ids,
      outcome (all_integer_subdomain_ids (compiled_kernels f)) = inr ids /\
      outcome (thunk mve f (compiled_kernels f) (DestMat test trial (set_bcs A bcs))
                 tensor_zero true ids bcs) = inr (RMatrix (set_bcs A bcs)) /\
      r = RLoops (loops_of (trace (thunk mve f (compiled_kernels f)
                                     (DestMat test trial (set_bcs A bcs))
                                     tensor_zero true ids bcs)))
  else
    exists A',
      r = RMatrix A' /\
      mat_bcs A' = bcs /\
      mat_a A' = mat_a A /\ mat_sparsity A' = mat_sparsity A /\
      block_shape A' = block_shape A /\
      forall bcs2 r2,
        outcome (_assemble dmt dsmt sfe mve f (Some (AMatrix A)) bcs2 fcp inverse mat_type
                   sub_mat_type options_prefix collect_loops allocate_only) = inr r2 ->
        exists A2, r2 = RMatrix A2 /\ mat_bcs A2 = bcs2 /\
                   _assembly_callback A2 = _assembly_callback A'.
Proof.
  intros Hargs Hok. split.
  { unfold _assemble. apply quiet_bind; [apply quiet_prepare_supplied |].
    intros s _. exact (quiet_assemble_tail mve f s collect_loops bcs). }
  do 4 (split; [reflexivity |]).
  assert (Hdest : forall bcs0 r0,
    outcome (_assemble dmt dsmt sfe mve f (Some (AMatrix A)) bcs0 fcp inverse mat_type
               sub_mat_type options_prefix collect_loops allocate_only) = inr r0 ->
    if allocate_only then r0 = RMatrix (set_assembly_callback (set_bcs A bcs0) cb_None)
    else
      exists ids,
        outcome (all_integer_subdomain_ids (compiled_kernels f)) = inr ids /\
        if collect_loops then
          exists loops,
            outcome (collected (thunk mve f (compiled_kernels f)
                                  (DestMat test trial (set_bcs A bcs0)) tensor_zero true ids
                                  bcs0)) = inr loops /\
            r0 = RLoops loops
        else
          r0 = RMatrix (set_assembly_callback (set_bcs A bcs0)
                          (cb_thunk (mkThunkEnv f (compiled_kernels f) test trial
                                       tensor_zero false ids)))).
  { intros bcs0 r0 H0. unfold _assemble in H0.
    apply bind_ok_inv in H0 as (s & Hprep & H0).
    apply prepare_ok_inv in Hprep. rewrite Hargs in Hprep. destruct Hprep as (its & Hs).
    apply setup_mat_ok in Hs as [(_ & IM & _ & [[=] | [=]]) | (_ & A0 & z & Hz & ->)].
    destruct Hz as [([=] & _) | (A1 & [= <-] & -> & ->)].
    destruct allocate_only.
    - simpl in H0. now injection H0 as <-.
    - cbv beta iota in H0. apply bind_ok_inv in H0 as (ids & Hids & H0).
      exists ids. split; [exact Hids |]. destruct collect_loops.
      + apply bind_ok_inv in H0 as (loops & Hloops & H0). exists loops.
        split; [exact Hloops |]. simpl in H0. congruence.
      + simpl in H0. congruence. }
  pose proof (Hdest bcs r Hok) as Hr.
  destruct allocate_only.
  - rewrite andb_false_r. subst r. eexists. split; [reflexivity |]. simpl. repeat split.
    intros bcs2 r2 H2. rewrite (Hdest bcs2 r2 H2). eexists. repeat split.
  - rewrite andb_true_r. destruct Hr as (ids & Hids & Hr). destruct collect_loops.
    + destruct Hr as (loops & Hloops & ->). exists ids. split; [exact Hids |].
      unfold collected in Hloops.
      destruct (thunk mve f (compiled_kernels f) (DestMat test trial (set_bcs A bcs))
                  tensor_zero true ids bcs) as [t [e | r']] eqn:Hthunk; [discriminate |].
      injection Hloops as <-.
      assert (Hout : outcome (thunk mve f (compiled_kernels f)
                                (DestMat test trial (set_bcs A bcs)) tensor_zero true ids bcs)
                     = inr r') by now rewrite Hthunk.
      destruct (thunk_ran_pipeline_once _ _ _ _ _ _ _ _ _ Hout) as (_ & -> & _).
      split; reflexivity.
    + subst r. eexists. split; [reflexivity |]. simpl. repeat split.
      intros bcs2 r2 H2. destruct (Hdest bcs2 r2 H2) as (ids2 & Hids2 & ->).
      eexists. split; [reflexivity |]. simpl. split; [reflexivity |]. congruence.
Qed.

Lemma supplied_matrix_reused_witness :
  (outcome ReuseExample.reuse = inr ReuseExample.reused /\
   quiet not_allocation ReuseExample.reuse /\
   exists A',
     ReuseExample.reused = RMatrix A' /\
     mat_bcs A' = Some [ReuseExample.bc_V] /\
     mat_a A' = mat_a Examples.A11 /\ mat_sparsity A' = mat_sparsity Examples.A11 /\
     block_shape A' = block_shape Examples.A11 /\
     forall bcs2 r2,
       outcome (_assemble "aij" "baij" Examples.no_error Examples.no_error Examples.bilinear
                  (Some (AMatrix Examples.A11)) bcs2 None false None None None false false)
       = inr r2 ->
       exists A2, r2 = RMatrix A2 /\ mat_bcs A2 = bcs2 /\
                  _assembly_callback A2 = _assembly_callback A') /\
  (outcome CollectExample.collect = inr CollectExample.loops /\
   quiet not_allocation CollectExample.collect /\
   exists ids,
     outcome (all_integer_subdomain_ids (compiled_kernels Examples.bilinear)) = inr ids /\
     outcome (thunk Examples.no_error Examples.bilinear (compiled_kernels Examples.bilinear)
                (DestMat (Examples.arg Examples.V) (Examples.arg Examples.V)
                   (set_bcs Examples.A11 (Some [ReuseExample.bc_V])))
                tensor_zero true ids (Some [ReuseExample.bc_V]))
     = inr (RMatrix (set_bcs Examples.A11 (Some [ReuseExample.bc_V]))) /\
     CollectExample.loops
     = RLoops (loops_of (trace (thunk Examples.no_error Examples.bilinear
                                  (compiled_kernels Examples.bilinear)
                                  (DestMat (Examples.arg Examples.V) (Examples.arg Examples.V)
                                     (set_bcs Examples.A11 (Some [ReuseExample.bc_V])))
                                  tensor_zero true ids (Some [ReuseExample.bc_V]))))).
Proof.
  split.
  - assert (Hok : outcome ReuseExample.reuse = inr ReuseExample.reused)
      by (vm_compute; reflexivity).
    split; [exact Hok |].
    destruct (supplied_matrix_reused "aij" "baij" Examples.no_error Examples.no_error
                Examples.bilinear (Examples.arg Examples.V) (Examples.arg Examples.V)
                Examples.A11 (Some [ReuseExample.bc_V]) None false None None None false false
                ReuseExample.reused eq_refl Hok) as (Hquiet & _ & _ & _ & _ & Hmatrix).
    split; [exact Hquiet | exact Hmatrix].
  - assert (Hok : outcome CollectExample.collect = inr CollectExample.loops)
      by (vm_compute; reflexivity).
    split; [exact Hok |].
    destruct (supplied_matrix_reused "aij" "baij" Examples.no_error Examples.no_error
                Examples.bilinear (Examples.arg Examples.V) (Examples.arg Examples.V)
                Examples.A11 (Some [ReuseExample.bc_V]) None false None None None true false
                CollectExample.loops eq_refl Hok) as (Hquiet & _ & _ & _ & _ & Hloops).
    split; [exact Hquiet | exact Hloops].
Defined.

(** C8 as stated fails: a supplied matrix of one block is accepted for
    a 2-form on a mixed space of two subspaces; the shape of the matrix is
    not compared with the argument spaces. *)
Lemma supplied_matrix_shape_unchecked :
  ~ shape_compatible BcExample.mixed Examples.A11 /\
  exists A',
    outcome (Examples.run_assemble BcExample.mixed (Some (AMatrix Examples.A11)) None false
               None Examples.no_kwargs)
    = inr (RMatrix A').
Proof.
  split; [unfold shape_compatible; simpl; discriminate |].
  vm_compute. eexists. reflexivity.
Qed.

(** ** Block-sparse storage and spaces of global degrees of freedom *)

Lemma silent_sparsity_domains its : silent (sparsity_domains its).
Proof. unfold sparsity_domains. silent. Qed.

Lemma sparsity_domains_ok its :
  forallb recognised its = true -> exists d, sparsity_domains its = ret d.
Proof.
  intros Hall.
  destruct (outcome (sparsity_domains its)) as [e | d] eqn:Hout.
  - exfalso.
    destruct (forallb recognised its) eqn:Hrec; [| discriminate].
    assert (Hex : exists kind, In kind its /\ recognised kind = false).
    { clear Hall Hrec. revert Hout. unfold sparsity_domains.
      generalize (@nil op2.IterationRegion, @nil op2.IterationRegion,
                  @nil op2.IterationRegion).
      induction its as [| it0 its IH]; intros acc Hout; [discriminate |].
      destruct (recognised it0) eqn:Hit0; [| exists it0; split; [now left | exact Hit0]].
      simpl in Hout. rewrite outcome_bind in Hout.
      match type of Hout with
      | match outcome ?c with _ => _ end = _ => destruct (outcome c) as [e0 | acc'] eqn:Hc
      end.
      - exfalso. destruct acc as [[c0 e1] i]. unfold recognised, str_in in Hit0.
        simpl in Hit0.
        repeat match type of Hc with
               | context [if String.eqb it0 ?s then _ else _] =>
                   destruct (String.eqb it0 s); [discriminate |]
               end.
        discriminate.
      - destruct (IH acc' Hout) as (kind & Hin & Hk). exists kind. split; [now right | exact Hk]. }
    destruct Hex as (kind & Hin & Hk).
    rewrite forallb_forall in Hrec. rewrite (Hrec kind Hin) in Hk. discriminate.
  - exists d. pose proof (silent_sparsity_domains its) as Hs. unfold silent in Hs.
    destruct (sparsity_domains its) as [t o]. simpl in *. now subst.
Qed.

(** With a builder that rejects block-sparse storage of such blocks,
    the branch of a 2-form without a supplied tensor raises before it
    allocates. *)
Lemma setup_mat_block_sparse sfe f test trial bcs inverse mat_type sub_mat_type
    options_prefix integral_types collect_loops allocate_only :
  rejects_unblockable sfe ->
  existsb fs_real (blocks_of (arg_function_space test))
  || existsb fs_real (blocks_of (arg_function_space trial)) = true ->
  mat_type = "baij" \/ (mat_type = "nest" /\ sub_mat_type = "baij") ->
  (exists e,
     setup_mat sfe f test trial None bcs inverse mat_type sub_mat_type options_prefix
       integral_types collect_loops allocate_only = ([], inl e)) /\
  (forallb recognised integral_types = true ->
   setup_mat sfe f test trial None bcs inverse mat_type sub_mat_type options_prefix
     integral_types collect_loops allocate_only
   = raise ValueError
       ["Monolithic matrix assembly is not supported for systems with R-space blocks."]).
Proof.
  intros Hcontract Hreal Hrequest. unfold setup_mat.
  assert (Hmat : String.eqb mat_type "matfree" = false)
    by (destruct Hrequest as [-> | [-> _]]; reflexivity).
  rewrite Hmat.
  rewrite (bind_silent (sparsity_domains integral_types) _ (silent_sparsity_domains _)).
  assert (Hsfe : forall domains,
    sfe {| sp_dsets := (arg_function_space test, arg_function_space trial);
           sp_maps := map_pairs test trial domains;
           sp_name := fs_name (arg_function_space test) +:+ "_"
                      +:+ fs_name (arg_function_space trial) +:+ "_sparsity";
           sp_nest := String.eqb mat_type "nest";
           sp_block_sparse := if String.eqb mat_type "nest"
                              then String.eqb sub_mat_type "baij"
                              else String.eqb mat_type "baij" |} = true).
  { intros domains. apply Hcontract; [| exact Hreal].
    simpl. destruct Hrequest as [-> | [-> ->]]; reflexivity. }
  split.
  - destruct (outcome (sparsity_domains integral_types)) as [e | domains].
    + now exists e.
    + rewrite Hsfe. eexists. reflexivity.
  - intros Hall. destruct (sparsity_domains_ok _ Hall) as (d & ->). simpl.
    rewrite Hsfe. reflexivity.
Qed.

Lemma for_ok {A} (l : list A) body :
  (forall x, In x l -> outcome (body x) = inr tt) -> outcome (for_ l body) = inr tt.
Proof.
  induction l as [| x l IH]; intros H; [reflexivity |].
  simpl. rewrite outcome_bind, (H x) by now left. apply IH.
  intros y Hy. apply H. now right.
Qed.

Lemma check_topology_shares f first :
  ufl_domains f !! 0 = Some first -> shares_topology f (topology first) ->
  outcome (check_topology f) = inr tt.
Proof.
  intros Hfirst (Hd & Ha & Hc). unfold check_topology, list_index. rewrite Hfirst.
  rewrite bind_ret, outcome_bind.
  rewrite for_ok.
  - apply for_ok. intros [d |] Hin; [| reflexivity].
    assert (Ht : topology d = topology first).
    { apply in_app_or in Hin as [Hin | Hin]; apply in_map_iff in Hin as (x & Hx & Hin);
        eauto. }
    rewrite Ht, Nat.eqb_refl. reflexivity.
  - intros m Hm. rewrite outcome_bind. simpl. rewrite (Hd m Hm), Nat.eqb_refl. reflexivity.
Qed.

(** C6 (amended).  When the Sparsity Builder rejects block-sparse
    storage of a block whose nodes are not uniformly blockable, a call of
    [_assemble] for a 2-form without a supplied tensor that requests
    block-sparse storage ("baij", or "nest" with sub-matrix type "baij")
    while some block of the argument spaces is such a block raises, and
    nothing is allocated.  When the call is otherwise valid (a valid
    sub-matrix type, one mesh topology, no subscripted coefficient, known
    integral kinds) the error is the [ValueError] about R-space blocks
    that [SparsityFormatError] is turned into. *)
Theorem block_sparse_real_block_rejected
    (dmt dsmt : string) (sfe : SparsityRequest -> bool) (mve : ParLoopCall -> bool)
    (f : Form) (test trial : Argument) (bcs : option (list DirichletBC))
    (fcp : option (gmap string string)) (inverse : bool) (mat_type sub_mat_type : option string)
    (options_prefix : option string) (collect_loops allocate_only : bool) :
  rejects_unblockable sfe ->
  arguments f = [test; trial] ->
  existsb fs_real (blocks_of (arg_function_space test))
  || existsb fs_real (blocks_of (arg_function_space trial)) = true ->
  default dmt mat_type = "baij"
  \/ (default dmt mat_type = "nest" /\ default dsmt sub_mat_type = "baij") ->
  ((exists e,
      outcome (_assemble dmt dsmt sfe mve f None bcs fcp inverse mat_type sub_mat_type
                 options_prefix collect_loops allocate_only) = inl e) /\
   quiet not_allocation
     (_assemble dmt dsmt sfe mve f None bcs fcp inverse mat_type sub_mat_type
        options_prefix collect_loops allocate_only)) /\
  (str_in (default dsmt sub_mat_type) ["aij"; "baij"] = true ->
   (exists first, ufl_domains f !! 0 = Some first /\ shares_topology f (topology first)) ->
   existsb subscripted (coefficients f) = false ->
   forallb recognised
     (if is_slate f then map (fun kernel => integral_type (kinfo kernel)) (compiled_kernels f)
      else integrals f) = true ->
   outcome (_assemble dmt dsmt sfe mve f None bcs fcp inverse mat_type sub_mat_type
              options_prefix collect_loops allocate_only)
   = inl (mkExc ValueError
            ["Monolithic matrix assembly is not supported for systems with R-space blocks."])).
Proof.
  intros Hcontract Hargs Hreal Hrequest.
  assert (Hmt : str_in (default dmt mat_type) ["matfree"; "aij"; "baij"; "nest"] = true)
    by (destruct Hrequest as [-> | [-> _]]; reflexivity).
  assert (Hrank : inverse && negb (length (arguments f) =? 2) = false)
    by (rewrite Hargs; apply andb_false_r).
  assert (Hprep :
    ((exists e, outcome (prepare dmt dsmt sfe f None bcs fcp inverse mat_type sub_mat_type
                           options_prefix collect_loops allocate_only) = inl e) /\
     quiet not_allocation
       (prepare dmt dsmt sfe f None bcs fcp inverse mat_type sub_mat_type
          options_prefix collect_loops allocate_only)) /\
    (str_in (default dsmt sub_mat_type) ["aij"; "baij"] = true ->
     (exists first, ufl_domains f !! 0 = Some first /\ shares_topology f (topology first)) ->
     existsb subscripted (coefficients f) = false ->
     forallb recognised
       (if is_slate f
        then map (fun kernel => integral_type (kinfo kernel)) (compiled_kernels f)
        else integrals f) = true ->
     outcome (prepare dmt dsmt sfe f None bcs fcp inverse mat_type sub_mat_type
                options_prefix collect_loops allocate_only)
     = inl (mkExc ValueError
              ["Monolithic matrix assembly is not supported for systems with R-space blocks."]))).
  { unfold prepare. rewrite Hmt, Hrank, Hargs. change (negb true) with false. cbv iota.
    destruct (setup_mat_block_sparse sfe f test trial bcs inverse (default dmt mat_type)
                (default dsmt sub_mat_type) options_prefix
                (if is_slate f
                 then map (fun kernel => integral_type (kinfo kernel)) (compiled_kernels f)
                 else integrals f)
                collect_loops allocate_only Hcontract Hreal Hrequest) as [[e He] Hnamed].
    split.
    - destruct (negb (str_in (default dsmt sub_mat_type) ["aij"; "baij"]));
        [split; [eexists; reflexivity | apply quiet_raise] |].
      assert (Hq : quiet not_allocation (check_topology f)).
      { apply (quiet_weaken untouched); [| apply check_topology_quiet].
        now intros ev (_ & H1 & _). }
      rewrite He.
      destruct (outcome (check_topology f)) as [e0 | []] eqn:Hout.
      + split.
        * exists e0. rewrite outcome_bind, Hout. reflexivity.
        * unfold quiet. rewrite trace_bind, Hout, app_nil_r. exact Hq.
      + split.
        * rewrite outcome_bind, Hout.
          destruct (existsb subscripted (coefficients f)); eexists; reflexivity.
        * apply quiet_bind; [exact Hq |]. intros _ _.
          destruct (existsb subscripted (coefficients f)); repeat constructor.
    - intros Hsmt (first & Hfirst & Hshare) Hsub Hall.
      rewrite Hsmt, Hsub, (Hnamed Hall). change (negb true) with false. cbv iota.
      rewrite outcome_bind, (check_topology_shares f first Hfirst Hshare). reflexivity. }
  destruct Hprep as [[[e He] Hq] Hnamed].
  rewrite (_assemble_prepare_fails _ _ _ mve _ _ _ _ _ _ _ _ _ _ e He).
  split; [split; [now exists e | exact Hq] |].
  intros H1 H2 H3 H4. simpl. specialize (Hnamed H1 H2 H3 H4). congruence.
Qed.

Lemma builder_rejects_unblockable : rejects_unblockable RealSpaceExample.builder.
Proof.
  intros request Hblock Hreal. unfold RealSpaceExample.builder.
  rewrite Hblock, Hreal. reflexivity.
Defined.

Lemma block_sparse_real_block_rejected_witness :
  rejects_unblockable RealSpaceExample.builder /\
  arguments RealSpaceExample.constrained
  = [Examples.arg RealSpaceExample.VR; Examples.arg RealSpaceExample.VR] /\
  existsb fs_real (blocks_of (arg_function_space (Examples.arg RealSpaceExample.VR)))
  || existsb fs_real (blocks_of (arg_function_space (Examples.arg RealSpaceExample.VR)))
  = true /\
  (default "aij" (Some "nest") = "baij"
   \/ (default "aij" (Some "nest") = "nest" /\ default "baij" None = "baij")) /\
  (((exists e,
       outcome (_assemble "aij" "baij" RealSpaceExample.builder Examples.no_error
                  RealSpaceExample.constrained None None None false (Some "nest") None None
                  false false) = inl e) /\
    quiet not_allocation
      (_assemble "aij" "baij" RealSpaceExample.builder Examples.no_error
         RealSpaceExample.constrained None None None false (Some "nest") None None
         false false)) /\
   (str_in (default "baij" None) ["aij"; "baij"] = true ->
    (exists first,
       ufl_domains RealSpaceExample.constrained !! 0 = Some first /\
       shares_topology RealSpaceExample.constrained (topology first)) ->
    existsb subscripted (coefficients RealSpaceExample.constrained) = false ->
    forallb recognised
      (if is_slate RealSpaceExample.constrained
       then map (fun kernel => integral_type (kinfo kernel))
              (compiled_kernels RealSpaceExample.constrained)
       else integrals RealSpaceExample.constrained) = true ->
    outcome (_assemble "aij" "baij" RealSpaceExample.builder Examples.no_error
               RealSpaceExample.constrained None None None false (Some "nest") None None
               false false)
    = inl (mkExc ValueError
             ["Monolithic matrix assembly is not supported for systems with R-space blocks."]))).
Proof.
  split; [exact builder_rejects_unblockable |].
  split; [reflexivity |]. split; [reflexivity |].
  split; [right; split; reflexivity |].
  apply (block_sparse_real_block_rejected "aij" "baij" RealSpaceExample.builder
           Examples.no_error RealSpaceExample.constrained
           (Examples.arg RealSpaceExample.VR) (Examples.arg RealSpaceExample.VR)
           None None false (Some "nest") None None false false).
  - exact builder_rejects_unblockable.
  - reflexivity.
  - reflexivity.
  - right. split; reflexivity.
Defined.

(** On the example the call is otherwise valid, and the error is the
    one about R-space blocks. *)
Example block_sparse_real_block_run :
  _assemble "aij" "baij" RealSpaceExample.builder Examples.no_error
    RealSpaceExample.constrained None None None false (Some "nest") None None false false
  = ([EvMeshInit 0; EvCompile false {[ "assemble_inverse" := "False" ]}],
     inl (mkExc ValueError
            ["Monolithic matrix assembly is not supported for systems with R-space blocks."])).
Proof. vm_compute. reflexivity. Qed.

(** C6 as stated fails when the caller supplies the matrix: no
    sparsity is built, so that the same request (nested, block-sparse
    sub-matrices, a block of global degrees of freedom, a builder that
    rejects such storage) is accepted. *)
Lemma block_sparse_request_on_supplied_matrix :
  rejects_unblockable RealSpaceExample.builder /\
  existsb fs_real (blocks_of (arg_function_space (Examples.arg RealSpaceExample.VR))) = true /\
  exists A',
    outcome (_assemble "aij" "baij" RealSpaceExample.builder Examples.no_error
               RealSpaceExample.constrained (Some (AMatrix RealSpaceExample.A_VR)) None None
               false (Some "nest") (Some "baij") None false false)
    = inr (RMatrix A').
Proof.
  split; [exact builder_rejects_unblockable |]. split; [reflexivity |].
  vm_compute. eexists. reflexivity.
Qed.

(** * Further properties of the assembler *)

(** ** What a call that returns has passed *)

Lemma check_topology_ok_first f :
  outcome (check_topology f) = inr tt ->
  exists first, ufl_domains f !! 0 = Some first /\ shares_topology f (topology first).
Proof.
  intros H. unfold check_topology, list_index in H.
  destruct (ufl_domains f !! 0) as [first |] eqn:Hfirst; [| discriminate].
  exists first. split; [reflexivity |].
  rewrite bind_ret in H.
  apply bind_ok_inv in H as ([] & Hdom & Hrest). repeat split.
  - intros m Hm. pose proof (for_ok_inv _ _ Hdom m Hm) as Hpass.
    apply bind_ok_inv in Hpass as ([] & _ & Hpass).
    destruct (topology m =? topology first) eqn:E; [now apply Nat.eqb_eq in E |].
    simpl in Hpass. discriminate.
  - intros a d Ha Hd.
    assert (Hin : In (Some d) (map arg_domain (arguments f) ++ map coef_domain (coefficients f))).
    { apply in_or_app. left. rewrite <- Hd. now apply in_map. }
    pose proof (for_ok_inv _ _ Hrest _ Hin) as Hpass. simpl in Hpass.
    destruct (topology d =? topology first) eqn:E; [now apply Nat.eqb_eq in E |].
    simpl in Hpass. discriminate.
  - intros c d Hc Hd.
    assert (Hin : In (Some d) (map arg_domain (arguments f) ++ map coef_domain (coefficients f))).
    { apply in_or_app. right. rewrite <- Hd. now apply in_map. }
    pose proof (for_ok_inv _ _ Hrest _ Hin) as Hpass. simpl in Hpass.
    destruct (topology d =? topology first) eqn:E; [now apply Nat.eqb_eq in E |].
    simpl in Hpass. discriminate.
Qed.

Lemma _assemble_ok_prepare dmt dsmt sfe mve f tensor bcs fcp inverse mat_type sub_mat_type
    options_prefix collect_loops allocate_only r :
  outcome (_assemble dmt dsmt sfe mve f tensor bcs fcp inverse mat_type sub_mat_type
             options_prefix collect_loops allocate_only) = inr r ->
  exists s,
    outcome (prepare dmt dsmt sfe f tensor bcs fcp inverse mat_type sub_mat_type
               options_prefix collect_loops allocate_only) = inr s.
Proof.
  unfold _assemble. intros H. apply bind_ok_inv in H as (s & Hs & _). now exists s.
Qed.

(** X1.  A call of [_assemble] that returns was given a recognised
    matrix type and sub-matrix type (after the defaults), a form with at
    least one integration domain whose domains, arguments and
    coefficients all live on the topology of the first domain, and no
    coefficient on a component of a vector space; and if it asked for the
    inverse, the form is a 2-form and the matrix type is not
    matrix-free. *)
Theorem returning_call_passed_checks
    (dmt dsmt : string) (sfe : SparsityRequest -> bool) (mve : ParLoopCall -> bool)
    (f : Form) (tensor : option Tensor) (bcs : option (list DirichletBC))
    (fcp : option (gmap string string)) (inverse : bool) (mat_type sub_mat_type : option string)
    (options_prefix : option string) (collect_loops allocate_only : bool) (r : Result) :
  outcome (_assemble dmt dsmt sfe mve f tensor bcs fcp inverse mat_type sub_mat_type
             options_prefix collect_loops allocate_only) = inr r ->
  str_in (default dmt mat_type) ["matfree"; "aij"; "baij"; "nest"] = true /\
  str_in (default dsmt sub_mat_type) ["aij"; "baij"] = true /\
  (exists first, ufl_domains f !! 0 = Some first /\ shares_topology f (topology first)) /\
  existsb subscripted (coefficients f) = false /\
  (inverse = true -> length (arguments f) = 2 /\ default dmt mat_type <> "matfree").
Proof.
  intros H. apply _assemble_ok_prepare in H as (s & H). unfold prepare in H.
  destruct (str_in (default dmt mat_type) _) eqn:Hmt; [| discriminate].
  destruct (str_in (default dsmt sub_mat_type) _) eqn:Hsmt; [| discriminate].
  change (negb true) with false in H. cbv iota in H.
  apply bind_ok_inv in H as ([] & Htop & H).
  apply bind_ok_inv in H as ([] & _ & H).
  destruct (existsb subscripted (coefficients f)); [discriminate |].
  destruct (inverse && negb (length (arguments f) =? 2)) eqn:Hinv; [discriminate |].
  repeat split; try reflexivity.
  - now apply check_topology_ok_first.
  - subst inverse. simpl in Hinv. apply negb_false_iff, Nat.eqb_eq in Hinv. exact Hinv.
  - subst inverse. simpl in Hinv. apply negb_false_iff, Nat.eqb_eq in Hinv.
    destruct (arguments f) as [| test [| trial [| ? ?]]]; try discriminate.
    intros Hmat. rewrite Hmat, setup_mat_matfree_inverse in H. discriminate.
Qed.

Lemma returning_call_passed_checks_witness :
  outcome (_assemble "aij" "baij" Examples.no_error Examples.no_error Examples.linear
             None None None false None None None false false)
  = inr (RFunction (mkFunction Examples.V)) /\
  (str_in (default "aij" None) ["matfree"; "aij"; "baij"; "nest"] = true /\
   str_in (default "baij" None) ["aij"; "baij"] = true /\
   (exists first,
      ufl_domains Examples.linear !! 0 = Some first /\
      shares_topology Examples.linear (topology first)) /\
   existsb subscripted (coefficients Examples.linear) = false /\
   (false = true -> length (arguments Examples.linear) = 2 /\ default "aij" None <> "matfree")).
Proof.
  split; [vm_compute; reflexivity |].
  apply (returning_call_passed_checks "aij" "baij" Examples.no_error Examples.no_error
           Examples.linear None None None false None None None false false
           (RFunction (mkFunction Examples.V))).
  vm_compute. reflexivity.
Defined.

(** ** The supplied tensor and the rank of the form *)

(** X2.  A call of [_assemble] with a supplied tensor returns only when
    the tensor fits the form: for a 2-form an implicit matrix exactly
    when the matrix type is matrix-free and a matrix otherwise, for a
    1-form a function; a form of any other rank takes no tensor. *)
Theorem supplied_tensor_fits_form
    (dmt dsmt : string) (sfe : SparsityRequest -> bool) (mve : ParLoopCall -> bool)
    (f : Form) (t : Tensor) (bcs : option (list DirichletBC))
    (fcp : option (gmap string string)) (inverse : bool) (mat_type sub_mat_type : option string)
    (options_prefix : option string) (collect_loops allocate_only : bool) (r : Result) :
  outcome (_assemble dmt dsmt sfe mve f (Some t) bcs fcp inverse mat_type sub_mat_type
             options_prefix collect_loops allocate_only) = inr r ->
  match arguments f with
  | [_; _] =>
      (default dmt mat_type = "matfree" -> exists A, t = AnImplicitMatrix A) /\
      (default dmt mat_type <> "matfree" -> exists A, t = AMatrix A)
  | [_] => exists F, t = AFunction F
  | _ => False
  end.
Proof.
  intros H. apply _assemble_ok_prepare in H as (s & H). apply prepare_ok_inv in H.
  destruct (arguments f) as [| test [| trial [| ? ?]]].
  - destruct H as (d & Hd & _). apply setup_scalar_ok in Hd as [_ [=]].
  - destruct H as (d & Hd & _). destruct t; simpl in Hd; try discriminate. eauto.
  - destruct H as (its & H).
    apply setup_mat_ok in H
      as [(Hmat & IM & _ & [[=] | [= ->]]) | (Hmat & A & z & [([=] & _) | (A0 & [= ->] & _)] & _)].
    + split; [eauto |]. apply String.eqb_eq in Hmat. congruence.
    + split; [| eauto]. apply String.eqb_neq in Hmat. congruence.
  - destruct H as (d & Hd & _). apply setup_scalar_ok in Hd as [_ [=]].
Qed.

Lemma supplied_tensor_fits_form_witness :
  outcome ReuseExample.reuse = inr ReuseExample.reused /\
  match arguments Examples.bilinear with
  | [_; _] =>
      (default "aij" None = "matfree" -> exists A, AMatrix Examples.A11 = AnImplicitMatrix A) /\
      (default "aij" None <> "matfree" -> exists A, AMatrix Examples.A11 = AMatrix A)
  | [_] => exists F, AMatrix Examples.A11 = AFunction F
  | _ => False
  end.
Proof.
  assert (Hok : outcome ReuseExample.reuse = inr ReuseExample.reused)
    by (vm_compute; reflexivity).
  split; [exact Hok |].
  exact (supplied_tensor_fits_form "aij" "baij" Examples.no_error Examples.no_error
           Examples.bilinear (AMatrix Examples.A11) (Some [ReuseExample.bc_V]) None false None
           None None false false ReuseExample.reused Hok).
Defined.

(** ** Block-sparse storage *)

Lemma tuple_ne_false a b : tuple_ne a b = false -> a = b.
Proof.
  unfold tuple_ne. intros H. apply negb_false_iff, andb_true_iff in H as [H1 H2].
  apply Nat.eqb_eq in H1, H2. destruct a, b. simpl in *. congruence.
Qed.

Lemma setup_mat_baij sfe f test trial tensor bcs inverse sub_mat_type
    options_prefix integral_types collect_loops allocate_only s :
  outcome (setup_mat sfe f test trial tensor bcs inverse "baij" sub_mat_type
             options_prefix integral_types collect_loops allocate_only) = inr s ->
  exists A z,
    block_shape A = (1, 1) /\
    s = if allocate_only then inl (RMatrix (set_assembly_callback A cb_None))
        else inr (DestMat test trial A, z).
Proof.
  unfold setup_mat. change (String.eqb "baij" "matfree") with false. cbv iota.
  intros H. apply bind_ok_inv in H as ([A z] & _ & H). simpl fst in H. simpl snd in H.
  exists A, z.
  change (String.eqb "baij" "baij") with true in H. rewrite andb_true_r in H.
  destruct (tuple_ne (block_shape A) (1, 1)) eqn:Hne; [discriminate |].
  split; [now apply tuple_ne_false |].
  destruct allocate_only; simpl in H; congruence.
Qed.

Lemma thunk_result mve f kernels dest z cl ids bcs r :
  outcome (thunk mve f kernels dest z cl ids bcs) = inr r -> r = result dest.
Proof.
  rewrite thunk_eq. intros H.
  apply bind_ok_inv in H as ([] & _ & H).
  apply bind_ok_inv in H as ([] & _ & H).
  now apply after_kernels_result in H.
Qed.

(** X3.  A matrix returned by [_assemble] for the matrix type "baij"
    has a single block: the BAIJ type is refused for a matrix of mixed
    spaces, supplied or newly allocated. *)
Theorem baij_matrix_has_one_block
    (dmt dsmt : string) (sfe : SparsityRequest -> bool) (mve : ParLoopCall -> bool)
    (f : Form) (tensor : option Tensor) (bcs : option (list DirichletBC))
    (fcp : option (gmap string string)) (inverse : bool) (mat_type sub_mat_type : option string)
    (options_prefix : option string) (collect_loops allocate_only : bool) (A : Matrix) :
  default dmt mat_type = "baij" ->
  outcome (_assemble dmt dsmt sfe mve f tensor bcs fcp inverse mat_type sub_mat_type
             options_prefix collect_loops allocate_only) = inr (RMatrix A) ->
  block_shape A = (1, 1).
Proof.
  intros Hbaij H. unfold _assemble in H.
  apply bind_ok_inv in H as (s & Hs & H). apply prepare_ok_inv in Hs.
  assert (Hother : forall d,
    (s = inr (DestScalar, d) \/ exists test F, s = inr (DestVec test F, d)) -> False).
  { intros d Hd.
    assert (Hdest : exists dest, s = inr (dest, d) /\ forall A0, result dest <> RMatrix A0).
    { destruct Hd as [-> | (test & F & ->)]; eexists; (split; [reflexivity |]); discriminate. }
    destruct Hdest as (dest & -> & Hres). cbv beta iota in H.
    rewrite (bind_silent _ _ (silent_all_integer_subdomain_ids _)) in H.
    destruct (outcome (all_integer_subdomain_ids _)); [discriminate |].
    destruct collect_loops.
    - apply bind_ok_inv in H as (l & _ & H). discriminate.
    - destruct dest; try (apply thunk_result in H; now apply (Hres A)).
      now apply (Hres result_matrix). }
  destruct (arguments f) as [| test [| trial [| ? ?]]].
  - destruct Hs as (d & Hd & ->). apply setup_scalar_ok in Hd as [-> _].
    exfalso. apply (Hother zero_noop). now left.
  - destruct Hs as (d & Hd & ->). apply setup_vec_ok in Hd as (F & ->).
    exfalso. eapply Hother. right. eauto.
  - destruct Hs as (its & Hs). rewrite Hbaij in Hs.
    apply setup_mat_baij in Hs as (A0 & z & Hshape & ->).
    destruct allocate_only.
    + injection H as <-. exact Hshape.
    + cbv beta iota in H.
      rewrite (bind_silent _ _ (silent_all_integer_subdomain_ids _)) in H.
      destruct (outcome (all_integer_subdomain_ids _)); [discriminate |].
      destruct collect_loops.
      * apply bind_ok_inv in H as (l & _ & H). discriminate.
      * injection H as <-. exact Hshape.
  - destruct Hs as (d & Hd & ->). apply setup_scalar_ok in Hd as [-> _].
    exfalso. apply (Hother zero_noop). now left.
Qed.

Lemma baij_matrix_has_one_block_witness :
  exists A,
    outcome (_assemble "aij" "baij" Examples.no_error Examples.no_error Examples.bilinear
               None None None false (Some "baij") None None false false) = inr (RMatrix A) /\
    block_shape A = (1, 1).
Proof.
  eexists. split; [vm_compute; reflexivity |].
  eapply (baij_matrix_has_one_block "aij" "baij" Examples.no_error Examples.no_error
            Examples.bilinear None None None false (Some "baij") None None false false).
  - reflexivity.
  - vm_compute. reflexivity.
Defined.

(** ** [allocate_matrix] *)

(** X4.  [allocate_matrix] on a 2-form only prepares: its log holds
    mesh initialisation, compilation and allocation and nothing else (no
    zeroing, accumulation, boundary condition or finalisation).  What it
    returns is, for the matrix-free type, the implicit matrix of the form
    and the boundary conditions, and otherwise a newly allocated matrix
    for the form and the boundary conditions, whose assembly callback is
    [None], so that calling it raises. *)
Theorem allocate_matrix_only_prepares
    (dmt dsmt : string) (sfe : SparsityRequest -> bool) (mve : ParLoopCall -> bool)
    (f : Form) (bcs : option (list DirichletBC))
    (fcp : option (gmap string string)) (inverse : bool) (mat_type sub_mat_type : option string)
    (options_prefix : option string) (test trial : Argument) (r : Result) :
  arguments f = [test; trial] ->
  outcome (allocate_matrix dmt dsmt sfe mve f bcs fcp inverse mat_type sub_mat_type
             options_prefix) = inr r ->
  quiet setup_event (allocate_matrix dmt dsmt sfe mve f bcs fcp inverse mat_type sub_mat_type
                       options_prefix) /\
  ((default dmt mat_type = "matfree" /\ r = RImplicitMatrix (mkImplicit f bcs)) \/
   (default dmt mat_type <> "matfree" /\
    exists A,
      r = RMatrix A /\ mat_a A = f /\ mat_bcs A = bcs /\
      _assembly_callback A = cb_None /\
      forall bcs', exists e, call_assembly_callback mve A bcs' = ([], inl e))).
Proof.
  intros Hargs H. unfold allocate_matrix in *. unfold _assemble in *.
  split.
  { apply quiet_bind; [apply quiet_prepare |]. intros s Hs.
    apply prepare_ok_inv in Hs. rewrite Hargs in Hs. destruct Hs as (its & Hs).
    apply setup_mat_ok in Hs as [(_ & IM & -> & _) | (_ & A & z & _ & ->)]; apply quiet_ret. }
  apply bind_ok_inv in H as (s & Hs & H).
  apply prepare_ok_inv in Hs. rewrite Hargs in Hs. destruct Hs as (its & Hs).
  pose proof Hs as Hs'.
  apply setup_mat_ok in Hs as [(Hmat & IM & -> & [_ | [=]]) | (Hmat & A & z & Htensor & ->)].
  - left. apply String.eqb_eq in Hmat. split; [exact Hmat |].
    unfold setup_mat in Hs'. rewrite Hmat in Hs'. change (String.eqb "matfree" "matfree") with true in Hs'.
    cbv iota in Hs'. destruct inverse; [discriminate |]. simpl in Hs'. simpl in H. congruence.
  - right. apply String.eqb_neq in Hmat. split; [exact Hmat |].
    destruct Htensor as [(_ & _ & request & ->) | (A0 & [=] & _)].
    exists (set_assembly_callback (new_Matrix f bcs request) cb_None).
    simpl in H. injection H as <-.
    split; [reflexivity |]. split; [reflexivity |]. split; [reflexivity |].
    split; [reflexivity |]. intros bcs'. eexists. reflexivity.
Qed.

Lemma allocate_matrix_only_prepares_witness :
  exists r,
    outcome (allocate_matrix "aij" "baij" Examples.no_error Examples.no_error
               Examples.bilinear None None false None None None) = inr r /\
    exists A, r = RMatrix A /\ _assembly_callback A = cb_None.
Proof.
  eexists. split; [vm_compute; reflexivity |].
  destruct (allocate_matrix_only_prepares "aij" "baij" Examples.no_error Examples.no_error
              Examples.bilinear None None false None None None
              (Examples.arg Examples.V) (Examples.arg Examples.V) _ eq_refl eq_refl)
    as [_ [[Hmat _] | (_ & A & HA & _ & _ & Hcb & _)]].
  - discriminate Hmat.
  - exists A. split; [exact HA | exact Hcb].
Defined.

(** X5.  [allocate_matrix] on a form that is not a 2-form does not stop
    at allocation: [allocate_only] is looked at in the branch of a 2-form
    only, so the call is a full assembly of the form into a new tensor. *)
Theorem allocate_matrix_assembles_other_ranks
    (dmt dsmt : string) (sfe : SparsityRequest -> bool) (mve : ParLoopCall -> bool)
    (f : Form) (bcs : option (list DirichletBC))
    (fcp : option (gmap string string)) (inverse : bool) (mat_type sub_mat_type : option string)
    (options_prefix : option string) :
  length (arguments f) <> 2 ->
  allocate_matrix dmt dsmt sfe mve f bcs fcp inverse mat_type sub_mat_type options_prefix
  = _assemble dmt dsmt sfe mve f None bcs fcp inverse mat_type sub_mat_type options_prefix
      false false.
Proof.
  intros Hrank. unfold allocate_matrix, _assemble, prepare.
  destruct (arguments f) as [| test [| trial [| ? ?]]]; try reflexivity.
  now contradiction Hrank.
Qed.

Lemma allocate_matrix_assembles_other_ranks_witness :
  allocate_matrix "aij" "baij" Examples.no_error Examples.no_error Examples.linear
    None None false None None None
  = _assemble "aij" "baij" Examples.no_error Examples.no_error Examples.linear None
      None None false None None None false false /\
  kernels_run (trace (allocate_matrix "aij" "baij" Examples.no_error Examples.no_error
                        Examples.linear None None false None None None)) = [7].
Proof.
  split; [| vm_compute; reflexivity].
  apply (allocate_matrix_assembles_other_ranks "aij" "baij" Examples.no_error
           Examples.no_error Examples.linear None None false None None None).
  vm_compute. lia.
Defined.

(** ** The iteration regions of the sparsity *)

Lemma sparsity_domains_step (acc : list op2.IterationRegion * list op2.IterationRegion
                                   * list op2.IterationRegion) (it : string) acc' :
  outcome (let '(cell_domains, exterior_facet_domains, interior_facet_domains) := acc in
           if String.eqb it "cell" then
             ret (cell_domains ++ [op2.ALL], exterior_facet_domains, interior_facet_domains)
           else if String.eqb it "exterior_facet" then
             ret (cell_domains, exterior_facet_domains ++ [op2.ALL], interior_facet_domains)
           else if String.eqb it "interior_facet" then
             ret (cell_domains, exterior_facet_domains, interior_facet_domains ++ [op2.ALL])
           else if String.eqb it "exterior_facet_bottom" then
             ret (cell_domains ++ [op2.ON_BOTTOM], exterior_facet_domains, interior_facet_domains)
           else if String.eqb it "exterior_facet_top" then
             ret (cell_domains ++ [op2.ON_TOP], exterior_facet_domains, interior_facet_domains)
           else if String.eqb it "exterior_facet_vert" then
             ret (cell_domains, exterior_facet_domains ++ [op2.ALL], interior_facet_domains)
           else if String.eqb it "interior_facet_horiz" then
             ret (cell_domains ++ [op2.ON_INTERIOR_FACETS], exterior_facet_domains,
                  interior_facet_domains)
           else if String.eqb it "interior_facet_vert" then
             ret (cell_domains, exterior_facet_domains, interior_facet_domains ++ [op2.ALL])
           else
             raise ValueError ["Unknown integral type " +:+ dquote +:+ it +:+ dquote])
  = inr acc' ->
  recognised it = true /\
  acc' = (fst (fst acc) ++ option_list (cell_region it),
          snd (fst acc) ++ option_list (exterior_facet_region it),
          snd acc ++ option_list (interior_facet_region it)).
Proof.
  destruct acc as [[c e] i].
  unfold recognised, cell_region, exterior_facet_region, interior_facet_region, str_in.
  simpl existsb. simpl fst. simpl snd.
  repeat match goal with
         | |- context [if String.eqb it ?s then _ else _] =>
             destruct (String.eqb_spec it s) as [-> | ?]
         end;
    simpl; intros [= <-]; rewrite ?app_nil_r; auto.
Qed.

Lemma sparsity_domains_from its :
  forall acc d,
    outcome (for_fold its acc (fun acc integral_type =>
      let '(cell_domains, exterior_facet_domains, interior_facet_domains) := acc in
      if String.eqb integral_type "cell" then
        ret (cell_domains ++ [op2.ALL], exterior_facet_domains, interior_facet_domains)
      else if String.eqb integral_type "exterior_facet" then
        ret (cell_domains, exterior_facet_domains ++ [op2.ALL], interior_facet_domains)
      else if String.eqb integral_type "interior_facet" then
        ret (cell_domains, exterior_facet_domains, interior_facet_domains ++ [op2.ALL])
      else if String.eqb integral_type "exterior_facet_bottom" then
        ret (cell_domains ++ [op2.ON_BOTTOM], exterior_facet_domains, interior_facet_domains)
      else if String.eqb integral_type "exterior_facet_top" then
        ret (cell_domains ++ [op2.ON_TOP], exterior_facet_domains, interior_facet_domains)
      else if String.eqb integral_type "exterior_facet_vert" then
        ret (cell_domains, exterior_facet_domains ++ [op2.ALL], interior_facet_domains)
      else if String.eqb integral_type "interior_facet_horiz" then
        ret (cell_domains ++ [op2.ON_INTERIOR_FACETS], exterior_facet_domains,
             interior_facet_domains)
      else if String.eqb integral_type "interior_facet_vert" then
        ret (cell_domains, exterior_facet_domains, interior_facet_domains ++ [op2.ALL])
      else
        raise ValueError ["Unknown integral type " +:+ dquote +:+ integral_type +:+ dquote]))
    = inr d ->
    forallb recognised its = true /\
    d = (fst (fst acc) ++ omap cell_region its,
         snd (fst acc) ++ omap exterior_facet_region its,
         snd acc ++ omap interior_facet_region its).
Proof.
  induction its as [| it its IH]; intros acc d H.
  - simpl in H. injection H as <-. simpl. rewrite !app_nil_r. now destruct acc as [[? ?] ?].
  - simpl for_fold in H. apply bind_ok_inv in H as (acc' & Hstep & H).
    apply sparsity_domains_step in Hstep as [Hrec ->].
    apply IH in H as [Hall ->]. simpl fst. simpl snd.
    split; [simpl; now rewrite Hrec, Hall |].
    rewrite <- !app_assoc. simpl omap.
    now destruct (cell_region it), (exterior_facet_region it), (interior_facet_region it).
Qed.

(** X6.  Planning the sparsity succeeds exactly when every integral
    kind of the form is one of the eight the assembler knows, and then
    each integral has added exactly one region, in the order of the
    integrals: to the cell maps for a cell integral (everywhere) and for
    the horizontal facets of an extruded mesh (bottom, top, interior
    horizontal), and the region "everywhere" to the exterior-facet maps
    or to the interior-facet maps for the other facet integrals. *)
Theorem sparsity_domains_by_kind (integral_types : list string) :
  (forallb recognised integral_types = true <->
   exists d, outcome (sparsity_domains integral_types) = inr d) /\
  forall d,
    outcome (sparsity_domains integral_types) = inr d ->
    d = (omap cell_region integral_types,
         omap exterior_facet_region integral_types,
         omap interior_facet_region integral_types) /\
    length (fst (fst d)) + length (snd (fst d)) + length (snd d) = length integral_types.
Proof.
  split.
  - split.
    + intros H. destruct (sparsity_domains_ok _ H) as (d & ->). now exists d.
    + intros (d & H). now apply sparsity_domains_from in H.
  - intros d H. unfold sparsity_domains in H. apply sparsity_domains_from in H as [Hall ->].
    simpl. split; [reflexivity |].
    clear -Hall. induction integral_types as [| it its IH]; [reflexivity |].
    simpl in Hall. apply andb_true_iff in Hall as [Hit Hall]. specialize (IH Hall).
    simpl omap. simpl length.
    assert (Hone : length (option_list (cell_region it))
                   + length (option_list (exterior_facet_region it))
                   + length (option_list (interior_facet_region it)) = 1).
    { clear -Hit. revert Hit.
      unfold recognised, cell_region, exterior_facet_region, interior_facet_region, str_in.
      simpl existsb.
      repeat match goal with
             | |- context [String.eqb it ?s] =>
                 destruct (String.eqb_spec it s) as [-> | ?]
             end; simpl; intros Hit; try reflexivity; discriminate. }
    destruct (cell_region it), (exterior_facet_region it), (interior_facet_region it);
      cbv [omap] in *; simpl in *; lia.
Qed.

(** ** Boundary conditions of a block *)

Lemma matching_bcs_fold i j l :
  forall acc r,
    outcome (for_fold l acc (fun acc bc =>
               let fs := bc_function_space bc in
               fs <- match fs_component fs with
                     | Some _ =>
                         match fs_parent fs with
                         | Some p => ret p
                         | None => raise AttributeError ["'NoneType' object has no attribute 'index'"]
                         end
                     | None => ret fs
                     end ;;
               let tsbc := if bool_decide (fs_index fs = Some i) then fst acc ++ [bc] else fst acc in
               let trbc := if bool_decide (fs_index fs = Some j) then snd acc ++ [bc] else snd acc in
               ret (tsbc, trbc))) = inr r ->
    r = (fst acc ++ List.filter (owned_by i) l, snd acc ++ List.filter (owned_by j) l) /\
    Forall component_has_parent l.
Proof.
  induction l as [| bc l IH]; intros acc r H.
  - simpl in H. injection H as <-. simpl. rewrite !app_nil_r. split; [now destruct acc | constructor].
  - simpl for_fold in H. apply bind_ok_inv in H as (acc' & Hstep & H).
    apply bind_ok_inv in Hstep as (fs & Hfs & Hstep). simpl in Hstep. injection Hstep as <-.
    apply IH in H as [-> Hall]. simpl fst. simpl snd.
    assert (Hown : fs_index fs = owning_index (bc_function_space bc) /\ component_has_parent bc).
    { unfold owning_index, component_has_parent.
      destruct (fs_component (bc_function_space bc)) as [c |].
      - destruct (fs_parent (bc_function_space bc)) as [p |]; [| discriminate].
        injection Hfs as <-. split; [reflexivity | eauto].
      - injection Hfs as <-. split; [reflexivity |]. intros [? [=]]. }
    destruct Hown as [Hown Hparent]. split; [| now constructor].
    assert (Hi : forall n, owned_by n bc = bool_decide (fs_index fs = Some n))
      by (intros n; unfold owned_by; now rewrite Hown).
    simpl List.filter. rewrite !Hi.
    destruct (bool_decide (fs_index fs = Some i)), (bool_decide (fs_index fs = Some j));
      now rewrite <- ?app_assoc.
Qed.

(** What [matching_bcs] returns: for a matrix of more than one block,
    the boundary conditions whose space (or the parent of a component
    space) has mixed index [i], and those of index [j], in the order
    given, the boundary conditions being a list; for a matrix of one
    block, all boundary conditions twice. *)
Lemma matching_bcs_by_index
    (shape : nat * nat) (i j : nat) (bcs tsbc trbc : option (list DirichletBC)) :
  outcome (matching_bcs shape i j bcs) = inr (tsbc, trbc) ->
  if tuple_gt shape (1, 1) then
    exists l,
      bcs = Some l /\
      tsbc = Some (List.filter (owned_by i) l) /\
      trbc = Some (List.filter (owned_by j) l) /\
      Forall component_has_parent l
  else tsbc = bcs /\ trbc = bcs.
Proof.
  unfold matching_bcs. destruct (tuple_gt shape (1, 1)).
  - destruct bcs as [l |]; [| discriminate]. intros H.
    apply bind_ok_inv in H as (r & Hr & H).
    apply matching_bcs_fold in Hr as [-> Hall]. simpl in H. injection H as <- <-.
    exists l. auto.
  - now intros [= <- <-].
Qed.

Lemma sparsity_domains_by_kind_witness :
  outcome (sparsity_domains ["cell"; "exterior_facet_top"; "interior_facet"])
  = inr ([op2.ALL; op2.ON_TOP], [], [op2.ALL]) /\
  ([op2.ALL; op2.ON_TOP], [], [op2.ALL])
  = (omap cell_region ["cell"; "exterior_facet_top"; "interior_facet"],
     omap exterior_facet_region ["cell"; "exterior_facet_top"; "interior_facet"],
     omap interior_facet_region ["cell"; "exterior_facet_top"; "interior_facet"]) /\
  length (fst (fst ([op2.ALL; op2.ON_TOP], @nil op2.IterationRegion, [op2.ALL])))
  + length (snd (fst ([op2.ALL; op2.ON_TOP], @nil op2.IterationRegion, [op2.ALL])))
  + length (snd ([op2.ALL; op2.ON_TOP], @nil op2.IterationRegion, [op2.ALL]))
  = length ["cell"; "exterior_facet_top"; "interior_facet"].
Proof.
  split; [vm_compute; reflexivity |].
  apply (proj2 (sparsity_domains_by_kind ["cell"; "exterior_facet_top"; "interior_facet"])).
  vm_compute. reflexivity.
Defined.

(** ** The parallel loop of a kernel *)

Lemma kernel_context_indices f dest bcs k m sdata ij bb :
  outcome (kernel_context f dest bcs k) = inr (m, sdata, ij, bb) ->
  match dest with
  | DestMat _ _ _ => indices k = [fst ij; snd ij]
  | DestVec _ _ => indices k = [fst ij]
  | DestScalar => indices k = []
  end.
Proof.
  unfold kernel_context. intros H.
  apply bind_ok_inv in H as (m' & _ & H).
  apply bind_ok_inv in H as (d & _ & H).
  apply bind_ok_inv in H as (ij' & Hij & H).
  assert (ij' = ij) as ->.
  { destruct (negb _ && _); [discriminate |].
    apply bind_ok_inv in H as (bb' & _ & H). simpl in H. congruence. }
  destruct dest, (indices k) as [| i [| j [| ? ?]]]; simpl in Hij; try discriminate;
    injection Hij as <-; reflexivity.
Qed.

Lemma mat_ok test trial A tm trm i j a :
  outcome (mat test trial A tm trm i j) = inr a ->
  exists maps, a = MatArg i j op2.INC maps /\
               i < fst (block_shape A) /\ j < snd (block_shape A).
Proof.
  unfold mat. intros H.
  apply bind_ok_inv in H as (si & _ & H). apply bind_ok_inv in H as (sj & _ & H).
  destruct (i <? fst (block_shape A)) eqn:Hi; [| discriminate].
  destruct (j <? snd (block_shape A)) eqn:Hj; [| discriminate].
  simpl in H. injection H as <-. apply Nat.ltb_lt in Hi, Hj. eauto.
Qed.

Lemma vec_ok test F tm i a :
  outcome (vec test F tm i) = inr a ->
  exists m, a = VecArg i op2.INC m /\ i < fs_len (fn_function_space F).
Proof.
  unfold vec. intros H. apply bind_ok_inv in H as (si & _ & H).
  destruct (i <? fs_len (fn_function_space F)) eqn:Hi; [| discriminate].
  simpl in H. injection H as <-. apply Nat.ltb_lt in Hi. eauto.
Qed.

Lemma for_fold_extends {A B} (l : list A) (body : list B -> A -> M (list B)) :
  (forall acc x acc', outcome (body acc x) = inr acc' -> exists more, acc' = acc ++ more) ->
  forall acc acc', outcome (for_fold l acc body) = inr acc' -> exists more, acc' = acc ++ more.
Proof.
  intros Hbody. induction l as [| x l IH]; intros acc acc' H.
  - simpl in H. injection H as <-. exists []. now rewrite app_nil_r.
  - simpl in H. apply bind_ok_inv in H as (acc1 & H1 & H).
    apply Hbody in H1 as (more1 & ->). apply IH in H as (more & ->).
    exists (more1 ++ more). now rewrite app_assoc.
Qed.

Lemma output_arg_ok dest (idx : list nat) (ij : nat * nat)
    (tm trm vm : Mappable -> MapVal) a :
  match dest with
  | DestMat _ _ _ => idx = [fst ij; snd ij]
  | DestVec _ _ => idx = [fst ij]
  | DestScalar => idx = []
  end ->
  outcome match dest with
          | DestMat test trial result_matrix =>
              mat test trial result_matrix tm trm (fst ij) (snd ij)
          | DestVec test result_function => vec test result_function vm (fst ij)
          | DestScalar => ret (GlobalArg op2.INC)
          end = inr a ->
  output_arg dest idx a.
Proof.
  destruct dest as [test trial A | test F |]; intros Hidx H.
  - apply mat_ok in H as (maps & -> & Hi & Hj). simpl. auto.
  - apply vec_ok in H as (mp & -> & Hi). simpl. auto.
  - simpl in H. injection H as <-. exact Hidx.
Qed.

Lemma coefficient_args_extend (f : Form) (g : DataCarrier -> MapVal) (l : list nat) :
  forall args args',
    outcome (for_fold l args (fun args n =>
               c <- list_index (coefficients f) n ;;
               for_fold (coef_split c) args (fun args c_ =>
                 ret (args ++ [DatArg (dat_name c_) op2.READ (g c_)])))) = inr args' ->
    exists more, args' = args ++ more.
Proof.
  apply for_fold_extends. intros acc n acc' H.
  apply bind_ok_inv in H as (c & _ & H). revert acc acc' H.
  apply for_fold_extends. intros acc c_ acc' H. simpl in H. injection H as <-. eauto.
Qed.

Lemma kernel_step_call_shape mve f dest cl ids bcs k c call :
  In (EvParLoop c call) (trace (kernel_step mve f dest cl ids bcs k)) ->
  exists m sdata ij bb,
    outcome (kernel_context f dest bcs k) = inr (m, sdata, ij, bb) /\
    call_shape mve dest cl k m sdata c call.
Proof.
  unfold kernel_step.
  rewrite (bind_silent _ _ (silent_kernel_context f dest bcs k)).
  destruct (outcome (kernel_context f dest bcs k)) as [e | [[[m sdata] ij] bb]] eqn:Hctx;
    [simpl; contradiction |].
  intros Hin. exists m, sdata, ij, bb. split; [reflexivity |]. revert Hin.
  pose proof (kernel_context_ok _ _ _ _ _ _ _ _ Hctx) as (_ & _ & Hsd).
  pose proof (kernel_context_indices _ _ _ _ _ _ _ _ Hctx) as Hidx.
  clear Hctx.
  unfold measure_set.
  destruct (entity_set m (integral_type (kinfo k))) as [es |]; [| simpl; contradiction].
  rewrite bind_ret. unfold str_in. simpl existsb.
  repeat first
    [ progress (rewrite ?bind_ret, ?bind_raise; cbv beta iota zeta)
    | match goal with
      | |- In _ (trace (raise _ _)) -> _ => simpl; contradiction
      | |- context [String.eqb (integral_type (kinfo k)) ?s] =>
          let E := fresh "Ekind" in
          destruct (String.eqb_spec (integral_type (kinfo k)) s) as [E | E];
          [rewrite E in *; simpl (String.eqb _ _) |]
      | |- context [(false || ?b)%bool] => change (false || b)%bool with b
      | |- context [(true || ?b)%bool] => change (true || b)%bool with true
      | |- In _ (trace (bind (if ?b then _ else _) _)) -> _ => destruct b eqn:?
      | |- In _ (trace (bind ?c _)) -> _ =>
          rewrite (bind_silent c) by (silent; auto with silent);
          let a := fresh "a" in destruct (outcome c) as [? | a] eqn:?; [simpl; contradiction |]
      | |- In _ (trace (if ?b then _ else _)) -> _ => destruct b eqn:?
      end ].
  all: intros Hin; simpl in Hin; destruct Hin as [Hin | [Hin | []]]; [| discriminate];
    injection Hin as <- <-.
  all: match goal with
       | H : outcome (match ?d with _ => _ end) = inr _ |- _ =>
           apply (output_arg_ok _ _ _ _ _ _ _ Hidx) in H; rename H into Hout
       end.
  all: try match goal with
           | H : outcome (bind (map_index _ _) _) = inr _ |- _ =>
               apply bind_ok_inv in H as (? & _ & H); simpl in H; injection H as <-
           end.
  all: match goal with
       | H : outcome (for_fold _ _ _) = inr _ |- _ =>
           apply (coefficient_args_extend f (fun c_ => _)) in H as (more & ->)
       end.
  all: constructor; cbn [pl_kernel pl_args pl_iterate pl_pass_layer_arg];
    unfold trailing_args;
    repeat match goal with E : integral_type _ = _ |- _ => rewrite E in * end;
    try reflexivity;
    try match goal with H : ?g _ = false |- ?g _ = false => exact H end;
    try (intros Hfacets; first [reflexivity | congruence]).
  all: try (intros Hdata; specialize (Hsd Hdata); discriminate Hsd).
  all: try (intros Hdata; split; [reflexivity |];
            destruct sdata as [s |]; [| congruence];
            match goal with
            | H : negb ?b && _ = false |- ?b = true =>
                rewrite (bool_decide_eq_true_2 _ (mk_is_Some (Some s) s eq_refl)) in H;
                rewrite andb_true_r in H; apply negb_false_iff in H; exact H
            end).
  all: try (eexists _, _, _; split; [exact Hout | reflexivity]).
  all: repeat match goal with
              | H : needs_cell_facets _ = _ |- _ => rewrite H
              end;
    match goal with |- exists pre, ?x ++ ?e = _ => exists x; reflexivity end.
Qed.

Lemma for_trace_In {A} (l : list A) body ev :
  In ev (trace (for_ l body)) -> exists x, In x l /\ In ev (trace (body x)).
Proof.
  induction l as [| x l IH]; simpl for_; [intros [] |].
  rewrite trace_bind, in_app_iff. intros [H | H].
  - exists x. split; [now left | exact H].
  - destruct (outcome (body x)); [destruct H |].
    destruct (IH H) as (y & Hy & Hev). exists y. split; [now right | exact Hev].
Qed.

(** Every parallel loop in the log of a run of the thunk was issued by
    the pass of one of its kernels. *)
Lemma thunk_par_loop mve f kernels dest z cl ids bcs c call :
  In (EvParLoop c call) (trace (thunk mve f kernels dest z cl ids bcs)) ->
  exists k, In k kernels /\
            In (EvParLoop c call) (trace (kernel_step mve f dest cl ids bcs k)).
Proof.
  rewrite thunk_eq, trace_bind, in_app_iff. intros [H | H].
  - destruct z, cl; simpl in H; intuition discriminate.
  - rewrite zero_step_ok in H. rewrite trace_bind, in_app_iff in H. destruct H as [H | H].
    + now apply for_trace_In in H.
    + destruct (outcome (for_ kernels _)); [destruct H |].
      pose proof (quiet_after_kernels dest cl bcs) as Hq. unfold quiet in Hq.
      rewrite List.Forall_forall in Hq. destruct (Hq _ H).
Qed.

Lemma thunk_call_shape mve f kernels dest z cl ids bcs c call :
  In (EvParLoop c call) (trace (thunk mve f kernels dest z cl ids bcs)) ->
  exists k m d,
    In k kernels /\
    ufl_domains f !! domain_number (kinfo k) = Some m /\
    subdomain_data f !! mesh_id m = Some d /\
    call_shape mve dest cl k m (mjoin (d !! integral_type (kinfo k))) c call.
Proof.
  intros H. apply thunk_par_loop in H as (k & Hk & H).
  apply kernel_step_call_shape in H as (m & sdata & ij & bb & Hctx & Hshape).
  apply kernel_context_ok in Hctx as (Hm & (d & Hd & ->) & _).
  exists k, m, d. auto.
Qed.

(** X8.  Every parallel loop in the log of a run of the thunk is the
    loop of one of the kernels of the run, was issued in the mode of the
    run (executed, or collected), and is one PyOP2 accepted: a loop whose
    maps do not match its iteration set raises and is neither executed
    nor collected. *)
Theorem issued_loops_were_accepted
    (mve : ParLoopCall -> bool) (f : Form) (kernels : list SplitKernel) (dest : Dest)
    (z : ZeroTensor) (collect_loops : bool) (ids : gmap string (list SubdomainId))
    (bcs : option (list DirichletBC)) (c : bool) (call : ParLoopCall) :
  In (EvParLoop c call) (trace (thunk mve f kernels dest z collect_loops ids bcs)) ->
  c = collect_loops /\ mve call = false /\
  exists k, In k kernels /\ pl_kernel call = kernel (kinfo k) /\
            pl_pass_layer_arg call = pass_layer_arg (kinfo k).
Proof.
  intros H. apply thunk_call_shape in H as (k & m & d & Hk & _ & _ & Hshape).
  destruct Hshape as [Hflag Hacc Hker Hlay Hkind Hiter Hdata Hargs Htrail Hcf]. repeat split; try assumption. exists k. auto.
Qed.

Lemma issued_loops_were_accepted_witness :
  false = false /\ Examples.no_error SubdomainExample.otherwise_call = false /\
  exists k, In k (compiled_kernels SubdomainExample.tagged) /\
            pl_kernel SubdomainExample.otherwise_call = kernel (kinfo k) /\
            pl_pass_layer_arg SubdomainExample.otherwise_call = pass_layer_arg (kinfo k).
Proof.
  apply (issued_loops_were_accepted Examples.no_error SubdomainExample.tagged
           (compiled_kernels SubdomainExample.tagged)
           (DestVec (Examples.arg Examples.V) (mkFunction Examples.V)) zero_noop false
           SubdomainExample.tagged_ids None false SubdomainExample.otherwise_call).
  vm_compute. right. right. left. reflexivity.
Defined.

(** X9.  In every parallel loop of a run of the thunk, the first
    argument increments the destination: the block of the matrix or of
    the function that the indices of the kernel name, which exists, or
    the global of a 0-form; the second argument reads the coordinates of
    the mesh of the kernel. *)
Theorem loop_writes_block_of_kernel
    (mve : ParLoopCall -> bool) (f : Form) (kernels : list SplitKernel) (dest : Dest)
    (z : ZeroTensor) (collect_loops : bool) (ids : gmap string (list SubdomainId))
    (bcs : option (list DirichletBC)) (c : bool) (call : ParLoopCall) :
  In (EvParLoop c call) (trace (thunk mve f kernels dest z collect_loops ids bcs)) ->
  exists k m out cmap rest,
    In k kernels /\ pl_kernel call = kernel (kinfo k) /\
    ufl_domains f !! domain_number (kinfo k) = Some m /\
    output_arg dest (indices k) out /\
    pl_args call = out :: DatArg (dat_name (coordinates m)) op2.READ cmap :: rest.
Proof.
  intros H. apply thunk_call_shape in H as (k & m & d & Hk & Hm & _ & Hshape).
  destruct Hshape as [Hflag Hacc Hker Hlay Hkind Hiter Hdata Hargs Htrail Hcf]. destruct Hargs as (out & cmap & rest & Hout & Hargs).
  exists k, m, out, cmap, rest. auto.
Qed.

Lemma loop_writes_block_of_kernel_witness :
  exists k m out cmap rest,
    In k (compiled_kernels SubdomainExample.tagged) /\
    pl_kernel SubdomainExample.otherwise_call = kernel (kinfo k) /\
    ufl_domains SubdomainExample.tagged !! domain_number (kinfo k) = Some m /\
    output_arg (DestVec (Examples.arg Examples.V) (mkFunction Examples.V)) (indices k) out /\
    pl_args SubdomainExample.otherwise_call
    = out :: DatArg (dat_name (coordinates m)) op2.READ cmap :: rest.
Proof.
  apply (loop_writes_block_of_kernel Examples.no_error SubdomainExample.tagged
           (compiled_kernels SubdomainExample.tagged)
           (DestVec (Examples.arg Examples.V) (mkFunction Examples.V)) zero_noop false
           SubdomainExample.tagged_ids None false SubdomainExample.otherwise_call).
  vm_compute. right. right. left. reflexivity.
Defined.

(** X10.  Every parallel loop of a run of the thunk is for a kernel of
    one of the eight integral kinds the assembler knows, and its kind
    fixes how it iterates: the loops of the top, bottom and interior
    horizontal facets of an extruded mesh are restricted to that region
    and the others are not restricted; its arguments end with the local
    facet numbers for an exterior or interior facet integral (vertical
    ones included), then with the cell-to-facet data when the kernel
    needs it, which only a cell kernel may. *)
Theorem loop_iterates_by_kind
    (mve : ParLoopCall -> bool) (f : Form) (kernels : list SplitKernel) (dest : Dest)
    (z : ZeroTensor) (collect_loops : bool) (ids : gmap string (list SubdomainId))
    (bcs : option (list DirichletBC)) (c : bool) (call : ParLoopCall) :
  In (EvParLoop c call) (trace (thunk mve f kernels dest z collect_loops ids bcs)) ->
  exists k m,
    In k kernels /\ pl_kernel call = kernel (kinfo k) /\
    ufl_domains f !! domain_number (kinfo k) = Some m /\
    recognised (integral_type (kinfo k)) = true /\
    pl_iterate call = decoration_of (integral_type (kinfo k)) /\
    (exists pre, pl_args call = pre ++ trailing_args m (kinfo k)) /\
    (needs_cell_facets (kinfo k) = true -> integral_type (kinfo k) = "cell").
Proof.
  intros H. apply thunk_call_shape in H as (k & m & d & Hk & Hm & _ & Hshape).
  destruct Hshape as [Hflag Hacc Hker Hlay Hkind Hiter Hdata Hargs Htrail Hcf]. exists k, m. auto 10.
Qed.

Lemma loop_iterates_by_kind_witness :
  exists k m,
    In k (compiled_kernels SubdomainExample.tagged) /\
    pl_kernel SubdomainExample.otherwise_call = kernel (kinfo k) /\
    ufl_domains SubdomainExample.tagged !! domain_number (kinfo k) = Some m /\
    recognised (integral_type (kinfo k)) = true /\
    pl_iterate SubdomainExample.otherwise_call = decoration_of (integral_type (kinfo k)) /\
    (exists pre, pl_args SubdomainExample.otherwise_call = pre ++ trailing_args m (kinfo k)) /\
    (needs_cell_facets (kinfo k) = true -> integral_type (kinfo k) = "cell").
Proof.
  apply (loop_iterates_by_kind Examples.no_error SubdomainExample.tagged
           (compiled_kernels SubdomainExample.tagged)
           (DestVec (Examples.arg Examples.V) (mkFunction Examples.V)) zero_noop false
           SubdomainExample.tagged_ids None false SubdomainExample.otherwise_call).
  vm_compute. right. right. left. reflexivity.
Defined.

(** X11.  A parallel loop is issued for a kernel whose integral type
    carries subdomain data on the mesh of the kernel only when the kernel
    is a cell kernel whose subdomain identifier is "otherwise" or
    "everywhere": subdomain data with another kind of integral, or with
    an integer subdomain identifier, raises before any loop of the
    kernel. *)
Theorem subdomain_data_only_for_whole_cell_kernels
    (mve : ParLoopCall -> bool) (f : Form) (kernels : list SplitKernel) (dest : Dest)
    (z : ZeroTensor) (collect_loops : bool) (ids : gmap string (list SubdomainId))
    (bcs : option (list DirichletBC)) (c : bool) (call : ParLoopCall) :
  In (EvParLoop c call) (trace (thunk mve f kernels dest z collect_loops ids bcs)) ->
  exists k m d,
    In k kernels /\ pl_kernel call = kernel (kinfo k) /\
    ufl_domains f !! domain_number (kinfo k) = Some m /\
    subdomain_data f !! mesh_id m = Some d /\
    forall s, d !! integral_type (kinfo k) = Some (Some s) ->
      integral_type (kinfo k) = "cell" /\
      (subdomain_id (kinfo k) = otherwise \/ subdomain_id (kinfo k) = everywhere).
Proof.
  intros H. apply thunk_call_shape in H as (k & m & d & Hk & Hm & Hd & Hshape).
  destruct Hshape as [Hflag Hacc Hker Hlay Hkind Hiter Hdata Hargs Htrail Hcf]. exists k, m, d. repeat split; try assumption.
  - rewrite H in Hdata. now apply Hdata.
  - rewrite H in Hdata. destruct Hdata as [_ Hid]; [discriminate |].
    destruct (subdomain_id (kinfo k)); simpl in Hid; [discriminate | now left | now right].
Qed.

Lemma subdomain_data_only_for_whole_cell_kernels_witness :
  exists k m d,
    In k (compiled_kernels SubdomainExample.with_data) /\
    pl_kernel LoopExample.data_call = kernel (kinfo k) /\
    ufl_domains SubdomainExample.with_data !! domain_number (kinfo k) = Some m /\
    subdomain_data SubdomainExample.with_data !! mesh_id m = Some d /\
    forall s, d !! integral_type (kinfo k) = Some (Some s) ->
      integral_type (kinfo k) = "cell" /\
      (subdomain_id (kinfo k) = otherwise \/ subdomain_id (kinfo k) = everywhere).
Proof.
  apply (subdomain_data_only_for_whole_cell_kernels Examples.no_error
           SubdomainExample.with_data (compiled_kernels SubdomainExample.with_data)
           (DestVec (Examples.arg Examples.V) (mkFunction Examples.V)) zero_noop false
           ∅ None false LoopExample.data_call).
  vm_compute. left. reflexivity.
Defined.

(** ** Finalisation *)

Lemma quiet_kernel_loop mve f dest cl ids bcs kernels (P : Event -> Prop) :
  (forall c call, P (EvParLoop c call)) -> (forall call, P (EvLoopsAppend (LParLoop call))) ->
  quiet P (for_ kernels (kernel_step mve f dest cl ids bcs)).
Proof.
  intros Hloop Happend. apply quiet_for. intros k _.
  destruct (kernel_step_spec mve f dest cl ids bcs k) as [(e & ->) | (call & _ & ->)];
    repeat constructor; auto.
Qed.

Lemma quiet_zero_step z cl (P : Event -> Prop) :
  P EvZero -> (forall z, P (EvLoopsAppend (LZeroTensor z))) -> quiet P (zero_step z cl).
Proof. intros Hz Ha. destruct z, cl; repeat constructor; auto. Qed.

(** X12.  A run of the thunk on a matrix that returns has finalised the
    matrix exactly once, as its very last operation; a run that raises,
    and a run on a function or a scalar, never finalises. *)
Theorem matrix_finalised_once_at_end
    (mve : ParLoopCall -> bool) (f : Form) (kernels : list SplitKernel) (dest : Dest)
    (z : ZeroTensor) (collect_loops : bool) (ids : gmap string (list SubdomainId))
    (bcs : option (list DirichletBC)) :
  (forall r,
     is_mat dest = true ->
     outcome (thunk mve f kernels dest z collect_loops ids bcs) = inr r ->
     exists t,
       trace (thunk mve f kernels dest z collect_loops ids bcs)
       = t ++ [EvMatAssemble; EvLoopsAppend LMatAssemble] /\
       Forall not_finalisation t) /\
  (is_mat dest = false \/
   (exists e, outcome (thunk mve f kernels dest z collect_loops ids bcs) = inl e) ->
   Forall not_finalisation (trace (thunk mve f kernels dest z collect_loops ids bcs))).
Proof.
  assert (Hbc : quiet not_finalisation
                  (match bcs, dest with
                   | Some l, DestMat _ _ result_matrix =>
                       for_ l (apply_bc_mat collect_loops (block_shape result_matrix))
                   | _, _ => ret tt
                   end)).
  { unfold apply_bc_mat, bc_block, set_local_diagonal_entries, not_finalisation. quiet.
    all: split; [reflexivity | discriminate]. }
  assert (Hvec : quiet not_finalisation
                   (match bcs, dest with
                    | Some l, DestVec _ _ =>
                        (if (0 <? length l) && collect_loops
                         then raise NotImplementedError ["Loop collection not handled in this case"]
                         else ret tt) ;;;
                        for_ l (fun bc => emit (EvBcApply bc))
                    | _, _ => ret tt
                    end)).
  { unfold not_finalisation. quiet. all: split; [reflexivity | discriminate]. }
  assert (Hpre : Forall not_finalisation
                   (trace (zero_step z collect_loops ;;;
                           for_ kernels (kernel_step mve f dest collect_loops ids bcs)))).
  { apply quiet_bind; [| intros _ _].
    - apply quiet_zero_step; intros; split; (reflexivity || discriminate).
    - apply quiet_kernel_loop; intros; split; (reflexivity || discriminate). }
  rewrite thunk_eq.
  assert (Hassoc : forall (k : M Result),
            (zero_step z collect_loops ;;;
             for_ kernels (kernel_step mve f dest collect_loops ids bcs) ;;; k)
            = ((zero_step z collect_loops ;;;
                for_ kernels (kernel_step mve f dest collect_loops ids bcs)) ;;; k)).
  { intros k. destruct (zero_step z collect_loops) as [t1 [e1 | []]]; [reflexivity |].
    destruct (for_ kernels _) as [t2 [e2 | []]]; simpl; [reflexivity |].
    destruct k as [t3 o3]. now rewrite app_assoc. }
  rewrite Hassoc. clear Hassoc.
  set (pre := (zero_step z collect_loops ;;;
               for_ kernels (kernel_step mve f dest collect_loops ids bcs))) in *.
  unfold after_kernels.
  set (bcm := match bcs, dest with
              | Some l, DestMat _ _ result_matrix =>
                  for_ l (apply_bc_mat collect_loops (block_shape result_matrix))
              | _, _ => ret tt
              end) in *.
  set (bcv := match bcs, dest with
              | Some l, DestVec _ _ => _
              | _, _ => ret tt
              end) in *.
  unfold quiet in Hbc, Hvec.
  rewrite !trace_bind, !outcome_bind.
  destruct (outcome pre) as [e0 | []]; rewrite ?app_nil_r.
  { split; [discriminate | auto]. }
  destruct (outcome bcm) as [e1 | []]; rewrite ?app_nil_r.
  { split; [discriminate |]. intros _. apply Forall_app. auto. }
  destruct (outcome bcv) as [e2 | []]; rewrite ?app_nil_r.
  { split; [discriminate |]. intros _. rewrite !Forall_app. auto. }
  destruct (is_mat dest); simpl.
  - split.
    + intros r _ _. exists (trace pre ++ trace bcm ++ trace bcv).
      split; [now rewrite <- !app_assoc |]. rewrite !Forall_app. auto.
    + intros [[=] | (e & [=])].
  - split; [discriminate |]. intros _. rewrite !app_nil_r, !Forall_app. auto.
Qed.

Lemma matrix_finalised_once_at_end_witness :
  exists t,
    trace (thunk Examples.no_error Examples.bilinear (compiled_kernels Examples.bilinear)
             (DestMat (Examples.arg Examples.V) (Examples.arg Examples.V) Examples.A11)
             tensor_zero false ∅ None)
    = t ++ [EvMatAssemble; EvLoopsAppend LMatAssemble] /\
    Forall not_finalisation t.
Proof.
  apply (proj1 (matrix_finalised_once_at_end Examples.no_error Examples.bilinear
                  (compiled_kernels Examples.bilinear)
                  (DestMat (Examples.arg Examples.V) (Examples.arg Examples.V) Examples.A11)
                  tensor_zero false ∅ None) (RMatrix Examples.A11)).
  - reflexivity.
  - vm_compute. reflexivity.
Defined.

(** ** Collected loops *)

Lemma thunk_vec_collect_bcs mve f kernels test F z ids bc l :
  (exists e, outcome (thunk mve f kernels (DestVec test F) z true ids (Some (bc :: l))) = inl e) /\
  quiet not_bc_apply (thunk mve f kernels (DestVec test F) z true ids (Some (bc :: l))).
Proof.
  assert (Hafter : after_kernels (DestVec test F) true (Some (bc :: l))
                   = raise NotImplementedError ["Loop collection not handled in this case"])
    by reflexivity.
  assert (Hissued : forall calls, Forall not_bc_apply (issued true calls)).
  { induction calls; simpl; repeat constructor; auto. }
  assert (Hzero : Forall not_bc_apply (trace (zero_step z true))) by (repeat constructor).
  unfold quiet.
  destruct (thunk_cases mve f kernels (DestVec test F) z true ids (Some (bc :: l)))
    as (calls & [(_ & _ & Heq) | (e & pre & k & post & _ & _ & _ & _ & Heq)]);
    rewrite Heq, ?Hafter; cbn [trace outcome fst snd raise];
    (split; [eexists; reflexivity |]);
    repeat (apply Forall_app; split); auto.
Qed.

(** X13.  [create_assembly_callable] cannot make a callable for a
    1-form with boundary conditions: unless the matrix type asked for is
    "matfree", the call raises whenever the list of boundary conditions
    is not empty, and no boundary condition has been applied to the
    function. *)
Theorem vector_callable_rejects_bcs
    (dmt dsmt : string) (sfe : SparsityRequest -> bool) (mve : ParLoopCall -> bool)
    (f : Form) (tensor : option Tensor) (bc : DirichletBC) (l : list DirichletBC)
    (fcp : option (gmap string string)) (inverse : bool) (mat_type sub_mat_type : option string)
    (test : Argument) :
  arguments f = [test] ->
  mat_type <> Some "matfree" ->
  (exists e,
     outcome (create_assembly_callable dmt dsmt sfe mve f tensor (Some (bc :: l)) fcp inverse
                mat_type sub_mat_type) = inl e) /\
  bcs_applied (trace (create_assembly_callable dmt dsmt sfe mve f tensor (Some (bc :: l)) fcp
                        inverse mat_type sub_mat_type)) = [].
Proof.
  intros Hargs Hmat. unfold create_assembly_callable.
  destruct tensor as [t |]; [| split; [eexists |]; reflexivity].
  rewrite bool_decide_eq_false_2 by exact Hmat.
  assert (Hquiet : quiet not_bc_apply
            (_assemble dmt dsmt sfe mve f (Some t) (Some (bc :: l)) fcp inverse mat_type
               sub_mat_type None true false) /\
          exists e, outcome (_assemble dmt dsmt sfe mve f (Some t) (Some (bc :: l)) fcp inverse
                               mat_type sub_mat_type None true false) = inl e).
  { unfold _assemble.
    pose proof (quiet_prepare dmt dsmt sfe f (Some t) (Some (bc :: l)) fcp inverse mat_type
                  sub_mat_type None true false) as Hprep.
    assert (Hprep' : quiet not_bc_apply
              (prepare dmt dsmt sfe f (Some t) (Some (bc :: l)) fcp inverse mat_type
                 sub_mat_type None true false)).
    { apply (quiet_weaken setup_event); [| exact Hprep]. intros ev Hev. now destruct ev. }
    split.
    - apply quiet_bind; [exact Hprep' |]. intros s Hs.
      apply prepare_ok_inv in Hs. rewrite Hargs in Hs. destruct Hs as (d & Hd & ->).
      apply setup_vec_ok in Hd as (F & ->).
      apply quiet_bind; [unfold quiet; rewrite (silent_all_integer_subdomain_ids _ : trace _ = []); constructor |].
      intros ids _. apply quiet_bind; [| intros; apply quiet_ret].
      apply quiet_collected. apply thunk_vec_collect_bcs.
    - rewrite outcome_bind.
      destruct (outcome (prepare _ _ _ _ _ _ _ _ _ _ _ _ _)) as [e | s] eqn:Hs; [eauto |].
      apply prepare_ok_inv in Hs. rewrite Hargs in Hs. destruct Hs as (d & Hd & ->).
      apply setup_vec_ok in Hd as (F & ->).
      rewrite outcome_bind.
      destruct (outcome (all_integer_subdomain_ids _)) as [e | ids]; [eauto |].
      rewrite outcome_bind.
      destruct (thunk_vec_collect_bcs mve f (compiled_kernels f) test F tensor_zero ids bc l)
        as [(e & He) _].
      exists e. unfold collected.
      destruct (thunk mve f (compiled_kernels f) (DestVec test F) tensor_zero true ids
                  (Some (bc :: l))) as [tr [e' | r]]; simpl in *; congruence. }
  destruct Hquiet as [Hquiet (e & He)]. split.
  - exists e. now rewrite outcome_bind, He.
  - rewrite trace_bind, He, app_nil_r.
    apply (bcs_applied_none not_bc_apply); [| exact Hquiet].
    intros ev Hev bc0 ->. exact Hev.
Qed.

Lemma vector_callable_rejects_bcs_witness :
  (exists e,
     outcome (create_assembly_callable "aij" "baij" Examples.no_error Examples.no_error
                Examples.linear (Some (AFunction (mkFunction Examples.V)))
                (Some [ReuseExample.bc_V]) None false None None) = inl e) /\
  bcs_applied (trace (create_assembly_callable "aij" "baij" Examples.no_error
                        Examples.no_error Examples.linear
                        (Some (AFunction (mkFunction Examples.V)))
                        (Some [ReuseExample.bc_V]) None false None None)) = [].
Proof.
  apply (vector_callable_rejects_bcs "aij" "baij" Examples.no_error Examples.no_error
           Examples.linear (Some (AFunction (mkFunction Examples.V))) ReuseExample.bc_V []
           None false None None (Examples.arg Examples.V)).
  - reflexivity.
  - discriminate.
Defined.

Lemma loops_of_app t1 t2 : loops_of (t1 ++ t2) = loops_of t1 ++ loops_of t2.
Proof. unfold loops_of. apply omap_app. Qed.

Lemma call_loop_ok l : outcome (call_loop l) = inr tt.
Proof. destruct l as [[] | | |]; reflexivity. Qed.

Lemma call_loops_app l1 l2 :
  trace (for_ (l1 ++ l2) call_loop) = trace (for_ l1 call_loop) ++ trace (for_ l2 call_loop).
Proof.
  induction l1 as [| x l1 IH]; [reflexivity |].
  simpl. rewrite !trace_bind, call_loop_ok, IH. now rewrite app_assoc.
Qed.

Lemma call_loops_ok l : outcome (for_ l call_loop) = inr tt.
Proof. apply for_ok. intros x _. apply call_loop_ok. Qed.

Lemma replays_app t1 t2 : replays t1 -> replays t2 -> replays (t1 ++ t2).
Proof.
  unfold replays. intros H1 H2.
  now rewrite loops_of_app, call_loops_app, List.filter_app, H1, H2.
Qed.

Lemma replays_bind {A B} (c : M A) (k : A -> M B) :
  replays (trace c) -> (forall a, replays (trace (k a))) -> replays (trace (bind c k)).
Proof.
  intros Hc Hk. rewrite trace_bind. apply replays_app; [exact Hc |].
  destruct (outcome c); [reflexivity | apply Hk].
Qed.

Lemma replays_for {A} (l : list A) body :
  (forall x, replays (trace (body x))) -> replays (trace (for_ l body)).
Proof.
  intros H. induction l as [| x l IH]; [reflexivity |].
  simpl. apply replays_bind; [apply H | intros _; exact IH].
Qed.

Ltac replays_step :=
  lazymatch goal with
  | |- replays (trace (bind _ _)) => first [reflexivity | apply replays_bind; [| intros ?]]
  | |- replays (trace (for_ _ _)) => apply replays_for; intros ?
  | |- replays (trace (if ?b then _ else _)) => destruct b
  | |- replays (trace (match ?x with _ => _ end)) => destruct x
  | |- replays (trace _) => reflexivity
  end.

Lemma same_loops_refl {A} (c : M A) : same_loops c c.
Proof. split; reflexivity. Qed.

Lemma same_loops_bind {A B} (c1 c2 : M A) (k1 k2 : A -> M B) :
  same_loops c1 c2 -> (forall a, same_loops (k1 a) (k2 a)) ->
  same_loops (bind c1 k1) (bind c2 k2).
Proof.
  intros [Ht Ho] Hk. unfold same_loops.
  rewrite !trace_bind, !outcome_bind, !loops_of_app, Ht, Ho.
  destruct (outcome c2) as [e | a]; [split; reflexivity |].
  destruct (Hk a) as [Hkt Hko]. now rewrite Hkt, Hko.
Qed.

Lemma same_loops_for {A} (l : list A) (b1 b2 : A -> M unit) :
  (forall x, same_loops (b1 x) (b2 x)) -> same_loops (for_ l b1) (for_ l b2).
Proof.
  intros H. induction l as [| x l IH]; [apply same_loops_refl |].
  simpl. apply same_loops_bind; [apply H | intros _; exact IH].
Qed.

Ltac same_loops_step :=
  lazymatch goal with
  | |- same_loops ?c ?c => apply same_loops_refl
  | |- same_loops (bind ?c _) (bind ?c _) =>
      apply same_loops_bind; [apply same_loops_refl | intros ?; cbv beta]
  | |- same_loops (bind _ _) (bind _ _) => apply same_loops_bind; [| intros ?; cbv beta]
  | |- same_loops (for_ _ _) (for_ _ _) => apply same_loops_for; intros ?; cbv beta
  | |- same_loops (if ?b then _ else _) (if ?b then _ else _) => destruct b
  | |- same_loops (match ?x with _ => _ end) (match ?x with _ => _ end) => destruct x
  | |- same_loops (emit _) (emit _) => split; reflexivity
  end.

(** Collecting a pass of the loop over kernels appends the loop that
    running the pass executes. *)
Lemma same_loops_kernel_step mve f dest ids bcs k :
  same_loops (kernel_step mve f dest true ids bcs k) (kernel_step mve f dest false ids bcs k).
Proof. unfold kernel_step. repeat same_loops_step. Qed.

Lemma same_loops_apply_bc_mat shape bc :
  same_loops (apply_bc_mat true shape bc) (apply_bc_mat false shape bc).
Proof.
  unfold apply_bc_mat, bc_block, set_local_diagonal_entries. repeat same_loops_step.
Qed.

Lemma replays_kernel_step mve f dest ids bcs k :
  replays (trace (kernel_step mve f dest false ids bcs k)).
Proof.
  destruct (kernel_step_spec mve f dest false ids bcs k) as [(e & ->) | (call & _ & ->)];
    reflexivity.
Qed.

Lemma replays_apply_bc_mat shape bc : replays (trace (apply_bc_mat false shape bc)).
Proof. unfold apply_bc_mat, bc_block. repeat replays_step. Qed.

(** What follows the loop over kernels, when it can be collected. *)
Lemma after_kernels_collect dest bcs r :
  outcome (after_kernels dest true bcs) = inr r ->
  same_loops (after_kernels dest true bcs) (after_kernels dest false bcs) /\
  replays (trace (after_kernels dest false bcs)).
Proof.
  intros Hok. destruct dest as [test trial A | test F |].
  - split.
    + unfold after_kernels. destruct bcs; repeat same_loops_step;
        apply same_loops_apply_bc_mat.
    + unfold after_kernels. destruct bcs; repeat replays_step; apply replays_apply_bc_mat.
  - destruct bcs as [[| bc l] |]; [| discriminate |]; (split; [split |]; reflexivity).
  - rewrite !after_kernels_scalar. split; [split |]; reflexivity.
Qed.

(** X14.  The callable that [create_assembly_callable] makes for a
    supplied matrix or function replays a direct assembly: calling it
    performs, in the same order, exactly the operations on the tensor
    that running the assembly pipeline directly with the same boundary
    conditions performs (zeroing the tensor first, then the parallel
    loops of the kernels, the diagonal updates of the boundary conditions
    and the finalisation), and that direct run returns. *)
Theorem callable_replays_assembly
    (dmt dsmt : string) (sfe : SparsityRequest -> bool) (mve : ParLoopCall -> bool)
    (f : Form) (t : Tensor) (bcs : option (list DirichletBC))
    (fcp : option (gmap string string)) (inverse : bool) (mat_type sub_mat_type : option string)
    (callable : AssemblyCallable) :
  mat_type <> Some "matfree" ->
  outcome (create_assembly_callable dmt dsmt sfe mve f (Some t) bcs fcp inverse mat_type
             sub_mat_type) = inr callable ->
  exists dest ids,
    dest_of_supplied f t bcs dest /\
    outcome (all_integer_subdomain_ids (compiled_kernels f)) = inr ids /\
    outcome (thunk mve f (compiled_kernels f) dest tensor_zero false ids bcs)
    = inr (result dest) /\
    call_assembly_callable callable
    = (List.filter is_executed
         (trace (thunk mve f (compiled_kernels f) dest tensor_zero false ids bcs)),
       inr tt).
Proof.
  intros Hmat H. unfold create_assembly_callable in H.
  rewrite bool_decide_eq_false_2 in H by exact Hmat.
  apply bind_ok_inv in H as (r & Hr & H).
  destruct r as [| | | | loops |]; try discriminate. injection H as <-.
  unfold _assemble in Hr. apply bind_ok_inv in Hr as (s & Hs & Hr).
  apply prepare_ok_inv in Hs.
  assert (Hdest : exists dest, dest_of_supplied f t bcs dest /\ s = inr (dest, tensor_zero)).
  { destruct (arguments f) as [| test [| trial [| ? ?]]] eqn:Hargs.
    - destruct Hs as (d & Hd & _). apply setup_scalar_ok in Hd as [_ [=]].
    - destruct Hs as (d & Hd & ->). destruct t as [A | A | F]; simpl in Hd; try discriminate.
      injection Hd as <-. exists (DestVec test F). split; [| reflexivity].
      exists test. auto.
    - destruct Hs as (its & Hs).
      apply setup_mat_ok in Hs
        as [(_ & IM & -> & _) | (_ & A & z & [([=] & _) | (A0 & [= ->] & -> & ->)] & ->)].
      + discriminate.
      + exists (DestMat test trial (set_bcs A0 bcs)). split; [| reflexivity].
        exists test, trial. auto.
    - destruct Hs as (d & Hd & _). apply setup_scalar_ok in Hd as [_ [=]]. }
  destruct Hdest as (dest & Hdest & ->). cbv beta iota in Hr.
  apply bind_ok_inv in Hr as (ids & Hids & Hr).
  apply bind_ok_inv in Hr as (loops' & Hcollected & Hr). injection Hr as <-.
  exists dest, ids. split; [exact Hdest |]. split; [exact Hids |].
  set (kernels := compiled_kernels f) in *.
  assert (Hloops : exists r, outcome (thunk mve f kernels dest tensor_zero true ids bcs) = inr r /\
                             loops' = loops_of (trace (thunk mve f kernels dest tensor_zero true
                                                         ids bcs))).
  { unfold collected in Hcollected.
    destruct (thunk mve f kernels dest tensor_zero true ids bcs) as [tr [e | r]];
      [discriminate |].
    injection Hcollected as <-. eauto. }
  destruct Hloops as (r & Hok & ->).
  rewrite thunk_eq in Hok. apply bind_ok_inv in Hok as ([] & _ & Hok).
  apply bind_ok_inv in Hok as ([] & Hkernels & Hafter).
  pose proof (after_kernels_result _ _ _ _ Hafter) as ->.
  destruct (after_kernels_collect _ _ _ Hafter) as [[Hafter_loops Hafter_out] Hafter_replays].
  destruct (same_loops_for kernels _ _ (same_loops_kernel_step mve f dest ids bcs))
    as [Hk_loops Hk_out].
  rewrite Hkernels in Hk_out. rewrite Hafter in Hafter_out.
  split.
  - rewrite thunk_eq, !outcome_bind. simpl outcome at 1. now rewrite <- Hk_out, <- Hafter_out.
  - unfold call_assembly_callable.
    assert (Hpair : forall (c : M unit), c = (trace c, outcome c)) by (now intros [? ?]).
    rewrite (Hpair (for_ _ _)), call_loops_ok. f_equal.
    rewrite !thunk_eq, !trace_bind, Hkernels, <- Hk_out. simpl outcome at 1. cbv iota.
    simpl outcome at 1. cbv iota.
    rewrite !loops_of_app, Hk_loops, Hafter_loops, <- loops_of_app.
    change (loops_of (trace (zero_step tensor_zero true))) with [LZeroTensor tensor_zero].
    change (trace (zero_step tensor_zero false)) with [EvZero].
    rewrite call_loops_app, List.filter_app. f_equal.
    apply replays_app; [| exact Hafter_replays].
    apply replays_for. intros k. apply replays_kernel_step.
Qed.

Lemma callable_replays_assembly_witness :
  exists dest ids,
    dest_of_supplied Examples.bilinear (AMatrix Examples.A11) (Some [ReuseExample.bc_V]) dest /\
    outcome (all_integer_subdomain_ids (compiled_kernels Examples.bilinear)) = inr ids /\
    outcome (thunk Examples.no_error Examples.bilinear (compiled_kernels Examples.bilinear)
               dest tensor_zero false ids (Some [ReuseExample.bc_V]))
    = inr (result dest) /\
    call_assembly_callable ReplayExample.callable
    = (List.filter is_executed
         (trace (thunk Examples.no_error Examples.bilinear
                   (compiled_kernels Examples.bilinear) dest tensor_zero false ids
                   (Some [ReuseExample.bc_V]))),
       inr tt).
Proof.
  apply (callable_replays_assembly "aij" "baij" Examples.no_error Examples.no_error
           Examples.bilinear (AMatrix Examples.A11) (Some [ReuseExample.bc_V]) None false
           None None ReplayExample.callable).
  - discriminate.
  - vm_compute. reflexivity.
Defined.

(** ** The subdomain identifiers of the kernels *)

Lemma sid_leb_false x y : sid_leb x y = Some false -> sid_le y x.
Proof.
  unfold sid_le. destruct x, y; simpl; try discriminate; try reflexivity.
  intros [= H]. f_equal. apply Z.leb_le. apply Z.leb_gt in H. lia.
Qed.

Lemma sorted_insert_HdRel x l l' z :
  sorted_insert x l = Some l' -> HdRel sid_le z l -> sid_le z x -> HdRel sid_le z l'.
Proof.
  destruct l as [| y l]; simpl; intros H Hhd Hzx.
  - injection H as <-. now constructor.
  - destruct (sid_leb x y) as [[] |]; [| | discriminate].
    + injection H as <-. now constructor.
    + destruct (sorted_insert x l); [| discriminate]. injection H as <-.
      constructor. now inversion Hhd.
Qed.

Lemma sorted_insert_Sorted x l l' :
  Sorted sid_le l -> sorted_insert x l = Some l' -> Sorted sid_le l' /\ l' ≡ₚ x :: l.
Proof.
  revert l'. induction l as [| y l IH]; simpl; intros l' Hs H.
  - injection H as <-. split; [repeat constructor | reflexivity].
  - destruct (sid_leb x y) as [[] |] eqn:Hxy; [| | discriminate].
    + injection H as <-. split; [| reflexivity]. constructor; [exact Hs | now constructor].
    + destruct (sorted_insert x l) as [l0 |] eqn:Hins; [| discriminate]. injection H as <-.
      inversion Hs as [| ? ? Hs' Hhd]; subst.
      destruct (IH l0 Hs' eq_refl) as [Hsorted Hperm]. split.
      * constructor; [exact Hsorted |].
        eapply sorted_insert_HdRel; [exact Hins | exact Hhd | now apply sid_leb_false].
      * rewrite Hperm. apply perm_swap.
Qed.

Lemma sorted_Sorted v l : sorted v = Some l -> Sorted sid_le l /\ l ≡ₚ v.
Proof.
  revert l. induction v as [| x v IH]; simpl; intros l H.
  - injection H as <-. split; [constructor | reflexivity].
  - destruct (sorted v) as [l0 |]; [| discriminate].
    destruct (IH l0 eq_refl) as [Hs Hp].
    destruct (sorted_insert_Sorted _ _ _ Hs H) as [Hs' Hp']. split; [exact Hs' |].
    now rewrite Hp', Hp.
Qed.

Lemma collect_subdomain_ids_eq kernels it :
  default [] (collect_subdomain_ids kernels !! it)
  = map (fun k => subdomain_id (kinfo k)) (List.filter (declares_id it) kernels).
Proof.
  unfold collect_subdomain_ids.
  assert (Hgen : forall d : gmap string (list SubdomainId),
    default [] (foldl (fun d k =>
             if is_otherwise (subdomain_id (kinfo k)) then d
             else <[integral_type (kinfo k) :=
                      default [] (d !! integral_type (kinfo k)) ++ [subdomain_id (kinfo k)]]> d)
           d kernels !! it)
    = default [] (d !! it)
      ++ map (fun k => subdomain_id (kinfo k)) (List.filter (declares_id it) kernels)).
  { induction kernels as [| k kernels IH]; intros d; simpl.
    - now rewrite app_nil_r.
    - rewrite IH. unfold declares_id at 2.
      destruct (is_otherwise (subdomain_id (kinfo k))).
      + now rewrite andb_false_r.
      + rewrite andb_true_r.
        destruct (String.eqb_spec (integral_type (kinfo k)) it) as [<- | Hne].
        * rewrite lookup_insert_eq. simpl. now rewrite <- app_assoc.
        * now rewrite lookup_insert_ne. }
  rewrite Hgen, lookup_empty. reflexivity.
Qed.

(** X15.  The subdomain identifiers handed to the mesh for an integral
    type are those of the kernels of that type that are not "otherwise",
    each as often as a kernel declares it, in ascending order. *)
Theorem subdomain_ids_sorted_by_type
    (kernels : list SplitKernel) (ids : gmap string (list SubdomainId)) (it : string) :
  outcome (all_integer_subdomain_ids kernels) = inr ids ->
  Sorted sid_le (default [] (ids !! it)) /\
  default [] (ids !! it)
  ≡ₚ map (fun k => subdomain_id (kinfo k)) (List.filter (declares_id it) kernels).
Proof.
  unfold all_integer_subdomain_ids. intros H.
  destruct (bool_decide _) eqn:Hall; [| discriminate]. injection H as <-.
  rewrite <- collect_subdomain_ids_eq, lookup_fmap.
  destruct (collect_subdomain_ids kernels !! it) as [v |] eqn:Hv; simpl;
    [| split; [constructor | reflexivity]].
  apply bool_decide_eq_true in Hall. destruct (Hall it v Hv) as [l Hl].
  rewrite Hl. simpl. now apply sorted_Sorted.
Qed.

Lemma subdomain_ids_sorted_by_type_witness :
  Sorted sid_le (default [] (SubdomainExample.tagged_ids !! "cell")) /\
  default [] (SubdomainExample.tagged_ids !! "cell")
  ≡ₚ map (fun k => subdomain_id (kinfo k))
       (List.filter (declares_id "cell") (compiled_kernels SubdomainExample.tagged)).
Proof.
  apply (subdomain_ids_sorted_by_type (compiled_kernels SubdomainExample.tagged)
           SubdomainExample.tagged_ids "cell").
  vm_compute. reflexivity.
Defined.

(** ** Allocation of a new matrix *)

Lemma filter_none {A} (p : A -> bool) (l : list A) :
  Forall (fun x => p x = false) l -> List.filter p l = [].
Proof.
  induction 1 as [| x l Hx _ IH]; [reflexivity |]. simpl. now rewrite Hx.
Qed.

Lemma setup_mat_new sfe f test trial bcs inverse mat_type sub_mat_type options_prefix
    collect_loops allocate_only s :
  String.eqb mat_type "matfree" = false ->
  outcome (setup_mat sfe f test trial None bcs inverse mat_type sub_mat_type options_prefix
             (sparsity_integral_types f) collect_loops allocate_only) = inr s ->
  let request := sparsity_request f test trial mat_type sub_mat_type in
  sfe request = false /\
  forallb recognised (sparsity_integral_types f) = true /\
  trace (setup_mat sfe f test trial None bcs inverse mat_type sub_mat_type options_prefix
           (sparsity_integral_types f) collect_loops allocate_only)
  = [EvSparsity request;
     EvNewMatrix (fs_name (arg_function_space test) +:+ "_"
                  +:+ fs_name (arg_function_space trial) +:+ "_matrix") options_prefix] /\
  s = if allocate_only
      then inl (RMatrix (set_assembly_callback (new_Matrix f bcs request) cb_None))
      else inr (DestMat test trial (new_Matrix f bcs request), zero_noop).
Proof.
  intros Hmat H request. unfold setup_mat in *. rewrite Hmat in *.
  rewrite (bind_silent _ _ (silent_sparsity_domains _)) in *.
  destruct (outcome (sparsity_domains (sparsity_integral_types f))) as [e | d] eqn:Hd;
    [discriminate |].
  unfold sparsity_domains in Hd. apply sparsity_domains_from in Hd as [Hrec ->].
  simpl fst in *. simpl snd in *. rewrite ?app_nil_l in *.
  fold (sparsity_request f test trial mat_type sub_mat_type) in *. fold request in H |- *.
  destruct (sfe request); [discriminate |].
  split; [reflexivity |]. split; [exact Hrec |].
  match type of H with
  | outcome (bind ?c _) = _ =>
      assert (Hc : c = ([EvSparsity request;
                         EvNewMatrix (fs_name (arg_function_space test) +:+ "_"
                                      +:+ fs_name (arg_function_space trial) +:+ "_matrix")
                           options_prefix],
                        inr (new_Matrix f bcs request, zero_noop))) by reflexivity;
      rewrite Hc in *; clear Hc
  end.
  rewrite trace_bind. rewrite outcome_bind in H. cbn [outcome trace fst snd] in *.
  destruct (tuple_ne _ _ && _); [discriminate |].
  destruct allocate_only; simpl in *; injection H as <-; split; reflexivity.
Qed.

Lemma prepare_trace_2form dmt dsmt sfe f tensor bcs fcp inverse mat_type sub_mat_type
    options_prefix collect_loops allocate_only test trial s :
  arguments f = [test; trial] ->
  outcome (prepare dmt dsmt sfe f tensor bcs fcp inverse mat_type sub_mat_type
             options_prefix collect_loops allocate_only) = inr s ->
  let setup :=
    setup_mat sfe f test trial tensor bcs inverse (default dmt mat_type)
      (default dsmt sub_mat_type) options_prefix (sparsity_integral_types f)
      collect_loops allocate_only in
  outcome setup = inr s /\
  List.filter is_allocation
    (trace (prepare dmt dsmt sfe f tensor bcs fcp inverse mat_type sub_mat_type
              options_prefix collect_loops allocate_only))
  = List.filter is_allocation (trace setup).
Proof.
  intros Hargs H setup. subst setup. unfold prepare in *. fold (sparsity_integral_types f) in *.
  destruct (negb (str_in (default dmt mat_type) _)); [discriminate |].
  destruct (negb (str_in (default dsmt sub_mat_type) _)); [discriminate |].
  rewrite outcome_bind in H. rewrite trace_bind.
  destruct (outcome (check_topology f)) as [e | []]; [discriminate |].
  rewrite outcome_bind in H. rewrite trace_bind.
  simpl outcome at 1 in H. simpl outcome at 1. cbv iota in *.
  destruct (existsb subscripted (coefficients f)); [discriminate |].
  destruct (inverse && _); [discriminate |].
  rewrite Hargs in *. split; [exact H |].
  rewrite !List.filter_app. rewrite (filter_none is_allocation (trace (check_topology f))).
  - reflexivity.
  - eapply List.Forall_impl; [| apply check_topology_quiet]. intros ev Hev. apply Hev.
Qed.

(** X16.  When [_assemble] returns for a 2-form without a supplied
    tensor and a matrix type that is not matrix-free, it has allocated
    exactly a sparsity and then a matrix on it, and nothing else: the
    sparsity is over the two argument spaces, with one region per
    integral of the form (all of a known kind), a nest for the matrix type
    "nest" and block-sparse for "baij", and the Sparsity Builder accepted
    it; a matrix it returns was made from that sparsity, the form and
    the boundary conditions. *)
Theorem new_matrix_built_on_sparsity
    (dmt dsmt : string) (sfe : SparsityRequest -> bool) (mve : ParLoopCall -> bool)
    (f : Form) (bcs : option (list DirichletBC))
    (fcp : option (gmap string string)) (inverse : bool) (mat_type sub_mat_type : option string)
    (options_prefix : option string) (collect_loops allocate_only : bool)
    (test trial : Argument) (r : Result) :
  arguments f = [test; trial] ->
  default dmt mat_type <> "matfree" ->
  outcome (_assemble dmt dsmt sfe mve f None bcs fcp inverse mat_type sub_mat_type
             options_prefix collect_loops allocate_only) = inr r ->
  let request := sparsity_request f test trial (default dmt mat_type)
                   (default dsmt sub_mat_type) in
  sfe request = false /\
  forallb recognised (sparsity_integral_types f) = true /\
  List.filter is_allocation
    (trace (_assemble dmt dsmt sfe mve f None bcs fcp inverse mat_type sub_mat_type
              options_prefix collect_loops allocate_only))
  = [EvSparsity request;
     EvNewMatrix (fs_name (arg_function_space test) +:+ "_"
                  +:+ fs_name (arg_function_space trial) +:+ "_matrix") options_prefix] /\
  forall A, r = RMatrix A ->
    mat_sparsity A = Some request /\ mat_a A = f /\ mat_bcs A = bcs.
Proof.
  intros Hargs Hmat H request. unfold _assemble in *.
  apply String.eqb_neq in Hmat.
  rewrite trace_bind, List.filter_app.
  apply bind_ok_inv in H as (s & Hs & H). rewrite Hs.
  destruct (prepare_trace_2form _ _ _ _ _ _ _ _ _ _ _ _ _ _ _ _ Hargs Hs) as [Hsetup ->].
  destruct (setup_mat_new _ _ _ _ _ _ _ _ _ _ _ _ Hmat Hsetup) as (Hsfe & Hrec & -> & ->).
  fold request in H |- *.
  split; [exact Hsfe |]. split; [exact Hrec |]. split.
  - rewrite (filter_none is_allocation (trace _)); [reflexivity |].
    apply (quiet_assemble_tail mve f _ collect_loops bcs).
  - intros A ->. destruct allocate_only.
    + simpl in H. injection H as <-. repeat split; reflexivity.
    + cbv beta iota in H.
      apply bind_ok_inv in H as (ids & _ & H). destruct collect_loops.
      * apply bind_ok_inv in H as (l & _ & H). discriminate.
      * simpl in H. injection H as <-. repeat split; reflexivity.
Qed.

Lemma new_matrix_built_on_sparsity_witness :
  exists r,
    outcome (_assemble "aij" "baij" Examples.no_error Examples.no_error Examples.bilinear
               None None None false None None None false false) = inr r /\
    List.filter is_allocation
      (trace (_assemble "aij" "baij" Examples.no_error Examples.no_error Examples.bilinear
                None None None false None None None false false))
    = [EvSparsity (sparsity_request Examples.bilinear (Examples.arg Examples.V)
                     (Examples.arg Examples.V) "aij" "baij");
       EvNewMatrix "V_V_matrix" None].
Proof.
  eexists. split; [vm_compute; reflexivity |].
  refine (proj1 (proj2 (proj2
            (new_matrix_built_on_sparsity "aij" "baij" Examples.no_error Examples.no_error
               Examples.bilinear None None false None None None false false
               (Examples.arg Examples.V) (Examples.arg Examples.V) _ eq_refl _ _)))).
  - discriminate.
  - vm_compute. reflexivity.
Defined.

(** ** Matrix-free assembly *)

(** X17.  When [_assemble] returns for a 2-form and the matrix-free
    type, nothing has been accumulated, zeroed or finalised: the call
    asked neither for the inverse nor for the collection of loops, and it
    returns an implicit matrix, either a new one for the form and the
    boundary conditions of the call, or the implicit matrix supplied,
    reassembled and returned as it is, whatever the boundary conditions
    of the call. *)
Theorem matfree_returns_implicit_matrix
    (dmt dsmt : string) (sfe : SparsityRequest -> bool) (mve : ParLoopCall -> bool)
    (f : Form) (tensor : option Tensor) (bcs : option (list DirichletBC))
    (fcp : option (gmap string string)) (inverse : bool) (mat_type sub_mat_type : option string)
    (options_prefix : option string) (collect_loops allocate_only : bool)
    (test trial : Argument) (r : Result) :
  arguments f = [test; trial] ->
  default dmt mat_type = "matfree" ->
  outcome (_assemble dmt dsmt sfe mve f tensor bcs fcp inverse mat_type sub_mat_type
             options_prefix collect_loops allocate_only) = inr r ->
  inverse = false /\ collect_loops = false /\
  quiet setup_event (_assemble dmt dsmt sfe mve f tensor bcs fcp inverse mat_type sub_mat_type
                       options_prefix collect_loops allocate_only) /\
  match tensor with
  | None =>
      r = RImplicitMatrix (mkImplicit f bcs) /\
      List.filter is_allocation
        (trace (_assemble dmt dsmt sfe mve f tensor bcs fcp inverse mat_type sub_mat_type
                  options_prefix collect_loops allocate_only))
      = [EvNewImplicitMatrix options_prefix]
  | Some t =>
      exists A,
        t = AnImplicitMatrix A /\ r = RImplicitMatrix A /\
        List.filter is_allocation
          (trace (_assemble dmt dsmt sfe mve f tensor bcs fcp inverse mat_type sub_mat_type
                    options_prefix collect_loops allocate_only)) = [] /\
        In EvImplicitAssemble
          (trace (_assemble dmt dsmt sfe mve f tensor bcs fcp inverse mat_type sub_mat_type
                    options_prefix collect_loops allocate_only))
  end.
Proof.
  intros Hargs Hmat H. unfold _assemble in *.
  apply bind_ok_inv in H as (s & Hs & H).
  destruct (prepare_trace_2form _ _ _ _ _ _ _ _ _ _ _ _ _ _ _ _ Hargs Hs) as [Hsetup Hfilter].
  pose proof (quiet_prepare dmt dsmt sfe f tensor bcs fcp inverse mat_type sub_mat_type
                options_prefix collect_loops allocate_only) as Hquiet.
  rewrite Hmat in *. unfold setup_mat in Hsetup, Hfilter.
  change (String.eqb "matfree" "matfree") with true in *. cbv iota in *.
  destruct inverse; [discriminate |]. destruct collect_loops; [discriminate |].
  split; [reflexivity |]. split; [reflexivity |].
  assert (Htail : forall A, s = inl (RImplicitMatrix A) ->
            r = RImplicitMatrix A /\
            trace (bind (prepare dmt dsmt sfe f tensor bcs fcp false mat_type sub_mat_type
                           options_prefix false allocate_only)
                     (fun s => match s with
                               | inl r => ret r
                               | inr (dest, zero_tensor) =>
                                   ids <- all_integer_subdomain_ids (compiled_kernels f) ;;
                                   if false then
                                     loops <- collected (thunk mve f (compiled_kernels f) dest
                                                           zero_tensor false ids bcs) ;;
                                     ret (RLoops loops)
                                   else
                                     match dest with
                                     | DestMat test trial result_matrix =>
                                         ret (RMatrix (set_assembly_callback result_matrix
                                                (cb_thunk (mkThunkEnv f (compiled_kernels f) test
                                                             trial zero_tensor false ids))))
                                     | _ => thunk mve f (compiled_kernels f) dest zero_tensor
                                              false ids bcs
                                     end
                               end))
            = trace (prepare dmt dsmt sfe f tensor bcs fcp false mat_type sub_mat_type
                       options_prefix false allocate_only)).
  { intros A ->. simpl in H. injection H as <-. split; [reflexivity |].
    rewrite trace_bind, Hs. simpl. now rewrite app_nil_r. }
  destruct tensor as [[A | A | F] |]; simpl in Hsetup; try discriminate;
    injection Hsetup as <-; destruct (Htail _ eq_refl) as [-> Htrace];
    unfold quiet; rewrite Htrace; (split; [exact Hquiet |]).
  - exists A. split; [reflexivity |]. split; [reflexivity |].
    rewrite Hfilter. split; [reflexivity |].
    clear -Hs Hargs Hmat. unfold prepare in *. rewrite Hmat, Hargs in *.
    change (negb (str_in "matfree" _)) with false in *. cbv iota in *.
    destruct (negb _); [discriminate |].
    rewrite outcome_bind in Hs. rewrite trace_bind, in_app_iff. right.
    destruct (outcome (check_topology f)) as [e | []]; [discriminate |].
    rewrite outcome_bind in Hs. rewrite trace_bind, in_app_iff. right.
    simpl outcome at 1 in Hs. simpl outcome at 1. cbv iota in *.
    destruct (existsb subscripted (coefficients f)); [discriminate |].
    simpl. now left.
  - split; [reflexivity |]. rewrite Hfilter. reflexivity.
Qed.

Lemma matfree_returns_implicit_matrix_witness :
  outcome (_assemble "aij" "baij" Examples.no_error Examples.no_error Examples.bilinear
             None None None false (Some "matfree") None None false false)
  = inr (RImplicitMatrix (mkImplicit Examples.bilinear None)) /\
  List.filter is_allocation
    (trace (_assemble "aij" "baij" Examples.no_error Examples.no_error Examples.bilinear
              None None None false (Some "matfree") None None false false))
  = [EvNewImplicitMatrix None].
Proof.
  assert (Hok : outcome (_assemble "aij" "baij" Examples.no_error Examples.no_error
                           Examples.bilinear None None None false (Some "matfree") None None
                           false false)
                = inr (RImplicitMatrix (mkImplicit Examples.bilinear None)))
    by (vm_compute; reflexivity).
  split; [exact Hok |].
  exact (proj2 (proj2 (proj2 (proj2
           (matfree_returns_implicit_matrix "aij" "baij" Examples.no_error Examples.no_error
              Examples.bilinear None None None false (Some "matfree") None None false false
              (Examples.arg Examples.V) (Examples.arg Examples.V) _ eq_refl eq_refl Hok))))).
Defined.

(** ** Boundary conditions on a space without index *)

Lemma for_traces {A} (l : list A) body (t : A -> list Event) :
  (forall x, In x l -> body x = (t x, inr tt)) -> for_ l body = (flat_map t l, inr tt).
Proof.
  induction l as [| x l IH]; intros H; [reflexivity |].
  simpl. rewrite (H x) by now left. rewrite IH by (intros y Hy; apply H; now right).
  reflexivity.
Qed.

Lemma bc_block_unindexed collect_loops fs nodes i j :
  unindexed fs ->
  bc_block collect_loops fs nodes i j
  = if i =? j then set_local_diagonal_entries collect_loops i j nodes (fs_component fs)
    else ret tt.
Proof.
  unfold unindexed, bc_block. intros H. destruct (i =? j); simpl; [| reflexivity].
  destruct (fs_component fs) as [c |].
  - destruct H as (p & -> & ->). reflexivity.
  - now rewrite H.
Qed.

Lemma diagonal_updates_min collect_loops nodes idx r c :
  flat_map (fun i => if i <? c
                     then [EvSetDiag collect_loops i i nodes idx;
                           EvLoopsAppend (LSetDiag i i nodes idx)]
                     else []) (seq 0 r)
  = diagonal_updates collect_loops nodes idx (Nat.min r c).
Proof.
  unfold diagonal_updates. induction r as [| r IH]; [reflexivity |].
  rewrite seq_S, flat_map_app, IH. cbn [flat_map Nat.add app].
  destruct (r <? c) eqn:Hrc.
  - apply Nat.ltb_lt in Hrc.
    replace (Nat.min (S r) c) with (S r) by lia. replace (Nat.min r c) with r by lia.
    rewrite seq_S, flat_map_app. reflexivity.
  - apply Nat.ltb_ge in Hrc.
    replace (Nat.min (S r) c) with c by lia. replace (Nat.min r c) with c by lia.
    now rewrite app_nil_r.
Qed.

(** X18.  A boundary condition on a space that belongs to no mixed
    index (and is not a full mixed space) is applied to every diagonal
    block of the matrix: its nodes are evaluated once, then the diagonal
    entries are set on each block [(i, i)] of the matrix, once each, in
    order, and on no other block. *)
Theorem unindexed_bc_on_every_diagonal_block
    (collect_loops : bool) (shape : nat * nat) (bc : DirichletBC) :
  unindexed (bc_function_space bc) ->
  fs_len (bc_function_space bc) <= 1 ->
  apply_bc_mat collect_loops shape bc
  = (EvBcNodes bc
     :: diagonal_updates collect_loops (bc_nodes bc) (fs_component (bc_function_space bc))
          (Nat.min (fst shape) (snd shape)),
     inr tt).
Proof.
  intros Hfs Hlen. unfold apply_bc_mat.
  assert (Hlt : (1 <? fs_len (bc_function_space bc)) = false) by (apply Nat.ltb_ge; lia).
  rewrite Hlt.
  rewrite (for_traces _ _
             (fun i => if i <? snd shape
                       then [EvSetDiag collect_loops i i (bc_nodes bc)
                               (fs_component (bc_function_space bc));
                             EvLoopsAppend (LSetDiag i i (bc_nodes bc)
                                              (fs_component (bc_function_space bc)))]
                       else [])).
  - rewrite diagonal_updates_min. reflexivity.
  - intros i _. destruct (i <? snd shape) eqn:Hi.
    + apply Nat.ltb_lt in Hi. rewrite (seq_split i (snd shape) Hi). apply for_at.
      * intros j Hj. rewrite bc_block_unindexed by exact Hfs. apply in_seq in Hj.
        destruct (i =? j) eqn:E; [apply Nat.eqb_eq in E; lia | reflexivity].
      * intros j Hj. rewrite bc_block_unindexed by exact Hfs. apply in_seq in Hj.
        destruct (i =? j) eqn:E; [apply Nat.eqb_eq in E; lia | reflexivity].
      * rewrite bc_block_unindexed by exact Hfs. now rewrite Nat.eqb_refl.
    + apply Nat.ltb_ge in Hi. apply for_ret. intros j Hj.
      rewrite bc_block_unindexed by exact Hfs. apply in_seq in Hj.
      destruct (i =? j) eqn:E; [apply Nat.eqb_eq in E; lia | reflexivity].
Qed.

Lemma unindexed_bc_on_every_diagonal_block_witness :
  apply_bc_mat false (2, 2) ReuseExample.bc_V
  = ([EvBcNodes ReuseExample.bc_V;
      EvSetDiag false 0 0 [0; 1] None; EvLoopsAppend (LSetDiag 0 0 [0; 1] None);
      EvSetDiag false 1 1 [0; 1] None; EvLoopsAppend (LSetDiag 1 1 [0; 1] None)],
     inr tt).
Proof.
  apply (unindexed_bc_on_every_diagonal_block false (2, 2) ReuseExample.bc_V).
  - reflexivity.
  - vm_compute. lia.
Defined.

(** ** The boundary conditions of the maps of a block *)

Lemma mat_maps test trial A tm trm i j a :
  outcome (mat test trial A tm trm i j) = inr a ->
  exists si sj,
    outcome (fs_getitem (arg_function_space test) i) = inr si /\
    outcome (fs_getitem (arg_function_space trial) j) = inr sj /\
    a = MatArg i j op2.INC
          (if truthy (tm (OfSpace si)) then Indexed (tm (OfSpace si)) 0 else NoMap,
           if truthy (trm (OfSpace sj))
           then Indexed (trm (OfSpace sj)) (if truthy (tm (OfSpace si)) then 1 else 0)
           else NoMap).
Proof.
  unfold mat. intros H.
  apply bind_ok_inv in H as (si & Hsi & H). apply bind_ok_inv in H as (sj & Hsj & H).
  destruct (_ && _); [| discriminate]. simpl in H. injection H as <-. eauto.
Qed.

Lemma kernel_context_bcs f test trial A bcs k m sdata ij bb :
  outcome (kernel_context f (DestMat test trial A) bcs k) = inr (m, sdata, ij, bb) ->
  indices k = [fst ij; snd ij] /\
  bb = block_bcs (block_shape A) (fst ij) (snd ij) bcs.
Proof.
  intros H. split; [exact (kernel_context_indices _ _ _ _ _ _ _ _ H) |].
  unfold kernel_context in H.
  apply bind_ok_inv in H as (m' & _ & H).
  apply bind_ok_inv in H as (d & _ & H).
  apply bind_ok_inv in H as (ij' & _ & H).
  destruct (negb _ && _); [discriminate |].
  apply bind_ok_inv in H as ([tsbc trbc] & Hbb & H). simpl in H. injection H as <- <- <- <-.
  pose proof (matching_bcs_by_index _ _ _ _ _ _ Hbb) as Hmatch. unfold block_bcs.
  destruct (tuple_gt (block_shape A) (1, 1)).
  - destruct Hmatch as (l & -> & -> & -> & _). reflexivity.
  - destruct Hmatch as [-> ->]. reflexivity.
Qed.

(** The output argument of the loop of a kernel on a matrix: the block
    of the indices of the kernel, with the map of the test subspace on
    the boundary conditions of the rows and the map of the trial subspace
    on those of the columns. *)
Lemma kernel_step_call_maps mve f test trial A cl ids bcs k c call :
  In (EvParLoop c call) (trace (kernel_step mve f (DestMat test trial A) cl ids bcs k)) ->
  exists i j si sj rmap cmap rest,
    indices k = [i; j] /\
    outcome (fs_getitem (arg_function_space test) i) = inr si /\
    outcome (fs_getitem (arg_function_space trial) j) = inr sj /\
    pl_args call = MatArg i j op2.INC (rmap, cmap) :: rest /\
    map_bcs rmap = (if fs_real si then None
                    else Some (fst (block_bcs (block_shape A) i j bcs))) /\
    map_space rmap = (if fs_real si then None else Some (fs_name si)) /\
    map_bcs cmap = (if fs_real sj then None
                    else Some (snd (block_bcs (block_shape A) i j bcs))) /\
    map_space cmap = (if fs_real sj then None else Some (fs_name sj)).
Proof.
  unfold kernel_step.
  rewrite (bind_silent _ _ (silent_kernel_context f _ bcs k)).
  destruct (outcome (kernel_context f (DestMat test trial A) bcs k))
    as [e | [[[m sdata] ij] bb]] eqn:Hctx; [simpl; contradiction |].
  apply kernel_context_bcs in Hctx as [Hidx ->].
  unfold measure_set.
  destruct (entity_set m (integral_type (kinfo k))) as [es |]; [| simpl; contradiction].
  rewrite bind_ret. unfold str_in. simpl existsb.
  repeat first
    [ progress (rewrite ?bind_ret, ?bind_raise; cbv beta iota zeta)
    | match goal with
      | |- In _ (trace (raise _ _)) -> _ => simpl; contradiction
      | |- context [String.eqb (integral_type (kinfo k)) ?s] =>
          let E := fresh "Ekind" in
          destruct (String.eqb_spec (integral_type (kinfo k)) s) as [E | E];
          [rewrite E in *; simpl (String.eqb _ _) |]
      | |- context [(false || ?b)%bool] => change (false || b)%bool with b
      | |- context [(true || ?b)%bool] => change (true || b)%bool with true
      | |- In _ (trace (bind (if ?b then _ else _) _)) -> _ => destruct b eqn:?
      | |- In _ (trace (bind ?c _)) -> _ =>
          rewrite (bind_silent c) by (silent; auto with silent);
          let a := fresh "a" in destruct (outcome c) as [? | a] eqn:?; [simpl; contradiction |]
      | |- In _ (trace (if ?b then _ else _)) -> _ => destruct b eqn:?
      end ].
  all: intros Hin; simpl in Hin; destruct Hin as [Hin | [Hin | []]]; [| discriminate];
    injection Hin as <- <-.
  all: match goal with
       | H : outcome (mat _ _ _ _ _ _ _) = inr _ |- _ =>
           apply mat_maps in H as (si & sj & Hsi & Hsj & ->)
       end.
  all: try match goal with
           | H : outcome (bind (map_index _ _) _) = inr _ |- _ =>
               apply bind_ok_inv in H as (? & _ & H); simpl in H; injection H as <-
           end.
  all: match goal with
       | H : outcome (for_fold _ _ _) = inr _ |- _ =>
           apply (coefficient_args_extend f (fun c_ => _)) in H as (more & ->)
       end.
  all: eexists (fst ij), (snd ij), si, sj, _, _, _.
  all: split; [exact Hidx |]; split; [exact Hsi |]; split; [exact Hsj |].
  all: split; [cbn [pl_args]; rewrite <- ?app_assoc; reflexivity |].
  all: cbv [get_map_cell get_map_exterior_facet get_map_interior_facet get_map_horizontal
            node_map];
    destruct (fs_real si), (fs_real sj); repeat split; reflexivity.
Qed.

(** X7.  In every parallel loop that a run of the thunk issues on a
    matrix, the output argument is block [(i, j)] of the indices of the
    kernel, with a map of the test subspace [i] that was given the
    boundary conditions of the rows and a map of the trial subspace [j]
    that was given those of the columns: for a matrix of more than one
    block the boundary conditions whose space (or the parent of a
    component space) has mixed index [i], respectively [j], in the order
    given; for a matrix of one block all boundary conditions.  A
    subspace that has no node map (the case the tests [if m] and [if n]
    of [mat] are for, here a space of global degrees of freedom) gets
    none. *)
Theorem block_maps_get_matching_bcs
    (mve : ParLoopCall -> bool) (f : Form) (kernels : list SplitKernel)
    (test trial : Argument) (A : Matrix)
    (z : ZeroTensor) (collect_loops : bool) (ids : gmap string (list SubdomainId))
    (bcs : option (list DirichletBC)) (c : bool) (call : ParLoopCall) :
  In (EvParLoop c call)
    (trace (thunk mve f kernels (DestMat test trial A) z collect_loops ids bcs)) ->
  exists k i j si sj rmap cmap rest,
    In k kernels /\ pl_kernel call = kernel (kinfo k) /\ indices k = [i; j] /\
    outcome (fs_getitem (arg_function_space test) i) = inr si /\
    outcome (fs_getitem (arg_function_space trial) j) = inr sj /\
    pl_args call = MatArg i j op2.INC (rmap, cmap) :: rest /\
    map_space rmap = (if fs_real si then None else Some (fs_name si)) /\
    map_space cmap = (if fs_real sj then None else Some (fs_name sj)) /\
    map_bcs rmap
    = (if fs_real si then None
       else Some (if tuple_gt (block_shape A) (1, 1)
                  then List.filter (owned_by i) <$> bcs else bcs)) /\
    map_bcs cmap
    = (if fs_real sj then None
       else Some (if tuple_gt (block_shape A) (1, 1)
                  then List.filter (owned_by j) <$> bcs else bcs)).
Proof.
  intros H. apply thunk_par_loop in H as (k & Hk & H).
  pose proof (kernel_step_spec mve f (DestMat test trial A) collect_loops ids bcs k)
    as [(e & Heq) | (call' & Hkernel & Heq)].
  { rewrite Heq in H. destruct H. }
  assert (call' = call) as ->.
  { rewrite Heq in H. simpl in H. destruct H as [[= _ <-] | [[=] | []]]. reflexivity. }
  apply kernel_step_call_maps in H
    as (i & j & si & sj & rmap & cmap & rest & Hidx & Hsi & Hsj & Hargs & Hrb & Hrs & Hcb & Hcs).
  exists k, i, j, si, sj, rmap, cmap, rest.
  repeat (split; [assumption |]).
  unfold block_bcs in Hrb, Hcb. destruct (tuple_gt (block_shape A) (1, 1)); auto.
Qed.

Lemma block_maps_get_matching_bcs_witness :
  exists k i j si sj rmap cmap rest,
    In k (compiled_kernels MapsExample.offdiag) /\
    pl_kernel MapsExample.call = kernel (kinfo k) /\ indices k = [i; j] /\
    outcome (fs_getitem (arg_function_space (Examples.arg Examples.W)) i) = inr si /\
    outcome (fs_getitem (arg_function_space (Examples.arg Examples.W)) j) = inr sj /\
    pl_args MapsExample.call = MatArg i j op2.INC (rmap, cmap) :: rest /\
    map_space rmap = (if fs_real si then None else Some (fs_name si)) /\
    map_space cmap = (if fs_real sj then None else Some (fs_name sj)) /\
    map_bcs rmap
    = (if fs_real si then None
       else Some (if tuple_gt (block_shape BcExample.A22) (1, 1)
                  then List.filter (owned_by i) <$> Some [BcExample.bc_Q; MapsExample.bc_V0]
                  else Some [BcExample.bc_Q; MapsExample.bc_V0])) /\
    map_bcs cmap
    = (if fs_real sj then None
       else Some (if tuple_gt (block_shape BcExample.A22) (1, 1)
                  then List.filter (owned_by j) <$> Some [BcExample.bc_Q; MapsExample.bc_V0]
                  else Some [BcExample.bc_Q; MapsExample.bc_V0])).
Proof.
  apply (block_maps_get_matching_bcs Examples.no_error MapsExample.offdiag
           (compiled_kernels MapsExample.offdiag) (Examples.arg Examples.W)
           (Examples.arg Examples.W) BcExample.A22 tensor_zero false ∅
           (Some [BcExample.bc_Q; MapsExample.bc_V0]) false MapsExample.call).
  vm_compute. right. left. reflexivity.
Defined.

(** In the example the rows of block (0, 1) get the boundary condition
    of the first subspace and the columns the one of the second. *)
Lemma block_maps_example :
  exists rest,
    pl_args MapsExample.call
    = MatArg 0 1 op2.INC
        (Indexed (NodeMap cell_node_map "V" (Some [MapsExample.bc_V0])) 0,
         Indexed (NodeMap cell_node_map "Q" (Some [BcExample.bc_Q])) 1) :: rest.
Proof. vm_compute. eexists. reflexivity. Qed.
